(** * swc-transformer: option resolution, coverage-plugin injection,
      module-format overlay and cache key

    A shallow embedding of [src/transformers/swc/swc-transformer.ts].

    The transformer works on untyped option trees (they come from the caller
    or from a [.swcrc] file parsed as JSON with comments), so option values
    are modelled as JavaScript values built from JSON data, with the
    property semantics the source relies on: truthiness, [?.], [??],
    property reads and strict-mode property writes, object rest and spread,
    [Array.prototype.some] and [push], and [JSON.stringify].  Operations
    that can throw return a [result].

    Option trees have no identity: an object reached in two ways is two
    copies.  Where a statement depends on which objects are shared, or on
    what a plain object inherits, [set] and the resolver are given a second
    time on a heap of objects, in [Store].

    The collaborators that live outside this file (the file system, the
    JSONC parser, [path], the swc compiler, jest's base cache-key function
    and the MD5 digest of [crypto]) are the fields of a [Host] record. *)

From Stdlib Require Import List String Ascii ZArith Bool Lia.
From Stdlib Require Import DecimalString DecimalNat.
Import ListNotations.

Open Scope string_scope.
Open Scope list_scope.

Infix "+++" := String.append (right associativity, at level 60).

(* ================================================================== *)
(** * JavaScript values *)
(* ================================================================== *)

Module JS.

(** Numbers are the integer-valued ones; no property below depends on a
    number.  A property table lists the properties in the order in which
    they were created, which is the order of enumeration for keys that are
    names, as the keys of compiler options are.  An array carries, next to its
    elements, the named properties that an assignment such as
    [arr.target = ...] creates on it. *)
#[local] Unset Elimination Schemes.

Inductive value : Type :=
| VUndef
| VNull
| VBool (b : bool)
| VNum (n : Z)
| VStr (s : string)
| VArr (items : list value) (named : list (string * value))
| VObj (props : list (string * value)).

#[local] Set Elimination Schemes.

Inductive error : Type :=
| TypeError
| Error (message : string).

Inductive result (A : Type) : Type :=
| Ok (a : A)
| Throw (e : error).

Arguments Ok {A} a.
Arguments Throw {A} e.

Definition bind {A B : Type} (c : result A) (k : A -> result B) : result B :=
  match c with
  | Ok a => k a
  | Throw e => Throw e
  end.

Notation "x <- c ;; k" := (bind c (fun x => k))
  (at level 61, c at next level, right associativity).

(** ** Truthiness and nullishness *)

Definition truthy (v : value) : bool :=
  match v with
  | VUndef | VNull => false
  | VBool b => b
  | VNum n => negb (n =? 0)%Z
  | VStr EmptyString => false
  | VStr _ => true
  | VArr _ _ | VObj _ => true
  end.

Definition nullish (v : value) : bool :=
  match v with
  | VUndef | VNull => true
  | _ => false
  end.

(** [a ?? b] *)
Definition coalesce (a b : value) : value := if nullish a then b else a.

(** [v === s] for a string literal [s] *)
Definition strict_eq_string (v : value) (s : string) : bool :=
  match v with
  | VStr t => String.eqb t s
  | _ => false
  end.

(** ** Property tables *)

Definition props := list (string * value).

Fixpoint lookup (k : string) (ps : props) : option value :=
  match ps with
  | [] => None
  | (k', x) :: r => if String.eqb k k' then Some x else lookup k r
  end.

(** [o[k] = x] on a property table: an existing key keeps its place. *)
Fixpoint assign (k : string) (x : value) (ps : props) : props :=
  match ps with
  | [] => [(k, x)]
  | (k', y) :: r =>
      if String.eqb k k' then (k, x) :: r else (k', y) :: assign k x r
  end.

Fixpoint remove_key (k : string) (ps : props) : props :=
  match ps with
  | [] => []
  | (k', y) :: r =>
      if String.eqb k k' then remove_key k r else (k', y) :: remove_key k r
  end.

Definition or_undefined (o : option value) : value :=
  match o with
  | Some x => x
  | None => VUndef
  end.

(** Array indices as property keys: the canonical decimal strings. *)
Definition key_of_index (i : nat) : string :=
  NilZero.string_of_uint (Nat.to_uint i).

Definition index_of_key (k : string) : option nat :=
  match NilEmpty.uint_of_string k with
  | Some u =>
      let i := Nat.of_uint u in
      if String.eqb (key_of_index i) k then Some i else None
  | None => None
  end.

Definition char_at (i : nat) (s : string) : value :=
  match String.get i s with
  | Some c => VStr (String c EmptyString)
  | None => VUndef
  end.

(** ** Property reads *)

(** The value of [v[k]] when [v] is not nullish, and of [v?.[k]] for
    every [v].  The keys this file reads ([env], [jsc], [target], [0], ...)
    are never names inherited from a prototype, so a primitive only answers
    to [length] and to indices. *)
Definition prop (v : value) (k : string) : value :=
  match v with
  | VObj ps => or_undefined (lookup k ps)
  | VArr items named =>
      if String.eqb k "length" then VNum (Z.of_nat (List.length items))
      else match index_of_key k with
           | Some i => nth i items VUndef
           | None => or_undefined (lookup k named)
           end
  | VStr s =>
      if String.eqb k "length" then VNum (Z.of_nat (String.length s))
      else match index_of_key k with
           | Some i => char_at i s
           | None => VUndef
           end
  | VUndef | VNull | VBool _ | VNum _ => VUndef
  end.

(** [v[k]], [v.k] *)
Definition get_prop (v : value) (k : string) : result value :=
  if nullish v then Throw TypeError else Ok (prop v k).

(** [a?.k1?.k2 ...] *)
Definition opt_chain (v : value) (path : list string) : value :=
  fold_left prop path v.

(** ** Property writes *)

(** [v[k] = x] in strict mode (the file is a module): a write on
    [undefined] or [null] and a write that would create a property on a
    primitive both throw.  Every key this file writes is a literal name, never
    an index nor [length], so on an array the write creates or updates a
    named property. *)
Definition set_prop (v : value) (k : string) (x : value) : result value :=
  match v with
  | VObj ps => Ok (VObj (assign k x ps))
  | VArr items named => Ok (VArr items (assign k x named))
  | VUndef | VNull | VBool _ | VNum _ | VStr _ => Throw TypeError
  end.

(** [root.k1. ... .kn] *)
Fixpoint read (root : value) (path : list string) : result value :=
  match path with
  | [] => Ok root
  | k :: rest => c <- get_prop root k ;; read c rest
  end.

(** [root.k1. ... .kn = x]; the result is [root] after the write.  The
    object reached through [root.k1] is shared with [root], so its new
    contents are stored back under [k1]. *)
Fixpoint write (root : value) (path : list string) (x : value) : result value :=
  match path with
  | [] => Ok root
  | [k] => set_prop root k x
  | k :: rest =>
      c <- get_prop root k ;;
      c' <- write c rest x ;;
      set_prop root k c'
  end.

(** ** Own enumerable properties, rest and spread *)

Definition indexed (l : list value) : props :=
  combine (map key_of_index (seq 0 (List.length l))) l.

Fixpoint chars (s : string) : list value :=
  match s with
  | EmptyString => []
  | String c r => VStr (String c EmptyString) :: chars r
  end.

Definition own_props (v : value) : props :=
  match v with
  | VObj ps => ps
  | VArr items named => indexed items ++ named
  | VStr s => indexed (chars s)
  | VUndef | VNull | VBool _ | VNum _ => []
  end.

(** [const { excluded, ...rest } = v] (the value of [rest]) *)
Definition object_rest (excluded : string) (v : value) : result value :=
  if nullish v then Throw TypeError
  else Ok (VObj (remove_key excluded (own_props v))).

(** [{ ...acc, ...v }] *)
Definition spread (acc : props) (v : value) : props :=
  fold_left (fun a kv => assign (fst kv) (snd kv) a) (own_props v) acc.

(** ** Arrays *)

Definition isArray (v : value) : bool :=
  match v with
  | VArr _ _ => true
  | _ => false
  end.

(** [items.some(pred)]: stops at the first element that satisfies [pred],
    and an exception raised by [pred] escapes. *)
Fixpoint some (pred : value -> result bool) (items : list value) : result bool :=
  match items with
  | [] => Ok false
  | x :: r => b <- pred x ;; if b then Ok true else some pred r
  end.

(** [v.push(x)], the receiver after the call.  Nothing but an array has a
    callable [push], and an own property of that name would hide it. *)
Definition push (v : value) (x : value) : result value :=
  match v with
  | VArr items named =>
      match lookup "push" named with
      | Some _ => Throw TypeError
      | None => Ok (VArr (items ++ [x]) named)
      end
  | _ => Throw TypeError
  end.

(** ** Strings *)

Fixpoint join (sep : string) (l : list string) : string :=
  match l with
  | [] => EmptyString
  | [s] => s
  | s :: r => s +++ sep +++ join sep r
  end.

(** [s.split('.')] *)
Fixpoint split_dot_aux (cur : string) (s : string) : list string :=
  match s with
  | EmptyString => [cur]
  | String c r =>
      if Ascii.eqb c "."%char then cur :: split_dot_aux EmptyString r
      else split_dot_aux (cur +++ String c EmptyString) r
  end.

Definition split_dot (s : string) : list string := split_dot_aux EmptyString s.

(** ** [JSON.stringify] *)

Definition dquote : string := String (ascii_of_nat 34) EmptyString.
Definition backslash : string := String (ascii_of_nat 92) EmptyString.

Definition hex_digit (n : nat) : ascii :=
  if Nat.ltb n 10 then ascii_of_nat (48 + n) else ascii_of_nat (87 + n).

Definition escape_char (c : ascii) : string :=
  let n := nat_of_ascii c in
  if Nat.eqb n 34 then backslash +++ dquote
  else if Nat.eqb n 92 then backslash +++ backslash
  else if Nat.eqb n 8 then backslash +++ "b"
  else if Nat.eqb n 9 then backslash +++ "t"
  else if Nat.eqb n 10 then backslash +++ "n"
  else if Nat.eqb n 12 then backslash +++ "f"
  else if Nat.eqb n 13 then backslash +++ "r"
  else if Nat.ltb n 32 then
    backslash +++ "u00" +++
    String (hex_digit (n / 16)) (String (hex_digit (n mod 16)) EmptyString)
  else String c EmptyString.

Fixpoint escape (s : string) : string :=
  match s with
  | EmptyString => EmptyString
  | String c r => escape_char c +++ escape r
  end.

Definition quote (s : string) : string := dquote +++ escape s +++ dquote.

(** [None] is the [undefined] that [JSON.stringify] yields for [undefined]:
    such a property is left out of an object, and such an element of an array
    is written [null]. *)
Fixpoint json (v : value) : option string :=
  match v with
  | VUndef => None
  | VNull => Some "null"
  | VBool true => Some "true"
  | VBool false => Some "false"
  | VNum n => Some (NilZero.string_of_int (Z.to_int n))
  | VStr s => Some (quote s)
  | VArr items _ =>
      Some ("[" +++
            join "," (map (fun x => match json x with
                                    | Some s => s
                                    | None => "null"
                                    end) items) +++ "]")
  | VObj ps =>
      Some ("{" +++
            join "," (flat_map (fun kv => let '(k, x) := kv in
                                          match json x with
                                          | Some s => [quote k +++ ":" +++ s]
                                          | None => []
                                          end) ps) +++ "}")
  end.

Definition JSON_stringify (v : value) : value :=
  match json v with
  | Some s => VStr s
  | None => VUndef
  end.

End JS.

Import JS.

(* ================================================================== *)
(** * The transformer *)
(* ================================================================== *)

(** [ParseError] of jsonc-parser: a plain object with three numbers. *)
Module ParseError.

Record t : Type := { error : nat; offset : nat; length : nat }.

(** What [Array.prototype.join] makes of a plain object:
    [Object.prototype.toString]. *)
Definition toString (e : t) : string := "[object Object]".

End ParseError.

(** The part of jest's [TransformOptions] this file reads, and the rest
    of it, which only the base cache-key function sees. *)
Record TransformOptions : Type := {
  instrument : bool;
  supportsStaticESM : bool;
  config : value;
  configString : string
}.

(** The arguments of [getCacheKey] after [src] and [filename]: jest before
    version 27 passes [(configString, options)], later versions [(options)]. *)
Inductive cache_rest : Type :=
| Jest26 (configStr : string) (options : TransformOptions)
| Jest27 (options : TransformOptions).

(** [{ code, map }] *)
Record Output : Type := {
  code : string;
  map : option string
}.

(** The collaborators outside this file. *)
Record Host : Type := {
  (** [process.cwd()] *)
  cwd : string;
  (** [path.join], [path.resolve] *)
  path_join : string -> string -> string;
  path_resolve : string -> string;
  (** [fs.existsSync] and [fs.readFileSync(_, 'utf-8')]: [None] when the
      file does not exist *)
  readFile : string -> option string;
  (** [parse] of jsonc-parser: the parsed value and the errors it pushed *)
  parseJsonC : string -> value * list ParseError.t;
  (** [version] of @swc/core *)
  swcVersion : string;
  (** @jest/create-cache-key-function *)
  getCacheKeyFunction :
    list string -> list value -> string -> string -> cache_rest -> string;
  (** [crypto.createHash('md5') ... .digest('hex')] of the bytes fed *)
  md5_hex : string -> string;
  (** [transformSync] and [transform] of @swc/core *)
  transformSync : string -> value -> result Output;
  transform : string -> value -> result Output
}.

Definition version : string := "0.2.26".

Definition coverage_plugin : string := "swc-plugin-coverage-instrument".

(** ** [set] *)

(** The loop of [set] from the object [o] on: [parents] are the names still
    to walk, [key] the last one.  The object under [o[prop]] is shared with
    [o], so what the rest of the walk does to it is stored back. *)
Fixpoint set_from (o : value) (parents : list string) (key : string)
    (x : value) : result value :=
  match parents with
  | [] => set_prop o key x
  | p :: rest =>
      c <- get_prop o p ;;
      o1 <- (if nullish c then set_prop o p (VObj []) else Ok o) ;;
      c1 <- get_prop o1 p ;;
      c2 <- set_from c1 rest key x ;;
      set_prop o1 p c2
  end.

Definition set (obj : value) (path : string) (x : value) : result value :=
  let parents := split_dot path in
  let key := last parents EmptyString in
  set_from obj (removelast parents) key x.

Arguments set : simpl never.

(** ** [insertInstrumentationOptions] *)

(** A statement of the function body: the shared options after it. *)
Definition statement := value -> result value.

(** The statements run in order on the shared options; a statement that
    throws leaves them as the statements before it made them. *)
Fixpoint run_statements (body : list statement) (opts : value)
    : value * result unit :=
  match body with
  | [] => (opts, Ok tt)
  | st :: rest =>
      match st opts with
      | Ok opts' => run_statements rest opts'
      | Throw e => (opts, Throw e)
      end
  end.

Definition plugins_path : list string := ["jsc"; "experimental"; "plugins"].

(** [x[0] === 'swc-plugin-coverage-instrument'] *)
Definition names_coverage_plugin (x : value) : result bool :=
  id <- get_prop x "0" ;; Ok (strict_eq_string id coverage_plugin).

(** [swcTransformOpts?.jsc?.experimental?.plugins?.some(...)] as a
    condition.  A value that is neither nullish nor an array has no
    callable [some], and an own property of that name would hide the
    array's. *)
Definition already_inserted (swcTransformOpts : value) : result bool :=
  match opt_chain swcTransformOpts plugins_path with
  | VUndef | VNull => Ok false
  | VArr items named =>
      match lookup "some" named with
      | Some _ => Throw TypeError
      | None => some names_coverage_plugin items
      end
  | _ => Throw TypeError
  end.

(** [if (!swcTransformOpts.jsc) swcTransformOpts.jsc = {}] *)
Definition ensure_jsc : statement := fun o =>
  jsc <- read o ["jsc"] ;;
  if negb (truthy jsc) then write o ["jsc"] (VObj []) else Ok o.

(** [if (!swcTransformOpts.jsc.experimental)
       swcTransformOpts.jsc.experimental = {}] *)
Definition ensure_experimental : statement := fun o =>
  e <- read o ["jsc"; "experimental"] ;;
  if negb (truthy e) then write o ["jsc"; "experimental"] (VObj []) else Ok o.

(** [if (!Array.isArray(swcTransformOpts.jsc.experimental.plugins))
       swcTransformOpts.jsc.experimental.plugins = []] *)
Definition ensure_plugins : statement := fun o =>
  p <- read o plugins_path ;;
  if negb (isArray p) then write o plugins_path (VArr [] []) else Ok o.

(** [swcTransformOpts.jsc.experimental.plugins?.push(
       ['swc-plugin-coverage-instrument', instrumentOptions ?? {}])] *)
Definition push_plugin (instrumentOptions : value) : statement := fun o =>
  p <- read o plugins_path ;;
  if nullish p then Ok o
  else
    p' <- push p (VArr [VStr coverage_plugin;
                        coalesce instrumentOptions (VObj [])] []) ;;
    write o plugins_path p'.

(** The statements after the guard. *)
Definition injector_body (instrumentOptions : value) : list statement :=
  [ensure_jsc; ensure_experimental; ensure_plugins;
   push_plugin instrumentOptions].

Definition insertInstrumentationOptions (jestOptions : TransformOptions)
    (canInstrument : bool) (swcTransformOpts : value)
    (instrumentOptions : value) : value * result unit :=
  let shouldInstrument := instrument jestOptions && canInstrument in
  if negb shouldInstrument then (swcTransformOpts, Ok tt)
  else
    match already_inserted swcTransformOpts with
    | Throw e => (swcTransformOpts, Throw e)
    | Ok true => (swcTransformOpts, Ok tt)
    | Ok false =>
        run_statements (injector_body instrumentOptions) swcTransformOpts
    end.

(** ** The configured instance *)

(** What the methods of the object returned by [createTransformer] close
    over.  [process] and [processAsync] update [computedSwcOptions] in place;
    [cacheKeyFunction] is built once. *)
Record Transformer : Type := {
  canInstrument : bool;
  computedSwcOptions : value;
  instrumentOptions : value;
  cacheKeyFunction : string -> string -> cache_rest -> string
}.

Definition with_options (t : Transformer) (opts : value) : Transformer :=
  {| canInstrument := canInstrument t;
     computedSwcOptions := opts;
     instrumentOptions := instrumentOptions t;
     cacheKeyFunction := cacheKeyFunction t |}.

(** [{ ...computedSwcOptions, module: { ...computedSwcOptions.module,
       type }, filename }] *)
Definition overlay (computed : value) (type : string) (filename : string)
    : result value :=
  m <- get_prop computed "module" ;;
  let module := VObj (assign "type" (VStr type) (spread [] m)) in
  Ok (VObj (assign "filename" (VStr filename)
              (assign "module" module (spread [] computed)))).

Arguments overlay : simpl never.

(** [typeof rest[0] === 'string' ? rest[1] : rest[0]] *)
Definition call_options (rest : cache_rest) : TransformOptions :=
  match rest with
  | Jest26 _ options => options
  | Jest27 options => options
  end.

(** [hash.update(data)] of [crypto], on the bytes fed so far: [data] has
    to be a string *)
Definition update (fed : string) (data : value) : result string :=
  match data with
  | VStr s => Ok (fed +++ s)
  | _ => Throw TypeError
  end.

(** ** The options handed to the compiler *)

(** What [process] does before it delegates to [transformSync]: the
    instance after the injector ran, and the options object of the call
    (none when the injector threw). *)
Definition process_options (t : Transformer) (filename : string)
    (jestOptions : TransformOptions) : Transformer * result value :=
  let (opts, done) :=
    insertInstrumentationOptions jestOptions (canInstrument t)
      (computedSwcOptions t) (instrumentOptions t) in
  (with_options t opts,
   _ <- done ;;
   overlay opts (if supportsStaticESM jestOptions then "es6" else "commonjs")
     filename).

(** The same for [processAsync] and [transform]. *)
Definition processAsync_options (t : Transformer) (filename : string)
    (jestOptions : TransformOptions) : Transformer * result value :=
  let (opts, done) :=
    insertInstrumentationOptions jestOptions (canInstrument t)
      (computedSwcOptions t) (instrumentOptions t) in
  (with_options t opts,
   _ <- done ;;
   overlay opts "es6" filename).

(** ** Sequences of transform calls on one instance *)

Inductive call : Type :=
| Sync (src filename : string) (jestOptions : TransformOptions)
| Async (src filename : string) (jestOptions : TransformOptions).

Definition call_jestOptions (c : call) : TransformOptions :=
  match c with
  | Sync _ _ jestOptions | Async _ _ jestOptions => jestOptions
  end.

(** The instance after one call. *)
Definition step (t : Transformer) (c : call) : Transformer :=
  match c with
  | Sync _ filename jestOptions => fst (process_options t filename jestOptions)
  | Async _ filename jestOptions =>
      fst (processAsync_options t filename jestOptions)
  end.

(** The instance after the calls, made one after the other; a call that
    throws does not keep the caller from making the next. *)
Definition after (t : Transformer) (calls : list call) : Transformer :=
  fold_left step calls t.

Definition nul : string := String (ascii_of_nat 0) EmptyString.

Section Configured.

Variable host : Host.

(** ** [getOptionsFromSwrc] *)

Definition getOptionsFromSwrc : result value :=
  let swcrc := path_join host (cwd host) ".swcrc" in
  match readFile host swcrc with
  | Some text =>
      let (options, errors) := parseJsonC host text in
      if Nat.ltb 0 (List.length errors) then
        Throw (Error ("Error parsing " +++ swcrc +++ ": " +++
                      join ", " (List.map ParseError.toString errors)))
      else Ok options
  | None => Ok (VObj [])
  end.

(** ** [buildSwcTransformOpts] *)

(** [path.resolve(p)]: the argument has to be a string *)
Definition resolve (p : value) : result value :=
  match p with
  | VStr s => Ok (VStr (path_resolve host s))
  | _ => Throw TypeError
  end.

(** [if (!computedSwcOptions.env && !computedSwcOptions.jsc?.target)
       set(computedSwcOptions, 'jsc.target', 'es2016')] *)
Definition default_target : statement := fun o =>
  if negb (truthy (prop o "env")) &&
     negb (truthy (opt_chain o ["jsc"; "target"]))
  then set o "jsc.target" (VStr "es2016")
  else Ok o.

(** [set(computedSwcOptions, 'jsc.transform.hidden.jest', true)] *)
Definition mark_jest : statement := fun o =>
  set o "jsc.transform.hidden.jest" (VBool true).

(** [if (!computedSwcOptions.sourceMaps)
       set(computedSwcOptions, 'sourceMaps', 'inline')] *)
Definition default_sourceMaps : statement := fun o =>
  if negb (truthy (prop o "sourceMaps"))
  then set o "sourceMaps" (VStr "inline")
  else Ok o.

(** [if (computedSwcOptions.jsc?.baseUrl)
       set(computedSwcOptions, 'jsc.baseUrl',
           path.resolve(computedSwcOptions.jsc.baseUrl))] *)
Definition resolve_baseUrl : statement := fun o =>
  if truthy (opt_chain o ["jsc"; "baseUrl"])
  then
    b <- read o ["jsc"; "baseUrl"] ;;
    p <- resolve b ;;
    set o "jsc.baseUrl" p
  else Ok o.

(** [swcOptions || getOptionsFromSwrc()] *)
Definition given_options (swcOptions : value) : result value :=
  if truthy swcOptions then Ok swcOptions else getOptionsFromSwrc.

Definition buildSwcTransformOpts (swcOptions : value) : result value :=
  given <- given_options swcOptions ;;
  o <- object_rest "experimental" given ;;
  o <- default_target o ;;
  o <- mark_jest o ;;
  o <- default_sourceMaps o ;;
  o <- resolve_baseUrl o ;;
  Ok o.

(** ** [createTransformer] *)

Definition createTransformer (swcTransformOpts : value) : result Transformer :=
  computed <- buildSwcTransformOpts swcTransformOpts ;;
  let keyFunction :=
    getCacheKeyFunction host []
      [VStr (swcVersion host); VStr version; JSON_stringify computed] in
  let coverage :=
    coalesce (opt_chain swcTransformOpts
                ["experimental"; "customCoverageInstrumentation"])
             (VObj []) in
  let enabled := prop coverage "enabled" in
  rest <- object_rest "enabled" coverage ;;
  Ok {| canInstrument := truthy enabled;
        computedSwcOptions := computed;
        instrumentOptions := rest;
        cacheKeyFunction := keyFunction |}.

(** ** [process], [processAsync] *)

Definition process (t : Transformer) (src filename : string)
    (jestOptions : TransformOptions) : Transformer * result Output :=
  let (t', options) := process_options t filename jestOptions in
  (t', o <- options ;; transformSync host src o).

(** The promise that [processAsync] returns is modelled by its outcome. *)
Definition processAsync (t : Transformer) (src filename : string)
    (jestOptions : TransformOptions) : Transformer * result Output :=
  let (t', options) := processAsync_options t filename jestOptions in
  (t', o <- options ;; transform host src o).

(** ** [getCacheKey] *)

Definition getCacheKey (t : Transformer) (src filename : string)
    (rest : cache_rest) : result string :=
  let baseCacheKey := cacheKeyFunction t src filename rest in
  let options := call_options rest in
  h <- update EmptyString (VStr baseCacheKey) ;;
  h <- update h (VStr nul) ;;
  h <- update h (JSON_stringify
                   (VObj [("supportsStaticESM",
                           VBool (supportsStaticESM options))])) ;;
  Ok (md5_hex host h).

End Configured.

(* ================================================================== *)
(** * Vocabulary of the statements *)
(* ================================================================== *)

(** ** Paths and shapes *)

(** A key that is neither [length] nor an array index. *)
Definition is_name (k : string) : bool :=
  negb (String.eqb k "length") &&
  match index_of_key k with
  | Some _ => false
  | None => true
  end.

(** An object or an array: what a property can be written to. *)
Definition object_like (v : value) : bool :=
  match v with
  | VObj _ | VArr _ _ => true
  | _ => false
  end.

(** The two paths part ways at some position that both have. *)
Fixpoint diverges (p q : list string) : bool :=
  match p, q with
  | k :: p', k' :: q' => if String.eqb k k' then diverges p' q' else true
  | _, _ => false
  end.

(** [w] is not a prefix of [q]. *)
Fixpoint not_prefix (w q : list string) : bool :=
  match w, q with
  | [], _ => false
  | _ :: _, [] => true
  | k :: w', k' :: q' => if String.eqb k k' then not_prefix w' q' else true
  end.

(** [set] can walk down [parents] from [o]: every value on the way is an
    object, up to the first that is missing. *)
Fixpoint walkable (o : value) (parents : list string) : bool :=
  object_like o &&
  match parents with
  | [] => true
  | p :: rest => nullish (prop o p) || walkable (prop o p) rest
  end.

(** The places the resolver writes to. *)
Definition target_path : list string := ["jsc"; "target"].
Definition marker_path : list string := ["jsc"; "transform"; "hidden"; "jest"].
Definition baseUrl_path : list string := ["jsc"; "baseUrl"].

(** Neither [env] nor [jsc.target] is set to something truthy. *)
Definition lacks_target (o : value) : bool :=
  negb (truthy (prop o "env")) && negb (truthy (opt_chain o target_path)).

(** A string, or nothing that counts. *)
Definition string_or_falsy (v : value) : bool :=
  match v with
  | VStr _ => true
  | _ => negb (truthy v)
  end.

(** The shape swc's [Options] type gives the places the resolver writes
    to: [jsc], [jsc.transform] and [jsc.transform.hidden] are objects where
    they are present, and [jsc.baseUrl] is a string. *)
Definition resolvable (given : value) : bool :=
  negb (nullish given) &&
  (nullish (prop given "jsc") ||
   walkable (prop given "jsc") ["transform"; "hidden"]) &&
  string_or_falsy (opt_chain given baseUrl_path).

(** The only exception with a message is the one [getOptionsFromSwrc]
    raises; everything else that can go wrong at setup is a [TypeError]. *)
Definition only_TypeError {A : Type} (r : result A) : Prop :=
  forall e, r = Throw e -> e = TypeError.

(** ** The plugin list *)

(** The plugin list of the shared options: the elements of
    [jsc.experimental.plugins] when that is an array. *)
Definition plugin_items (opts : value) : list value :=
  match opt_chain opts plugins_path with
  | VArr items _ => items
  | _ => []
  end.

(** An entry whose identifier, its first component, is the coverage
    plugin. *)
Definition is_coverage_entry (x : value) : bool :=
  strict_eq_string (prop x "0") coverage_plugin.

(** How many entries of the plugin list name the coverage plugin. *)
Definition coverage_count (opts : value) : nat :=
  List.length (filter is_coverage_entry (plugin_items opts)).

(** The descriptor that the injector appends. *)
Definition coverage_entry (instrumentOptions : value) : value :=
  VArr [VStr coverage_plugin; coalesce instrumentOptions (VObj [])] [].

(** The reads that a statement leaves alone: those along a path of names
    that parts ways with [jsc.experimental.plugins]. *)
Definition frames (o o' : value) : Prop :=
  forall q, diverges plugins_path q = true -> forallb is_name q = true ->
            opt_chain o' q = opt_chain o q.

(** Every value from [o] down [path], the one at its end included, is an
    object. *)
Fixpoint objects_along (o : value) (path : list string) : bool :=
  object_like o &&
  match path with
  | [] => true
  | k :: rest => objects_along (prop o k) rest
  end.

Definition has_own (k : string) (named : props) : bool :=
  match lookup k named with
  | Some _ => true
  | None => false
  end.

(** [jsc.experimental.plugins] as swc's [Options] type has it: absent, or
    an array of entries (with nothing that hides [some] or [push]). *)
Definition plugin_list_ok (p : value) : bool :=
  match p with
  | VUndef | VNull => true
  | VArr items named =>
      forallb (fun x => negb (nullish x)) items &&
      negb (has_own "some" named) && negb (has_own "push" named)
  | _ => false
  end.

(** Shared options on which the injector does not throw: [jsc] and
    [jsc.experimental] are objects where they are truthy, and the plugin list
    is as above. *)
Definition injectable (o : value) : bool :=
  object_like o &&
  (negb (truthy (prop o "jsc")) ||
   object_like (prop o "jsc") &&
   (negb (truthy (opt_chain o ["jsc"; "experimental"])) ||
    object_like (opt_chain o ["jsc"; "experimental"]) &&
    plugin_list_ok (opt_chain o plugins_path))).

(** ** The bytes of the cache key *)

(** [JSON.stringify({ supportsStaticESM: flag })] *)
Definition flag_json (flag : bool) : string :=
  "{" +++ dquote +++ "supportsStaticESM" +++ dquote +++ ":" +++
  (if flag then "true" else "false") +++ "}".

(** The bytes that [getCacheKey] feeds to the hash. *)
Definition key_material (base : string) (flag : bool) : string :=
  base +++ nul +++ flag_json flag.

(** ** Example hosts, setup options and call options *)

(** A host without a [.swcrc] file, with stand-ins for the compiler, the
    base cache-key function and the digest. *)
Definition example_host : Host :=
  {| cwd := "/project";
     path_join := fun a b => a +++ "/" +++ b;
     path_resolve := fun p => "/project/" +++ p;
     readFile := fun _ => None;
     parseJsonC := fun _ => (VUndef, []);
     swcVersion := "1.3.100";
     getCacheKeyFunction := fun _ values src filename _ =>
       match values with
       | [_; _; VStr options] => options +++ src +++ filename
       | _ => src +++ filename
       end;
     md5_hex := fun bytes => bytes;
     transformSync := fun src _ => Ok {| code := src; map := None |};
     transform := fun src _ => Ok {| code := src; map := None |} |}.

(** A host whose [.swcrc] has an opening brace and nothing else. *)
Definition broken_host : Host :=
  {| cwd := "/project";
     path_join := fun a b => a +++ "/" +++ b;
     path_resolve := fun p => "/project/" +++ p;
     readFile := fun p =>
       if String.eqb p "/project/.swcrc" then Some "{" else None;
     parseJsonC := fun _ =>
       (VObj [],
        [{| ParseError.error := 7; ParseError.offset := 1;
            ParseError.length := 0 |}]);
     swcVersion := "1.3.100";
     getCacheKeyFunction := fun _ _ src filename _ => src +++ filename;
     md5_hex := fun bytes => bytes;
     transformSync := fun src _ => Ok {| code := src; map := None |};
     transform := fun src _ => Ok {| code := src; map := None |} |}.

(** Options that switch the marker off and ask for no source maps. *)
Definition options_marker_off : value :=
  VObj [("sourceMaps", VBool false);
        ("jsc", VObj [("transform",
                       VObj [("hidden", VObj [("jest", VBool false)])])])].

(** Options with a target of their own. *)
Definition options_es5 : value :=
  VObj [("jsc", VObj [("target", VStr "es5")]); ("sourceMaps", VBool true)].

(** Setup options that make the instance capable of instrumenting. *)
Definition options_coverage : value :=
  VObj [("experimental",
         VObj [("customCoverageInstrumentation",
                VObj [("enabled", VBool true); ("compact", VBool true)])])].

(** The same, with the coverage plugin already listed twice by the
    caller. *)
Definition options_plugin_twice : value :=
  VObj [("jsc",
         VObj [("experimental",
                VObj [("plugins",
                       VArr [VArr [VStr coverage_plugin; VObj []] [];
                             VArr [VStr coverage_plugin; VObj []] []] [])])]);
        ("experimental",
         VObj [("customCoverageInstrumentation",
                VObj [("enabled", VBool true)])])].

(** The options of a transform call. *)
Definition jest_options (coverage esm : bool) : TransformOptions :=
  {| instrument := coverage;
     supportsStaticESM := esm;
     config := VObj [("rootDir", VStr "/project")];
     configString := "{}" |}.

(** ** Further examples *)

(** Options with a base path and a parser setting. *)
Definition options_baseUrl : value :=
  VObj [("jsc", VObj [("baseUrl", VStr "src");
                      ("parser", VObj [("syntax", VStr "typescript")])])].

(** A host like [example_host] whose [.swcrc] holds [null]. *)
Definition null_host : Host :=
  {| cwd := "/project";
     path_join := fun a b => a +++ "/" +++ b;
     path_resolve := fun p => "/project/" +++ p;
     readFile := fun p =>
       if String.eqb p "/project/.swcrc" then Some "null" else None;
     parseJsonC := fun _ => (VNull, []);
     swcVersion := "1.3.100";
     getCacheKeyFunction := fun _ _ src filename _ => src +++ filename;
     md5_hex := fun bytes => bytes;
     transformSync := fun src _ => Ok {| code := src; map := None |};
     transform := fun src _ => Ok {| code := src; map := None |} |}.

(** What setup resolves to when it is given nothing. *)
Definition default_options : value :=
  VObj [("jsc",
         VObj [("target", VStr "es2016");
               ("transform", VObj [("hidden", VObj [("jest", VBool true)])])]);
        ("sourceMaps", VStr "inline")].

(** Shared options whose plugin list is no array. *)
Definition options_plugins_misplaced : value :=
  VObj [("jsc", VObj [("experimental", VObj [("plugins", VStr "coverage")])])].

(** No key occurs twice in a property table, as in every object. *)
Fixpoint unique_keys (ps : props) : bool :=
  match ps with
  | [] => true
  | (k, _) :: r =>
      match lookup k r with
      | Some _ => false
      | None => true
      end && unique_keys r
  end.

(** Resolved options that carry settings for the module format. *)
Definition options_module : value :=
  VObj [("jsc", VObj [("target", VStr "es2016")]);
        ("module", VObj [("type", VStr "amd"); ("strict", VBool true)]);
        ("sourceMaps", VStr "inline")].

(** A host whose [path.resolve] leaves absolute paths alone. *)
Definition absolute_host : Host :=
  {| cwd := "/project";
     path_join := fun a b => a +++ "/" +++ b;
     path_resolve := fun p =>
       match p with
       | String "/" _ => p
       | _ => "/project/" +++ p
       end;
     readFile := fun _ => None;
     parseJsonC := fun _ => (VUndef, []);
     swcVersion := "1.3.100";
     getCacheKeyFunction := fun _ _ src filename _ => src +++ filename;
     md5_hex := fun bytes => bytes;
     transformSync := fun src _ => Ok {| code := src; map := None |};
     transform := fun src _ => Ok {| code := src; map := None |} |}.

(** Setup options whose [jsc.experimental], where it counts, is an object
    with a plugin list as swc's [Options] type has it. *)
Definition plugins_typed (given : value) : bool :=
  negb (truthy (opt_chain given ["jsc"; "experimental"])) ||
  object_like (opt_chain given ["jsc"; "experimental"]) &&
  plugin_list_ok (opt_chain given plugins_path).

(** Setup options that bring a plugin of their own and ask for coverage. *)
Definition options_with_plugin : value :=
  VObj [("jsc",
         VObj [("experimental",
                VObj [("plugins",
                       VArr [VArr [VStr "swc-plugin-other"; VObj []] []] [])])]);
        ("experimental",
         VObj [("customCoverageInstrumentation",
                VObj [("enabled", VBool true)])])].



(* ================================================================== *)
(** * Options as shared objects *)
(* ================================================================== *)

(** [set] and the resolver write into objects that the caller holds too
    and that may be reached in more than one way.  To show what such writes
    do, the objects are kept in a heap here and a value is a primitive or a
    reference into the heap.

    An object is [plain] when it is what an object literal or [JSON.parse]
    makes: an ordinary, extensible object whose prototype is
    [Object.prototype] and whose own properties are enumerable, writable
    data properties.  Reads and writes are given for plain objects.  What
    they do on other objects (arrays, functions, frozen objects, objects with
    another prototype), what a read finds on a primitive and what it finds
    through the prototype is not given: there the outcome is [Unmodelled],
    and a run that [Returns] or [Throws] is one that stays inside what is
    given. *)
Module Store.

Inductive val : Type :=
| SUndef
| SNull
| SBool (b : bool)
| SNum (n : Z)
| SStr (s : string)
| SRef (l : nat).

Record object : Type := { plain : bool; own : list (string * val) }.

Definition heap := list object.

Inductive outcome (A : Type) : Type :=
| Returns (a : A) (h : heap)
| Throws (e : error) (h : heap)
| Unmodelled.

Arguments Returns {A} a h.
Arguments Throws {A} e h.
Arguments Unmodelled {A}.

Definition M (A : Type) : Type := heap -> outcome A.

Definition ret {A : Type} (a : A) : M A := fun h => Returns a h.

Definition bind {A B : Type} (c : M A) (k : A -> M B) : M B := fun h =>
  match c h with
  | Returns a h1 => k a h1
  | Throws e h1 => Throws e h1
  | Unmodelled => Unmodelled
  end.

Notation "x <~ c ;; k" := (bind c (fun x => k))
  (at level 61, c at next level, right associativity).

Definition truthy (v : val) : bool :=
  match v with
  | SUndef | SNull => false
  | SBool b => b
  | SNum n => negb (n =? 0)%Z
  | SStr EmptyString => false
  | SStr _ => true
  | SRef _ => true
  end.

Definition nullish (v : val) : bool :=
  match v with
  | SUndef | SNull => true
  | _ => false
  end.

(** ** Property tables *)

Fixpoint lookup (k : string) (ps : list (string * val)) : option val :=
  match ps with
  | [] => None
  | (k', x) :: r => if String.eqb k k' then Some x else lookup k r
  end.

Fixpoint assign (k : string) (x : val) (ps : list (string * val))
    : list (string * val) :=
  match ps with
  | [] => [(k, x)]
  | (k', y) :: r =>
      if String.eqb k k' then (k, x) :: r else (k', y) :: assign k x r
  end.

Fixpoint remove_key (k : string) (ps : list (string * val))
    : list (string * val) :=
  match ps with
  | [] => []
  | (k', y) :: r =>
      if String.eqb k k' then remove_key k r else (k', y) :: remove_key k r
  end.

(** The characters of a string as the own properties [0], [1], ... *)
Fixpoint char_props (i : nat) (s : string) : list (string * val) :=
  match s with
  | EmptyString => []
  | String c r => (key_of_index i, SStr (String c EmptyString))
                  :: char_props (S i) r
  end.

(** ** The heap *)

Fixpoint store_at (l : nat) (o : object) (h : heap) : heap :=
  match h, l with
  | [], _ => []
  | _ :: r, O => o :: r
  | x :: r, S l' => x :: store_at l' o r
  end.

(** The own property [k] of the object at [l], and whether that object is
    plain. *)
Definition field (h : heap) (l : nat) (k : string) : option val :=
  match nth_error h l with
  | Some o => lookup k (own o)
  | None => None
  end.

Definition is_plain (h : heap) (l : nat) : bool :=
  match nth_error h l with
  | Some o => plain o
  | None => false
  end.

(** [{}] *)
Definition new_object : M val := fun h =>
  Returns (SRef (List.length h)) (h ++ [{| plain := true; own := [] |}]).

(** ** Property reads and writes *)

(** The names [Object.prototype] has: a plain object that has no such
    property of its own inherits it. *)
Definition Object_prototype : list string :=
  ["constructor"; "__defineGetter__"; "__defineSetter__"; "hasOwnProperty";
   "__lookupGetter__"; "__lookupSetter__"; "isPrototypeOf";
   "propertyIsEnumerable"; "toString"; "valueOf"; "__proto__";
   "toLocaleString"].

Definition inherited (k : string) : bool :=
  existsb (String.eqb k) Object_prototype.

(** [v[k]] *)
Definition get (v : val) (k : string) : M val := fun h =>
  match v with
  | SUndef | SNull => Throws TypeError h
  | SBool _ | SNum _ | SStr _ => Unmodelled
  | SRef l =>
      match nth_error h l with
      | Some o =>
          if plain o then
            match lookup k (own o) with
            | Some x => Returns x h
            | None => if inherited k then Unmodelled else Returns SUndef h
            end
          else Unmodelled
      | None => Unmodelled
      end
  end.

(** [v[k] = x] in strict mode.  On a plain object the assignment updates or
    creates the own property, unless the name is [__proto__] and the object
    has no such property of its own: then the setter of [Object.prototype]
    runs, which changes the prototype when [x] is an object or [null] and
    does nothing otherwise.  On a primitive the same setter does nothing, and
    every other name is a [TypeError]. *)
Definition put (v : val) (k : string) (x : val) : M unit := fun h =>
  match v with
  | SUndef | SNull => Throws TypeError h
  | SBool _ | SNum _ | SStr _ =>
      if String.eqb k "__proto__" then Returns tt h else Throws TypeError h
  | SRef l =>
      match nth_error h l with
      | Some o =>
          if plain o then
            match lookup k (own o), String.eqb k "__proto__" with
            | None, true =>
                match x with
                | SRef _ | SNull => Unmodelled
                | _ => Returns tt h
                end
            | _, _ =>
                Returns tt
                  (store_at l {| plain := true; own := assign k x (own o) |} h)
            end
          else Unmodelled
      | None => Unmodelled
      end
  end.

(** [o[p1][p2]...] *)
Fixpoint read (o : val) (path : list string) : M val :=
  match path with
  | [] => ret o
  | k :: rest => c <~ get o k ;; read c rest
  end.

(** [v?.[k]] *)
Definition opt_get (v : val) (k : string) : M val :=
  if nullish v then ret SUndef else get v k.

(** ** [set] *)

(** The loop of [set] from [o] on, and the assignment after it. *)
Fixpoint set_from (o : val) (parents : list string) (key : string)
    (x : val) : M unit :=
  match parents with
  | [] => put o key x
  | p :: rest =>
      c <~ get o p ;;
      _ <~ (if nullish c
            then fresh <~ new_object ;; put o p fresh
            else ret tt) ;;
      o' <~ get o p ;;
      set_from o' rest key x
  end.

Definition set (obj : val) (path : string) (x : val) : M unit :=
  let parents := split_dot path in
  let key := last parents EmptyString in
  set_from obj (removelast parents) key x.

(** ** [buildSwcTransformOpts] *)

(** A value parsed from text, put into the heap: every object and array of
    it is a new one. *)
Fixpoint intern (v : value) (h : heap) : val * heap :=
  match v with
  | VUndef => (SUndef, h)
  | VNull => (SNull, h)
  | VBool b => (SBool b, h)
  | VNum n => (SNum n, h)
  | VStr s => (SStr s, h)
  | VObj ps =>
      let '(fields, h1) :=
        (fix entries (ps : list (string * value)) (h : heap)
           : list (string * val) * heap :=
           match ps with
           | [] => ([], h)
           | (k, x) :: r =>
               let '(a, h1) := intern x h in
               let '(rest, h2) := entries r h1 in
               ((k, a) :: rest, h2)
           end) ps h in
      (SRef (List.length h1), h1 ++ [{| plain := true; own := fields |}])
  | VArr items named =>
      let '(elements, h1) :=
        (fix elements (i : nat) (items : list value) (h : heap)
           : list (string * val) * heap :=
           match items with
           | [] => ([], h)
           | x :: r =>
               let '(a, h1) := intern x h in
               let '(rest, h2) := elements (S i) r h1 in
               ((key_of_index i, a) :: rest, h2)
           end) O items h in
      let '(fields, h2) :=
        (fix entries (ps : list (string * value)) (h : heap)
           : list (string * val) * heap :=
           match ps with
           | [] => ([], h)
           | (k, x) :: r =>
               let '(a, h1) := intern x h in
               let '(rest, h2) := entries r h1 in
               ((k, a) :: rest, h2)
           end) named h1 in
      (SRef (List.length h2),
       h2 ++ [{| plain := false; own := elements ++ fields |}])
  end.

(** [const { experimental, ...rest } = v]: a new plain object with the own
    properties of [v] but the excluded one. *)
Definition object_rest (excluded : string) (v : val) : M val := fun h =>
  match v with
  | SUndef | SNull => Throws TypeError h
  | SBool _ | SNum _ =>
      Returns (SRef (List.length h)) (h ++ [{| plain := true; own := [] |}])
  | SStr s =>
      Returns (SRef (List.length h))
        (h ++ [{| plain := true;
                  own := remove_key excluded (char_props 0 s) |}])
  | SRef l =>
      match nth_error h l with
      | Some o =>
          if plain o
          then Returns (SRef (List.length h))
                 (h ++ [{| plain := true;
                           own := remove_key excluded (own o) |}])
          else Unmodelled
      | None => Unmodelled
      end
  end.

Section Configured.

Variable host : Host.

(** What [getOptionsFromSwrc] parsed is new to the heap. *)
Definition parsed_swcrc : result value := getOptionsFromSwrc host.

Definition getOptionsFromSwrc : M val := fun h =>
  match parsed_swcrc with
  | Ok options => let '(v, h') := intern options h in Returns v h'
  | Throw e => Throws e h
  end.

(** [path.resolve(p)] *)
Definition resolve (p : val) : M val :=
  match p with
  | SStr s => ret (SStr (path_resolve host s))
  | _ => fun h => Throws TypeError h
  end.

(** [if (!computedSwcOptions.env && !computedSwcOptions.jsc?.target)
       set(computedSwcOptions, 'jsc.target', 'es2016')] *)
Definition default_target (o : val) : M unit :=
  env <~ get o "env" ;;
  if truthy env then ret tt
  else
    jsc <~ get o "jsc" ;;
    target <~ opt_get jsc "target" ;;
    if truthy target then ret tt
    else set o "jsc.target" (SStr "es2016").

(** [set(computedSwcOptions, 'jsc.transform.hidden.jest', true)] *)
Definition mark_jest (o : val) : M unit :=
  set o "jsc.transform.hidden.jest" (SBool true).

(** [if (!computedSwcOptions.sourceMaps)
       set(computedSwcOptions, 'sourceMaps', 'inline')] *)
Definition default_sourceMaps (o : val) : M unit :=
  sourceMaps <~ get o "sourceMaps" ;;
  if truthy sourceMaps then ret tt
  else set o "sourceMaps" (SStr "inline").

(** [if (computedSwcOptions.jsc?.baseUrl)
       set(computedSwcOptions, 'jsc.baseUrl',
           path.resolve(computedSwcOptions.jsc.baseUrl))] *)
Definition resolve_baseUrl (o : val) : M unit :=
  jsc <~ get o "jsc" ;;
  baseUrl <~ opt_get jsc "baseUrl" ;;
  if truthy baseUrl then
    jsc <~ get o "jsc" ;;
    baseUrl <~ get jsc "baseUrl" ;;
    p <~ resolve baseUrl ;;
    set o "jsc.baseUrl" p
  else ret tt.

(** [swcOptions || getOptionsFromSwrc()] *)
Definition given_options (swcOptions : val) : M val :=
  if truthy swcOptions then ret swcOptions else getOptionsFromSwrc.

Definition buildSwcTransformOpts (swcOptions : val) : M val :=
  given <~ given_options swcOptions ;;
  computedSwcOptions <~ object_rest "experimental" given ;;
  _ <~ default_target computedSwcOptions ;;
  _ <~ mark_jest computedSwcOptions ;;
  _ <~ default_sourceMaps computedSwcOptions ;;
  _ <~ resolve_baseUrl computedSwcOptions ;;
  ret computedSwcOptions.

End Configured.

(** ** Where a write lands *)

(** The property [set] writes among the objects that were there before: the
    first on its way that is missing or holds [null] or [undefined], or else
    the last one.  There is none when the way does not start at an object. *)
Fixpoint landing (h : heap) (o : val) (parents : list string) (key : string)
    : option (nat * string) :=
  match o with
  | SRef l =>
      match parents with
      | [] => Some (l, key)
      | p :: rest =>
          match field h l p with
          | Some c => if nullish c then Some (l, p) else landing h c rest key
          | None => Some (l, p)
          end
      end
  | _ => None
  end.

(** The properties the walk of [set] reads and finds set. *)
Fixpoint trail (h : heap) (o : val) (parents : list string)
    : list (nat * string) :=
  match o, parents with
  | SRef l, p :: rest =>
      match field h l p with
      | Some c => if nullish c then [] else (l, p) :: trail h c rest
      | None => []
      end
  | _, _ => []
  end.


Definition same_place (c d : nat * string) : bool :=
  Nat.eqb (fst c) (fst d) && String.eqb (snd c) (snd d).

(** [c], if there is one, is none of [cs]. *)
Definition apart (c : option (nat * string)) (cs : list (nat * string))
    : bool :=
  match c with
  | Some c => negb (existsb (same_place c) cs)
  | None => true
  end.

(** The walk of [set] runs through plain objects, up to the first property
    that holds [null] or [undefined] or is missing. *)
Fixpoint walk_plain (h : heap) (o : val) (parents : list string) : bool :=
  match o with
  | SRef l =>
      is_plain h l &&
      match parents with
      | [] => true
      | p :: rest =>
          match field h l p with
          | Some c => nullish c || walk_plain h c rest
          | None => true
          end
      end
  | _ => false
  end.

(** From [h] to [h'] no object went away or stopped being plain, and of the
    properties of the objects of [h] at most the one at [c] changed. *)
Definition changes_only (c : option (nat * string)) (h h' : heap) : Prop :=
  List.length h <= List.length h' /\
  forall l, l < List.length h ->
    is_plain h' l = is_plain h l /\
    forall k, c = Some (l, k) \/ field h' l k = field h l k.

(** The same with the properties that may have changed given by [P]. *)
Definition changes_where (P : nat -> string -> Prop) (h h' : heap) : Prop :=
  List.length h <= List.length h' /\
  forall l, l < List.length h ->
    is_plain h' l = is_plain h l /\
    forall k, P l k \/ field h' l k = field h l k.

(** The own enumerable property [k] of [v], as a rest copy finds it. *)
Definition own_field (h : heap) (v : val) (k : string) : option val :=
  match v with
  | SRef l => field h l k
  | SStr s => lookup k (char_props 0 s)
  | _ => None
  end.

(** The parents and the key of a dotted path. *)
Definition parents (path : string) : list string :=
  removelast (split_dot path).

Definition key (path : string) : string := last (split_dot path) EmptyString.

End Store.

(** ** Example heaps *)

(** [{ jsc: { parser: { syntax: 'typescript' } }, alias: <the same jsc> }]:
    the object at 1 is reached under two names. *)
Definition shared_heap : Store.heap :=
  [ {| Store.plain := true;
       Store.own := [("jsc", Store.SRef 1); ("alias", Store.SRef 1)] |};
    {| Store.plain := true; Store.own := [("parser", Store.SRef 2)] |};
    {| Store.plain := true;
       Store.own := [("syntax", Store.SStr "typescript")] |} ].


(** ** What the resolver may write *)

(** The names of the properties the resolver writes below the top level. *)
Definition resolver_names : list string :=
  ["target"; "transform"; "hidden"; "jest"; "baseUrl"].

(** The properties the resolver may write, when [top] is the object it
    returns: [jsc] and [sourceMaps] of that object, and the names below. *)
Definition resolver_writes (top : nat) (l : nat) (k : string) : Prop :=
  (l = top /\ (k = "jsc" \/ k = "sourceMaps")) \/ In k resolver_names.

(** Explicit options whose [jsc] is an object the caller holds: at 0 the
    options [{ jsc, sourceMaps: true, minify: false }], at 1 their [jsc],
    [{ parser }], at 2 the parser options. *)
Definition caller_heap : Store.heap :=
  [ {| Store.plain := true;
       Store.own := [("jsc", Store.SRef 1);
                     ("sourceMaps", Store.SBool true);
                     ("minify", Store.SBool false);
                     ("experimental", Store.SRef 2)] |};
    {| Store.plain := true; Store.own := [("parser", Store.SRef 2)] |};
    {| Store.plain := true;
       Store.own := [("syntax", Store.SStr "typescript")] |} ].

(* ================================================================== *)
(** * Properties of the value model *)
(* ================================================================== *)

Lemma lookup_assign_same k x ps : lookup k (assign k x ps) = Some x.
Proof.
  induction ps as [|[k' y] r IH]; simpl.
  - now rewrite String.eqb_refl.
  - destruct (String.eqb k k') eqn:E; simpl.
    + now rewrite String.eqb_refl.
    + now rewrite E.
Qed.

Lemma lookup_assign_other k k' x ps :
  k' <> k -> lookup k' (assign k x ps) = lookup k' ps.
Proof.
  intros N. apply String.eqb_neq in N.
  induction ps as [|[k0 y] r IH]; simpl.
  - now rewrite N.
  - destruct (String.eqb k k0) eqn:E; simpl.
    + apply String.eqb_eq in E. subst k0. now rewrite N.
    + now rewrite IH.
Qed.

Lemma lookup_remove_other k k' ps :
  k' <> k -> lookup k' (remove_key k ps) = lookup k' ps.
Proof.
  intros N. apply String.eqb_neq in N.
  induction ps as [|[k0 y] r IH]; simpl; auto.
  destruct (String.eqb k k0) eqn:E; simpl.
  - apply String.eqb_eq in E. subst k0. now rewrite N.
  - now rewrite IH.
Qed.

Lemma lookup_app k ps qs :
  lookup k (ps ++ qs) =
  match lookup k ps with
  | Some x => Some x
  | None => lookup k qs
  end.
Proof.
  induction ps as [|[k0 y] r IH]; simpl; auto.
  now destruct (String.eqb k k0).
Qed.

(** The key of an index reads back as that index. *)
Lemma index_of_key_of_index i : index_of_key (key_of_index i) = Some i.
Proof.
  unfold index_of_key, key_of_index.
  assert (E : NilZero.string_of_uint (Nat.to_uint i)
              = NilEmpty.string_of_uint (Nat.to_uint i)).
  { destruct (Nat.to_uint i) eqn:U; try reflexivity.
    exfalso. pose proof (f_equal Nat.of_uint U) as V.
    rewrite DecimalNat.Unsigned.of_to in V. simpl in V. subst i.
    discriminate U. }
  rewrite E at 1. rewrite NilEmpty.usu.
  rewrite DecimalNat.Unsigned.of_to. now rewrite String.eqb_refl.
Qed.

Lemma lookup_indexed_name_from k l start :
  is_name k = true ->
  lookup k (combine (List.map key_of_index (seq start (List.length l))) l) = None.
Proof.
  intros Hk. revert start.
  induction l as [|x r IH]; intros start; simpl; auto.
  destruct (String.eqb k (key_of_index start)) eqn:E.
  - apply String.eqb_eq in E. subst k.
    unfold is_name in Hk. rewrite index_of_key_of_index in Hk.
    now rewrite andb_false_r in Hk.
  - apply IH.
Qed.

Lemma lookup_indexed_name k l : is_name k = true -> lookup k (indexed l) = None.
Proof. intros Hk. now apply lookup_indexed_name_from. Qed.

Lemma is_name_not_length k : is_name k = true -> String.eqb k "length" = false.
Proof.
  unfold is_name. intros H. apply andb_prop in H as [H _].
  now apply negb_true_iff in H.
Qed.

Lemma is_name_not_index k : is_name k = true -> index_of_key k = None.
Proof.
  unfold is_name. intros H. apply andb_prop in H as [_ H].
  now destruct (index_of_key k).
Qed.

(** ** Reads after writes *)

Lemma prop_set_same v k x v' :
  is_name k = true -> set_prop v k x = Ok v' -> prop v' k = x.
Proof.
  intros Hk H. destruct v; simpl in H; try discriminate; inversion H; subst; simpl.
  - rewrite (is_name_not_length _ Hk), (is_name_not_index _ Hk).
    now rewrite lookup_assign_same.
  - now rewrite lookup_assign_same.
Qed.

Lemma prop_set_other v k x v' k' :
  k' <> k -> set_prop v k x = Ok v' -> prop v' k' = prop v k'.
Proof.
  intros N H. destruct v; simpl in H; try discriminate; inversion H; subst; simpl.
  - now rewrite lookup_assign_other.
  - now rewrite lookup_assign_other.
Qed.

Lemma set_prop_object_like v k x v' :
  set_prop v k x = Ok v' -> object_like v = true /\ object_like v' = true.
Proof.
  destruct v; simpl; intros H; try discriminate; inversion H; auto.
Qed.

Lemma set_prop_returns v k x :
  object_like v = true -> exists v', set_prop v k x = Ok v'.
Proof. destruct v; simpl; intros H; try discriminate; eauto. Qed.

Lemma object_like_not_nullish v : object_like v = true -> nullish v = false.
Proof. now destruct v. Qed.

Lemma prop_nullish v k : nullish v = true -> prop v k = VUndef.
Proof. now destruct v. Qed.

Lemma get_prop_ok v k : nullish v = false -> get_prop v k = Ok (prop v k).
Proof. unfold get_prop. now intros ->. Qed.

Lemma get_prop_inv v k c : get_prop v k = Ok c -> nullish v = false /\ c = prop v k.
Proof.
  unfold get_prop. destruct (nullish v); intros H; try discriminate.
  now inversion H.
Qed.

Lemma opt_chain_undefined path : opt_chain VUndef path = VUndef.
Proof. induction path; simpl; auto. Qed.

Lemma opt_chain_nullish v k path :
  nullish v = true -> opt_chain v (k :: path) = VUndef.
Proof.
  intros H. simpl. rewrite (prop_nullish _ _ H). apply opt_chain_undefined.
Qed.

Lemma opt_chain_empty_object k path : opt_chain (VObj []) (k :: path) = VUndef.
Proof. simpl. apply opt_chain_undefined. Qed.

Lemma opt_chain_app v p q : opt_chain v (p ++ q) = opt_chain (opt_chain v p) q.
Proof. unfold opt_chain. apply fold_left_app. Qed.

(** A bind that succeeded. *)
Lemma bind_ok {A B} (c : result A) (k : A -> result B) b :
  bind c k = Ok b -> exists a, c = Ok a /\ k a = Ok b.
Proof. destruct c; simpl; intros H; try discriminate; eauto. Qed.

Ltac inv_bind H :=
  let a := fresh "a" in
  let Ha := fresh "Ha" in
  apply bind_ok in H as (a & Ha & H).

(* ================================================================== *)
(** * Properties of [set] *)
(* ================================================================== *)

Lemma set_from_unfold o p rest key x :
  set_from o (p :: rest) key x =
  (c <- get_prop o p ;;
   o1 <- (if nullish c then set_prop o p (VObj []) else Ok o) ;;
   c1 <- get_prop o1 p ;;
   c2 <- set_from c1 rest key x ;;
   set_prop o1 p c2).
Proof. reflexivity. Qed.

(** One step of the walk, taken apart: the object [o1] that holds the
    child, the child [c1] at the start of the rest of the walk, and the child
    [c2] at its end. *)
Lemma set_from_step o p rest key x o' :
  is_name p = true ->
  set_from o (p :: rest) key x = Ok o' ->
  exists o1 c1 c2,
    (if nullish (prop o p) then set_prop o p (VObj []) else Ok o) = Ok o1 /\
    c1 = (if nullish (prop o p) then VObj [] else prop o p) /\
    nullish o = false /\
    set_from c1 rest key x = Ok c2 /\
    set_prop o1 p c2 = Ok o'.
Proof.
  intros Hp H. rewrite set_from_unfold in H.
  inv_bind H. apply get_prop_inv in Ha as [Ho ->].
  inv_bind H. rename a into o1. rename Ha into Ho1.
  inv_bind H. apply get_prop_inv in Ha as [_ ->].
  inv_bind H. rename a into c2.
  exists o1, (prop o1 p), c2. repeat split; auto.
  destruct (nullish (prop o p)) eqn:N.
  - now apply (prop_set_same _ _ _ _ Hp Ho1).
  - now inversion Ho1.
Qed.

Lemma set_from_keeps_object parents ps key x o' :
  set_from (VObj ps) parents key x = Ok o' -> exists ps', o' = VObj ps'.
Proof.
  destruct parents as [|p rest]; simpl; intros H.
  - inversion H. eauto.
  - unfold get_prop in H. simpl in H.
    destruct (nullish (or_undefined (lookup p ps))); simpl in H.
    + repeat inv_bind H. inversion H. eauto.
    + repeat inv_bind H. inversion H. eauto.
Qed.

(** What was written is read back. *)
Lemma set_from_same parents : forall o key x o',
  forallb is_name (parents ++ [key]) = true ->
  set_from o parents key x = Ok o' ->
  opt_chain o' (parents ++ [key]) = x.
Proof.
  induction parents as [|p rest IH]; intros o key x o' Hn H.
  - simpl in *. rewrite andb_true_r in Hn. now apply (prop_set_same o).
  - simpl in Hn. apply andb_prop in Hn as [Hp Hn].
    destruct (set_from_step _ _ _ _ _ _ Hp H) as (o1 & c1 & c2 & _ & _ & _ & Hc & Hs).
    simpl. rewrite (prop_set_same _ _ _ _ Hp Hs). now apply (IH c1).
Qed.

(** A read along a path that parts ways with the written one is not
    affected. *)
Lemma set_from_frame parents : forall o key x o' q,
  forallb is_name parents = true ->
  diverges (parents ++ [key]) q = true ->
  set_from o parents key x = Ok o' ->
  opt_chain o' q = opt_chain o q.
Proof.
  induction parents as [|p rest IH]; intros o key x o' q Hn D H.
  - destruct q as [|k' q']; simpl in D; try discriminate.
    destruct (String.eqb key k') eqn:E; try discriminate.
    apply String.eqb_neq in E. simpl in *.
    rewrite (prop_set_other _ _ _ _ k' (not_eq_sym E) H). reflexivity.
  - simpl in Hn. apply andb_prop in Hn as [Hp Hn].
    destruct (set_from_step _ _ _ _ _ _ Hp H)
      as (o1 & c1 & c2 & Ho1 & Hc1 & _ & Hc & Hs).
    destruct q as [|k' q']; simpl in D; try discriminate.
    destruct (String.eqb p k') eqn:E.
    + apply String.eqb_eq in E. subst k'. simpl.
      rewrite (prop_set_same _ _ _ _ Hp Hs).
      rewrite (IH _ _ _ _ _ Hn D Hc). subst c1.
      destruct (nullish (prop o p)) eqn:N; auto.
      destruct q' as [|k q'].
      * destruct rest; simpl in D; discriminate.
      * rewrite opt_chain_empty_object.
        symmetry. now apply opt_chain_nullish.
    + apply String.eqb_neq in E. simpl.
      rewrite (prop_set_other _ _ _ _ k' (not_eq_sym E) Hs).
      destruct (nullish (prop o p)).
      * now rewrite (prop_set_other _ _ _ _ k' (not_eq_sym E) Ho1).
      * now inversion Ho1.
Qed.

Lemma walkable_empty_object q : walkable (VObj []) q = true.
Proof. destruct q; reflexivity. Qed.

Lemma walkable_object_like o q : walkable o q = true -> object_like o = true.
Proof. destruct q; simpl; intros H; now apply andb_prop in H as [H _]. Qed.

(** A walk stays possible after a write that does not put its value on
    the way. *)
Lemma walkable_preserved parents : forall o key x o' q,
  forallb is_name parents = true ->
  not_prefix (parents ++ [key]) q = true ->
  set_from o parents key x = Ok o' ->
  walkable o q = true ->
  walkable o' q = true.
Proof.
  induction parents as [|p rest IH]; intros o key x o' q Hn D H W.
  - simpl in H. destruct (set_prop_object_like _ _ _ _ H) as [_ Ho'].
    destruct q as [|k' q']; simpl in *; rewrite Ho'; auto.
    destruct (String.eqb key k') eqn:E; try discriminate.
    apply String.eqb_neq in E.
    rewrite (prop_set_other _ _ _ _ k' (not_eq_sym E) H).
    now apply andb_prop in W as [_ W].
  - simpl in Hn. apply andb_prop in Hn as [Hp Hn].
    destruct (set_from_step _ _ _ _ _ _ Hp H)
      as (o1 & c1 & c2 & Ho1 & Hc1 & _ & Hc & Hs).
    destruct (set_prop_object_like _ _ _ _ Hs) as [_ Ho'].
    destruct q as [|k' q']; simpl in *; rewrite Ho'; auto.
    apply andb_prop in W as [_ W]. simpl.
    destruct (String.eqb p k') eqn:E.
    + apply String.eqb_eq in E. subst k'.
      rewrite (prop_set_same _ _ _ _ Hp Hs).
      apply orb_true_iff. right.
      apply (IH _ _ _ _ _ Hn D Hc). subst c1.
      destruct (nullish (prop o p)) eqn:N.
      * apply walkable_empty_object.
      * now rewrite orb_false_l in W.
    + apply String.eqb_neq in E.
      rewrite (prop_set_other _ _ _ _ k' (not_eq_sym E) Hs).
      destruct (nullish (prop o p)).
      * now rewrite (prop_set_other _ _ _ _ k' (not_eq_sym E) Ho1).
      * inversion Ho1; subst o1. exact W.
Qed.

(** [set] returns when it can walk down to the place of the write. *)
Lemma set_from_returns parents : forall o key x,
  forallb is_name parents = true ->
  walkable o parents = true ->
  exists o', set_from o parents key x = Ok o'.
Proof.
  induction parents as [|p rest IH]; intros o key x Hn W.
  - simpl in *. rewrite andb_true_r in W. now apply set_prop_returns.
  - simpl in Hn. apply andb_prop in Hn as [Hp Hn].
    simpl in W. apply andb_prop in W as [Ho W].
    rewrite set_from_unfold.
    rewrite (get_prop_ok _ _ (object_like_not_nullish _ Ho)). simpl.
    destruct (nullish (prop o p)) eqn:N.
    + destruct (set_prop_returns o p (VObj []) Ho) as [o1 Ho1].
      rewrite Ho1. simpl.
      destruct (set_prop_object_like _ _ _ _ Ho1) as [_ Hl].
      rewrite (get_prop_ok _ _ (object_like_not_nullish _ Hl)). simpl.
      rewrite (prop_set_same _ _ _ _ Hp Ho1).
      destruct (IH (VObj []) key x Hn (walkable_empty_object _)) as [c2 Hc2].
      rewrite Hc2. simpl. now apply set_prop_returns.
    + simpl in W. simpl.
      rewrite (get_prop_ok _ _ (object_like_not_nullish _ Ho)). simpl.
      destruct (IH _ key x Hn W) as [c2 Hc2]. rewrite Hc2. simpl.
      now apply set_prop_returns.
Qed.

(* ================================================================== *)
(** * The option resolver *)
(* ================================================================== *)

Lemma set_target o x : set o "jsc.target" x = set_from o ["jsc"] "target" x.
Proof. reflexivity. Qed.

Lemma set_marker o x :
  set o "jsc.transform.hidden.jest" x
  = set_from o ["jsc"; "transform"; "hidden"] "jest" x.
Proof. reflexivity. Qed.

Lemma set_sourceMaps o x : set o "sourceMaps" x = set_from o [] "sourceMaps" x.
Proof. reflexivity. Qed.

Lemma set_baseUrl o x : set o "jsc.baseUrl" x = set_from o ["jsc"] "baseUrl" x.
Proof. reflexivity. Qed.

Lemma prop_object_rest e v o k :
  object_rest e v = Ok o -> k <> e -> is_name k = true -> prop o k = prop v k.
Proof.
  unfold object_rest. intros H N Hk.
  destruct (nullish v) eqn:Hv; try discriminate. inversion H; subst o; clear H.
  destruct v; try discriminate; simpl;
    try rewrite (lookup_remove_other _ _ _ N); auto.
  - rewrite (is_name_not_length _ Hk), (is_name_not_index _ Hk).
    now rewrite (lookup_indexed_name _ _ Hk).
  - rewrite (is_name_not_length _ Hk), (is_name_not_index _ Hk).
    rewrite lookup_app. now rewrite (lookup_indexed_name _ _ Hk).
Qed.

Lemma opt_chain_object_rest e v o k q :
  object_rest e v = Ok o -> k <> e -> is_name k = true ->
  opt_chain o (k :: q) = opt_chain v (k :: q).
Proof. intros H N Hk. simpl. now rewrite (prop_object_rest _ _ _ _ H N Hk). Qed.

Lemma object_rest_object e v o : object_rest e v = Ok o -> exists ps, o = VObj ps.
Proof.
  unfold object_rest. destruct (nullish v); intros H; try discriminate.
  inversion H. eauto.
Qed.

(** The steps of the resolver, one by one. *)

Lemma default_target_spec o o' :
  default_target o = Ok o' ->
  opt_chain o' target_path
  = (if lacks_target o then VStr "es2016" else opt_chain o target_path) /\
  (forall q, diverges target_path q = true -> opt_chain o' q = opt_chain o q).
Proof.
  unfold default_target. fold target_path. fold (lacks_target o).
  destruct (lacks_target o); intros H.
  - rewrite set_target in H. split.
    + now apply (set_from_same ["jsc"] o "target").
    + intros q D. now apply (set_from_frame ["jsc"] o "target" (VStr "es2016")).
  - inversion H. auto.
Qed.

Lemma mark_jest_spec o o' :
  mark_jest o = Ok o' ->
  opt_chain o' marker_path = VBool true /\
  (forall q, diverges marker_path q = true -> opt_chain o' q = opt_chain o q).
Proof.
  unfold mark_jest. rewrite set_marker. intros H. split.
  - now apply (set_from_same ["jsc"; "transform"; "hidden"] o "jest").
  - intros q D.
    now apply (set_from_frame ["jsc"; "transform"; "hidden"] o "jest" (VBool true)).
Qed.

Lemma default_sourceMaps_spec o o' :
  default_sourceMaps o = Ok o' ->
  prop o' "sourceMaps"
  = (if truthy (prop o "sourceMaps") then prop o "sourceMaps" else VStr "inline") /\
  (forall q, diverges ["sourceMaps"] q = true -> opt_chain o' q = opt_chain o q).
Proof.
  unfold default_sourceMaps.
  destruct (truthy (prop o "sourceMaps")); simpl; intros H.
  - inversion H. auto.
  - rewrite set_sourceMaps in H. split.
    + now apply (set_from_same [] o "sourceMaps").
    + intros q D. now apply (set_from_frame [] o "sourceMaps" (VStr "inline")).
Qed.

Lemma resolve_baseUrl_frame host o o' :
  resolve_baseUrl host o = Ok o' ->
  forall q, diverges baseUrl_path q = true -> opt_chain o' q = opt_chain o q.
Proof.
  unfold resolve_baseUrl.
  destruct (truthy (opt_chain o ["jsc"; "baseUrl"])); intros H q D.
  - inv_bind H. inv_bind H. rewrite set_baseUrl in H.
    now apply (set_from_frame ["jsc"] o "baseUrl" a0).
  - now inversion H.
Qed.

(** The resolver taken apart into its steps. *)
Lemma buildSwcTransformOpts_steps host swcOptions o :
  buildSwcTransformOpts host swcOptions = Ok o ->
  exists given o0 o1 o2 o3,
    given_options host swcOptions = Ok given /\
    object_rest "experimental" given = Ok o0 /\
    default_target o0 = Ok o1 /\
    mark_jest o1 = Ok o2 /\
    default_sourceMaps o2 = Ok o3 /\
    resolve_baseUrl host o3 = Ok o.
Proof.
  unfold buildSwcTransformOpts. intros H.
  inv_bind H. rename a into given, Ha into Hg.
  inv_bind H. rename a into o0, Ha into H0.
  inv_bind H. rename a into o1, Ha into H1.
  inv_bind H. rename a into o2, Ha into H2.
  inv_bind H. rename a into o3, Ha into H3.
  inv_bind H. inversion H; subst.
  exists given, o0, o1, o2, o3. auto 10.
Qed.

Lemma walkable_prefix p : forall o q,
  walkable o (p ++ q) = true -> walkable o p = true.
Proof.
  induction p as [|k p IH]; intros o q W.
  - simpl. rewrite (walkable_object_like _ _ W). reflexivity.
  - simpl in *. apply andb_prop in W as [Ho W]. rewrite Ho. simpl.
    destruct (nullish (prop o k)); simpl in *; auto.
    now apply (IH _ q).
Qed.

Lemma default_target_walkable o o' q :
  default_target o = Ok o' -> not_prefix target_path q = true ->
  walkable o q = true -> walkable o' q = true.
Proof.
  unfold default_target.
  destruct (negb (truthy (prop o "env")) &&
            negb (truthy (opt_chain o ["jsc"; "target"]))); intros H D W.
  - rewrite set_target in H.
    now apply (walkable_preserved ["jsc"] o "target" (VStr "es2016")).
  - now inversion H; subst.
Qed.

Lemma mark_jest_walkable o o' q :
  mark_jest o = Ok o' -> not_prefix marker_path q = true ->
  walkable o q = true -> walkable o' q = true.
Proof.
  unfold mark_jest. rewrite set_marker. intros H D W.
  now apply (walkable_preserved ["jsc"; "transform"; "hidden"] o "jest"
               (VBool true)).
Qed.

Lemma default_sourceMaps_walkable o o' q :
  default_sourceMaps o = Ok o' -> not_prefix ["sourceMaps"] q = true ->
  walkable o q = true -> walkable o' q = true.
Proof.
  unfold default_sourceMaps.
  destruct (negb (truthy (prop o "sourceMaps"))); intros H D W.
  - rewrite set_sourceMaps in H.
    now apply (walkable_preserved [] o "sourceMaps" (VStr "inline")).
  - now inversion H; subst.
Qed.

Lemma default_target_returns o :
  walkable o ["jsc"] = true -> exists o', default_target o = Ok o'.
Proof.
  intros W. unfold default_target.
  destruct (negb (truthy (prop o "env")) &&
            negb (truthy (opt_chain o ["jsc"; "target"]))); eauto.
  rewrite set_target. now apply set_from_returns.
Qed.

Lemma mark_jest_returns o :
  walkable o ["jsc"; "transform"; "hidden"] = true ->
  exists o', mark_jest o = Ok o'.
Proof.
  intros W. unfold mark_jest. rewrite set_marker. now apply set_from_returns.
Qed.

Lemma default_sourceMaps_returns o :
  object_like o = true -> exists o', default_sourceMaps o = Ok o'.
Proof.
  intros W. unfold default_sourceMaps.
  destruct (negb (truthy (prop o "sourceMaps"))); eauto.
  rewrite set_sourceMaps. apply set_from_returns; auto.
  simpl. now rewrite W.
Qed.

Lemma resolve_baseUrl_returns host o :
  walkable o ["jsc"] = true ->
  string_or_falsy (opt_chain o baseUrl_path) = true ->
  exists o', resolve_baseUrl host o = Ok o'.
Proof.
  intros W S. unfold resolve_baseUrl. fold baseUrl_path.
  destruct (truthy (opt_chain o baseUrl_path)) eqn:T; eauto.
  pose proof (walkable_object_like _ _ W) as Ho.
  assert (Hj : nullish (prop o "jsc") = false).
  { destruct (nullish (prop o "jsc")) eqn:N; auto.
    unfold baseUrl_path in T. simpl in T.
    rewrite (prop_nullish _ _ N) in T. discriminate. }
  unfold baseUrl_path. simpl.
  rewrite (get_prop_ok _ _ (object_like_not_nullish _ Ho)). simpl.
  rewrite (get_prop_ok _ _ Hj). simpl.
  unfold baseUrl_path in S, T. simpl in S, T.
  destruct (prop (prop o "jsc") "baseUrl") eqn:B; simpl in S, T;
    try discriminate; try (rewrite T in S; discriminate).
  simpl. rewrite set_baseUrl. now apply set_from_returns.
Qed.

(** The resolver returns on every input of the shape of swc's [Options]. *)
Lemma buildSwcTransformOpts_returns host swcOptions given :
  given_options host swcOptions = Ok given ->
  resolvable given = true ->
  exists o, buildSwcTransformOpts host swcOptions = Ok o.
Proof.
  intros Hg R. unfold buildSwcTransformOpts. rewrite Hg. simpl.
  unfold resolvable in R.
  apply andb_prop in R as [R Rb]. apply andb_prop in R as [Rn Rj].
  apply negb_true_iff in Rn.
  assert (H0 : object_rest "experimental" given
               = Ok (VObj (remove_key "experimental" (own_props given)))).
  { unfold object_rest. now rewrite Rn. }
  rewrite H0. simpl.
  set (o0 := VObj (remove_key "experimental" (own_props given))) in *.
  assert (Pj : prop o0 "jsc" = prop given "jsc").
  { apply (prop_object_rest _ _ _ _ H0); [discriminate | reflexivity]. }
  assert (W0 : walkable o0 ["jsc"; "transform"; "hidden"] = true).
  { change (object_like o0 &&
            (nullish (prop o0 "jsc") ||
             walkable (prop o0 "jsc") ["transform"; "hidden"]) = true).
    now rewrite Pj. }
  assert (B0 : opt_chain o0 baseUrl_path = opt_chain given baseUrl_path).
  { apply (opt_chain_object_rest _ _ _ _ _ H0); [discriminate | reflexivity]. }
  destruct (default_target_returns o0) as [o1 H1].
  { now apply (walkable_prefix ["jsc"] o0 ["transform"; "hidden"]). }
  rewrite H1. simpl.
  assert (W1 : walkable o1 ["jsc"; "transform"; "hidden"] = true).
  { now apply (default_target_walkable o0 o1). }
  destruct (mark_jest_returns o1 W1) as [o2 H2]. rewrite H2. simpl.
  assert (W2 : walkable o2 ["jsc"] = true).
  { apply (mark_jest_walkable o1 o2); auto.
    now apply (walkable_prefix ["jsc"] o1 ["transform"; "hidden"]). }
  destruct (default_sourceMaps_returns o2 (walkable_object_like _ _ W2))
    as [o3 H3].
  rewrite H3. simpl.
  assert (W3 : walkable o3 ["jsc"] = true).
  { now apply (default_sourceMaps_walkable o2 o3). }
  destruct (resolve_baseUrl_returns host o3 W3) as [o4 H4].
  { destruct (default_target_spec _ _ H1) as [_ F1].
    destruct (mark_jest_spec _ _ H2) as [_ F2].
    destruct (default_sourceMaps_spec _ _ H3) as [_ F3].
    rewrite F3, F2, F1, B0 by reflexivity. exact Rb. }
  rewrite H4. simpl. eauto.
Qed.

(** C5: for every setup input, the options that the resolver returns hold
    [jsc.transform.hidden.jest = true], whatever the input says about the
    marker; and the resolver does return on every input that has the shape of
    swc's [Options] (on others [set] throws a [TypeError]). *)
Theorem hidden_marker_forced host swcOptions :
  (forall o,
      buildSwcTransformOpts host swcOptions = Ok o ->
      opt_chain o marker_path = VBool true) /\
  (forall given,
      given_options host swcOptions = Ok given ->
      resolvable given = true ->
      exists o, buildSwcTransformOpts host swcOptions = Ok o).
Proof.
  split.
  - intros o H.
    destruct (buildSwcTransformOpts_steps _ _ _ H)
      as (given & o0 & o1 & o2 & o3 & _ & _ & _ & H2 & H3 & H4).
    rewrite (resolve_baseUrl_frame _ _ _ H4) by reflexivity.
    destruct (default_sourceMaps_spec _ _ H3) as [_ F3].
    rewrite F3 by reflexivity.
    now destruct (mark_jest_spec _ _ H2).
  - intros given Hg R. now apply (buildSwcTransformOpts_returns host _ given).
Qed.

Lemma hidden_marker_forced_witness :
  exists o,
    buildSwcTransformOpts example_host options_marker_off = Ok o /\
    opt_chain options_marker_off marker_path = VBool false /\
    opt_chain o marker_path = VBool true.
Proof.
  destruct (hidden_marker_forced example_host options_marker_off) as [M R].
  destruct (R options_marker_off eq_refl eq_refl) as [o Ho].
  exists o. repeat split; auto.
Defined.

(** C6: when the input has no truthy [env] and no truthy [jsc.target],
    the resolved options have [jsc.target = 'es2016']; when either is
    there, the resolved [jsc.target] is the one of the input (absent if the
    input has none).  The resolver returns on every input that has the shape
    of swc's [Options]. *)
Theorem default_target_rule host swcOptions :
  (forall given o,
      given_options host swcOptions = Ok given ->
      buildSwcTransformOpts host swcOptions = Ok o ->
      opt_chain o target_path
      = (if lacks_target given then VStr "es2016"
         else opt_chain given target_path)) /\
  (forall given,
      given_options host swcOptions = Ok given ->
      resolvable given = true ->
      exists o, buildSwcTransformOpts host swcOptions = Ok o).
Proof.
  split.
  - intros given o Hg H.
    destruct (buildSwcTransformOpts_steps _ _ _ H)
      as (given' & o0 & o1 & o2 & o3 & Hg' & H0 & H1 & H2 & H3 & H4).
    rewrite Hg in Hg'. inversion Hg'; subst given'; clear Hg'.
    rewrite (resolve_baseUrl_frame _ _ _ H4) by reflexivity.
    destruct (default_sourceMaps_spec _ _ H3) as [_ F3].
    rewrite F3 by reflexivity.
    destruct (mark_jest_spec _ _ H2) as [_ F2].
    rewrite F2 by reflexivity.
    destruct (default_target_spec _ _ H1) as [T1 _]. rewrite T1.
    assert (E : lacks_target o0 = lacks_target given).
    { unfold lacks_target, target_path.
      rewrite (prop_object_rest _ _ _ "env" H0) by (discriminate || reflexivity).
      now rewrite (opt_chain_object_rest _ _ _ "jsc" ["target"] H0)
        by (discriminate || reflexivity). }
    rewrite E. destruct (lacks_target given); auto.
    apply (opt_chain_object_rest _ _ _ "jsc" ["target"] H0);
      [discriminate | reflexivity].
  - intros given Hg R. now apply (buildSwcTransformOpts_returns host _ given).
Qed.

Lemma default_target_rule_witness :
  (exists o,
      buildSwcTransformOpts example_host options_marker_off = Ok o /\
      opt_chain o target_path = VStr "es2016") /\
  (exists o,
      buildSwcTransformOpts example_host options_es5 = Ok o /\
      opt_chain o target_path = VStr "es5").
Proof.
  split.
  - destruct (default_target_rule example_host options_marker_off) as [T R].
    destruct (R options_marker_off eq_refl eq_refl) as [o Ho].
    exists o. split; auto. now apply (T options_marker_off).
  - destruct (default_target_rule example_host options_es5) as [T R].
    destruct (R options_es5 eq_refl eq_refl) as [o Ho].
    exists o. split; auto. now apply (T options_es5).
Defined.

(** C7, as the claim has it, fails: an explicit [sourceMaps: false] is
    not left unchanged, the resolver replaces it by ['inline']. *)
Lemma sourceMaps_false_is_replaced :
  ~ (forall host swcOptions given o,
        given_options host swcOptions = Ok given ->
        prop given "sourceMaps" <> VUndef ->
        buildSwcTransformOpts host swcOptions = Ok o ->
        prop o "sourceMaps" = prop given "sourceMaps").
Proof.
  intros C.
  specialize (C example_host options_marker_off options_marker_off
                (VObj [("sourceMaps", VStr "inline");
                       ("jsc",
                        VObj [("transform",
                               VObj [("hidden", VObj [("jest", VBool true)])]);
                              ("target", VStr "es2016")])])
                eq_refl).
  simpl in C. discriminate C; [discriminate | reflexivity].
Qed.

(** C7, amended: the default ['inline'] is applied exactly when the
    [sourceMaps] of the input is falsy (absent, or an explicit [false]); a
    truthy value is left as it is.  The resolver returns on every input that
    has the shape of swc's [Options]. *)
Theorem sourceMaps_default_rule host swcOptions :
  (forall given o,
      given_options host swcOptions = Ok given ->
      buildSwcTransformOpts host swcOptions = Ok o ->
      prop o "sourceMaps"
      = (if truthy (prop given "sourceMaps") then prop given "sourceMaps"
         else VStr "inline")) /\
  (forall given,
      given_options host swcOptions = Ok given ->
      resolvable given = true ->
      exists o, buildSwcTransformOpts host swcOptions = Ok o).
Proof.
  split.
  - intros given o Hg H.
    destruct (buildSwcTransformOpts_steps _ _ _ H)
      as (given' & o0 & o1 & o2 & o3 & Hg' & H0 & H1 & H2 & H3 & H4).
    rewrite Hg in Hg'. inversion Hg'; subst given'; clear Hg'.
    change (prop o "sourceMaps") with (opt_chain o ["sourceMaps"]).
    rewrite (resolve_baseUrl_frame _ _ _ H4) by reflexivity.
    destruct (default_sourceMaps_spec _ _ H3) as [S3 _].
    change (opt_chain o3 ["sourceMaps"]) with (prop o3 "sourceMaps").
    rewrite S3.
    assert (E : prop o2 "sourceMaps" = prop given "sourceMaps").
    { change (prop o2 "sourceMaps") with (opt_chain o2 ["sourceMaps"]).
      destruct (mark_jest_spec _ _ H2) as [_ F2]. rewrite F2 by reflexivity.
      destruct (default_target_spec _ _ H1) as [_ F1]. rewrite F1 by reflexivity.
      apply (prop_object_rest _ _ _ _ H0); [discriminate | reflexivity]. }
    now rewrite E.
  - intros given Hg R. now apply (buildSwcTransformOpts_returns host _ given).
Qed.

Lemma sourceMaps_default_rule_witness :
  (exists o,
      buildSwcTransformOpts example_host options_marker_off = Ok o /\
      prop o "sourceMaps" = VStr "inline") /\
  (exists o,
      buildSwcTransformOpts example_host options_es5 = Ok o /\
      prop o "sourceMaps" = VBool true).
Proof.
  split.
  - destruct (sourceMaps_default_rule example_host options_marker_off) as [T R].
    destruct (R options_marker_off eq_refl eq_refl) as [o Ho].
    exists o. split; auto. now apply (T options_marker_off).
  - destruct (sourceMaps_default_rule example_host options_es5) as [T R].
    destruct (R options_es5 eq_refl eq_refl) as [o Ho].
    exists o. split; auto. now apply (T options_es5).
Defined.

(* ================================================================== *)
(** * The configuration file *)
(* ================================================================== *)

Lemma only_TypeError_ok {A} (a : A) : only_TypeError (Ok a).
Proof. intros e H. discriminate. Qed.

Lemma only_TypeError_bind {A B} (c : result A) (k : A -> result B) :
  only_TypeError c -> (forall a, only_TypeError (k a)) ->
  only_TypeError (bind c k).
Proof.
  intros Hc Hk e H. destruct c as [a|e']; simpl in H.
  - now apply (Hk a).
  - inversion H; subst. now apply Hc.
Qed.

Lemma only_TypeError_get_prop v k : only_TypeError (get_prop v k).
Proof.
  unfold get_prop. intros e H. destruct (nullish v); now inversion H.
Qed.

Lemma only_TypeError_set_prop v k x : only_TypeError (set_prop v k x).
Proof. intros e H. destruct v; simpl in H; now inversion H. Qed.

Lemma only_TypeError_set_from parents : forall o key x,
  only_TypeError (set_from o parents key x).
Proof.
  induction parents as [|p rest IH]; intros o key x.
  - apply only_TypeError_set_prop.
  - rewrite set_from_unfold.
    apply only_TypeError_bind; [apply only_TypeError_get_prop | intros c].
    apply only_TypeError_bind.
    { destruct (nullish c); [apply only_TypeError_set_prop
                            | apply only_TypeError_ok]. }
    intros o1.
    apply only_TypeError_bind; [apply only_TypeError_get_prop | intros c1].
    apply only_TypeError_bind; [apply IH | intros c2].
    apply only_TypeError_set_prop.
Qed.

Lemma only_TypeError_set o path x : only_TypeError (set o path x).
Proof. apply only_TypeError_set_from. Qed.

Lemma only_TypeError_object_rest e v : only_TypeError (object_rest e v).
Proof.
  unfold object_rest. intros e' H. destruct (nullish v); now inversion H.
Qed.

Lemma only_TypeError_resolve host p : only_TypeError (resolve host p).
Proof. intros e H. destruct p; simpl in H; now inversion H. Qed.

Lemma only_TypeError_read path : forall o, only_TypeError (read o path).
Proof.
  induction path as [|k rest IH]; intros o; simpl.
  - apply only_TypeError_ok.
  - apply only_TypeError_bind; [apply only_TypeError_get_prop | auto].
Qed.






(* ================================================================== *)
(** * The instrumentation injector *)
(* ================================================================== *)

Lemma read_opt_chain path : forall o v, read o path = Ok v -> v = opt_chain o path.
Proof.
  induction path as [|k rest IH]; intros o v H; simpl in *.
  - now inversion H.
  - inv_bind H. apply get_prop_inv in Ha as [_ ->]. now apply IH.
Qed.

Lemma write_unfold root k k' rest x :
  write root (k :: k' :: rest) x =
  (c <- get_prop root k ;; c' <- write c (k' :: rest) x ;; set_prop root k c').
Proof. reflexivity. Qed.

Lemma write_same path : forall o x o',
  path <> [] -> forallb is_name path = true ->
  write o path x = Ok o' -> opt_chain o' path = x.
Proof.
  induction path as [|k rest IH]; intros o x o' Hne Hn H; [congruence|].
  simpl in Hn. apply andb_prop in Hn as [Hk Hn].
  destruct rest as [|k' rest].
  - simpl in *. now apply (prop_set_same o).
  - rewrite write_unfold in H. inv_bind H. inv_bind H.
    change (opt_chain o' (k :: k' :: rest))
      with (opt_chain (prop o' k) (k' :: rest)).
    rewrite (prop_set_same _ _ _ _ Hk H).
    apply (IH a); auto. discriminate.
Qed.

Lemma write_frame path : forall o x o' q,
  forallb is_name path = true -> diverges path q = true ->
  write o path x = Ok o' -> opt_chain o' q = opt_chain o q.
Proof.
  induction path as [|k rest IH]; intros o x o' q Hn D H; [discriminate|].
  simpl in Hn. apply andb_prop in Hn as [Hk Hn].
  destruct q as [|k0 q']; [discriminate|]. simpl in D.
  destruct rest as [|k' rest].
  - destruct (String.eqb k k0) eqn:E; [destruct q'; discriminate|].
    apply String.eqb_neq in E. simpl in *.
    now rewrite (prop_set_other _ _ _ _ k0 (not_eq_sym E) H).
  - rewrite write_unfold in H. inv_bind H. inv_bind H.
    apply get_prop_inv in Ha as [_ ->].
    change (opt_chain o' (k0 :: q')) with (opt_chain (prop o' k0) q').
    change (opt_chain o (k0 :: q')) with (opt_chain (prop o k0) q').
    destruct (String.eqb k k0) eqn:E.
    + apply String.eqb_eq in E. subst k0.
      rewrite (prop_set_same _ _ _ _ Hk H).
      now apply (IH _ x).
    + apply String.eqb_neq in E.
      now rewrite (prop_set_other _ _ _ _ k0 (not_eq_sym E) H).
Qed.

Lemma write_keeps_object path : forall ps x o',
  path <> [] -> write (VObj ps) path x = Ok o' -> exists ps', o' = VObj ps'.
Proof.
  intros ps x o' Hne H. destruct path as [|k rest]; [congruence|].
  destruct rest as [|k' rest].
  - simpl in H. inversion H. eauto.
  - rewrite write_unfold in H. inv_bind H. inv_bind H.
    simpl in H. inversion H. eauto.
Qed.

(** A falsy value has no named property. *)
Lemma prop_falsy v k : truthy v = false -> is_name k = true -> prop v k = VUndef.
Proof.
  intros F Hk. destruct v; try discriminate; auto.
  destruct s; try discriminate. simpl.
  now rewrite (is_name_not_length _ Hk), (is_name_not_index _ Hk).
Qed.

Lemma opt_chain_falsy v k q :
  truthy v = false -> is_name k = true -> opt_chain v (k :: q) = VUndef.
Proof.
  intros F Hk. simpl. rewrite (prop_falsy _ _ F Hk). apply opt_chain_undefined.
Qed.

(** ** What each statement of the injector does *)

Lemma frames_refl o : frames o o.
Proof. intros q _ _. reflexivity. Qed.

Lemma frames_trans o1 o2 o3 : frames o1 o2 -> frames o2 o3 -> frames o1 o3.
Proof. intros A B q D N. rewrite (B q D N). now apply A. Qed.

Lemma ensure_jsc_inv o o' :
  ensure_jsc o = Ok o' ->
  o' = o \/ (truthy (prop o "jsc") = false /\ set_prop o "jsc" (VObj []) = Ok o').
Proof.
  unfold ensure_jsc. intros H. inv_bind H.
  apply read_opt_chain in Ha. subst a.
  change (opt_chain o ["jsc"]) with (prop o "jsc") in H.
  destruct (truthy (prop o "jsc")) eqn:T; simpl in H.
  - left. now inversion H.
  - right. auto.
Qed.

Lemma ensure_experimental_inv o o' :
  ensure_experimental o = Ok o' ->
  o' = o \/
  (truthy (opt_chain o ["jsc"; "experimental"]) = false /\
   write o ["jsc"; "experimental"] (VObj []) = Ok o').
Proof.
  unfold ensure_experimental. intros H. inv_bind H.
  apply read_opt_chain in Ha. subst a.
  destruct (truthy (opt_chain o ["jsc"; "experimental"])) eqn:T; simpl in H.
  - left. now inversion H.
  - right. auto.
Qed.

Lemma ensure_plugins_inv o o' :
  ensure_plugins o = Ok o' ->
  (o' = o /\ isArray (opt_chain o plugins_path) = true) \/
  (isArray (opt_chain o plugins_path) = false /\
   write o plugins_path (VArr [] []) = Ok o').
Proof.
  unfold ensure_plugins. intros H. inv_bind H.
  apply read_opt_chain in Ha. subst a.
  destruct (isArray (opt_chain o plugins_path)) eqn:T; simpl in H.
  - left. now inversion H.
  - right. auto.
Qed.

Lemma push_plugin_inv io o o' :
  push_plugin io o = Ok o' ->
  (o' = o /\ nullish (opt_chain o plugins_path) = true) \/
  (exists items named,
      opt_chain o plugins_path = VArr items named /\
      write o plugins_path (VArr (items ++ [coverage_entry io]) named) = Ok o').
Proof.
  unfold push_plugin. intros H. inv_bind H.
  apply read_opt_chain in Ha. subst a.
  destruct (nullish (opt_chain o plugins_path)) eqn:T.
  - left. now inversion H.
  - right. inv_bind H. unfold push in Ha.
    destruct (opt_chain o plugins_path) as [| | | | |items named|]; try discriminate.
    destruct (lookup "push" named); try discriminate.
    inversion Ha; subst a. exists items, named. auto.
Qed.

Lemma diverges_cons k p k' q :
  diverges (k :: p) (k' :: q)
  = if String.eqb k k' then diverges p q else true.
Proof. reflexivity. Qed.

Lemma forallb_cons {A} (f : A -> bool) x l :
  forallb f (x :: l) = true -> f x = true /\ forallb f l = true.
Proof. simpl. apply andb_prop. Qed.

Lemma ensure_jsc_frames o o' : ensure_jsc o = Ok o' -> frames o o'.
Proof.
  intros H. destruct (ensure_jsc_inv _ _ H) as [-> | [F W]];
    [apply frames_refl|].
  intros q D N. destruct q as [|k0 q']; [discriminate|].
  unfold plugins_path in D. rewrite diverges_cons in D.
  destruct (String.eqb "jsc" k0) eqn:E.
  - apply String.eqb_eq in E. subst k0.
    destruct q' as [|k1 q'']; [discriminate|].
    apply forallb_cons in N as [_ N]. apply forallb_cons in N as [N1 _].
    change (opt_chain o' ("jsc" :: k1 :: q''))
      with (opt_chain (prop o' "jsc") (k1 :: q'')).
    change (opt_chain o ("jsc" :: k1 :: q''))
      with (opt_chain (prop o "jsc") (k1 :: q'')).
    rewrite (prop_set_same o "jsc" (VObj []) o' eq_refl W),
      opt_chain_empty_object.
    symmetry. now apply opt_chain_falsy.
  - apply String.eqb_neq in E. simpl.
    now rewrite (prop_set_other _ _ _ _ k0 (not_eq_sym E) W).
Qed.

Lemma ensure_jsc_plugins o o' :
  ensure_jsc o = Ok o' -> opt_chain o' plugins_path = opt_chain o plugins_path.
Proof.
  intros H. destruct (ensure_jsc_inv _ _ H) as [-> | [F W]]; auto.
  unfold plugins_path.
  change (opt_chain (prop o' "jsc") ["experimental"; "plugins"]
          = opt_chain (prop o "jsc") ["experimental"; "plugins"]).
  rewrite (prop_set_same o "jsc" (VObj []) o' eq_refl W),
      opt_chain_empty_object.
  symmetry. now apply opt_chain_falsy.
Qed.

Lemma ensure_experimental_frames o o' :
  ensure_experimental o = Ok o' -> frames o o'.
Proof.
  intros H. destruct (ensure_experimental_inv _ _ H) as [-> | [F W]];
    [apply frames_refl|].
  intros q D N.
  destruct (diverges ["jsc"; "experimental"] q) eqn:D2.
  - now apply (write_frame ["jsc"; "experimental"] o (VObj [])).
  - destruct q as [|k0 q']; [discriminate|].
    unfold plugins_path in D. rewrite diverges_cons in D, D2.
    destruct (String.eqb "jsc" k0) eqn:E0; [|discriminate].
    destruct q' as [|k1 q'']; [discriminate|].
    rewrite diverges_cons in D, D2.
    destruct (String.eqb "experimental" k1) eqn:E1; [|discriminate].
    destruct q'' as [|k2 q3]; [discriminate|].
    apply String.eqb_eq in E0, E1. subst k0 k1.
    apply forallb_cons in N as [_ N]. apply forallb_cons in N as [_ N].
    apply forallb_cons in N as [N2 _].
    change ("jsc" :: "experimental" :: k2 :: q3)
      with (["jsc"; "experimental"] ++ k2 :: q3).
    rewrite !opt_chain_app.
    rewrite (write_same ["jsc"; "experimental"] o (VObj []) o');
      [| discriminate | reflexivity | exact W].
    rewrite opt_chain_empty_object. symmetry. now apply opt_chain_falsy.
Qed.

Lemma ensure_experimental_plugins o o' :
  ensure_experimental o = Ok o' ->
  opt_chain o' plugins_path = opt_chain o plugins_path.
Proof.
  intros H. destruct (ensure_experimental_inv _ _ H) as [-> | [F W]]; auto.
  unfold plugins_path.
  change ["jsc"; "experimental"; "plugins"]
    with (["jsc"; "experimental"] ++ ["plugins"]).
  rewrite !opt_chain_app.
  rewrite (write_same ["jsc"; "experimental"] o (VObj []) o');
    [| discriminate | reflexivity | exact W].
  rewrite opt_chain_empty_object. symmetry. now apply opt_chain_falsy.
Qed.

Lemma ensure_plugins_frames o o' : ensure_plugins o = Ok o' -> frames o o'.
Proof.
  intros H. destruct (ensure_plugins_inv _ _ H) as [[-> _] | [F W]];
    [apply frames_refl|].
  intros q D N. now apply (write_frame plugins_path o (VArr [] [])).
Qed.

Lemma ensure_plugins_items o o' :
  ensure_plugins o = Ok o' ->
  plugin_items o' = plugin_items o /\ isArray (opt_chain o' plugins_path) = true.
Proof.
  intros H. destruct (ensure_plugins_inv _ _ H) as [[-> A] | [F W]]; auto.
  unfold plugin_items.
  rewrite (write_same plugins_path o (VArr [] []) o');
    [| discriminate | reflexivity | exact W].
  split; auto. now destruct (opt_chain o plugins_path).
Qed.

Lemma push_plugin_frames io o o' : push_plugin io o = Ok o' -> frames o o'.
Proof.
  intros H.
  destruct (push_plugin_inv _ _ _ H) as [[-> _] | (items & named & _ & W)];
    [apply frames_refl|].
  intros q D N.
  now apply (write_frame plugins_path o
               (VArr (items ++ [coverage_entry io]) named)).
Qed.

Lemma push_plugin_items io o o' :
  push_plugin io o = Ok o' ->
  isArray (opt_chain o plugins_path) = true ->
  plugin_items o' = plugin_items o ++ [coverage_entry io].
Proof.
  intros H A.
  destruct (push_plugin_inv _ _ _ H) as [[-> N] | (items & named & P & W)].
  - destruct (opt_chain o plugins_path); discriminate.
  - unfold plugin_items. rewrite P.
    now rewrite (write_same plugins_path o
                   (VArr (items ++ [coverage_entry io]) named) o');
      [| discriminate | reflexivity | exact W].
Qed.

(** ** The guard *)

Lemma names_coverage_plugin_inv x b :
  names_coverage_plugin x = Ok b -> is_coverage_entry x = b.
Proof.
  unfold names_coverage_plugin, is_coverage_entry. intros H. inv_bind H.
  apply get_prop_inv in Ha as [_ ->]. now inversion H.
Qed.

Lemma some_coverage_false items :
  some names_coverage_plugin items = Ok false ->
  filter is_coverage_entry items = [].
Proof.
  induction items as [|x r IH]; simpl; intros H; auto.
  inv_bind H. rewrite (names_coverage_plugin_inv _ _ Ha).
  destruct a; [discriminate | auto].
Qed.

Lemma some_coverage_true items :
  some names_coverage_plugin items = Ok true ->
  1 <= List.length (filter is_coverage_entry items).
Proof.
  induction items as [|x r IH]; simpl; intros H; [discriminate|].
  inv_bind H. rewrite (names_coverage_plugin_inv _ _ Ha).
  destruct a; simpl; [lia | auto].
Qed.

Lemma already_inserted_false o :
  already_inserted o = Ok false -> coverage_count o = 0.
Proof.
  unfold already_inserted, coverage_count, plugin_items.
  destruct (opt_chain o plugins_path) as [| | | | |items named|];
    try discriminate; auto.
  destruct (lookup "some" named); [discriminate|].
  intros H. now rewrite (some_coverage_false _ H).
Qed.

Lemma already_inserted_true o :
  already_inserted o = Ok true -> 1 <= coverage_count o.
Proof.
  unfold already_inserted, coverage_count, plugin_items.
  destruct (opt_chain o plugins_path) as [| | | | |items named|];
    try discriminate.
  destruct (lookup "some" named); [discriminate|].
  apply some_coverage_true.
Qed.

Lemma coverage_count_pushed io o o' :
  plugin_items o' = plugin_items o ++ [coverage_entry io] ->
  coverage_count o' = coverage_count o + 1.
Proof.
  unfold coverage_count. intros ->. rewrite filter_app, length_app.
  reflexivity.
Qed.

(** ** The statements of the injector, run in order *)

Lemma run_statements_frames body :
  (forall st, In st body -> forall o o', st o = Ok o' -> frames o o') ->
  forall o o' r, run_statements body o = (o', r) -> frames o o'.
Proof.
  induction body as [|st rest IH]; intros Hb o o' r H; simpl in H.
  - inversion H. apply frames_refl.
  - destruct (st o) as [o1|e] eqn:E.
    + apply (frames_trans _ o1).
      * apply (Hb st (or_introl eq_refl) _ _ E).
      * apply (IH (fun s Hs => Hb s (or_intror Hs)) _ _ _ H).
    + inversion H. apply frames_refl.
Qed.

Lemma injector_body_frames io o o' r :
  run_statements (injector_body io) o = (o', r) -> frames o o'.
Proof.
  apply run_statements_frames. intros st Hst a b Hab.
  simpl in Hst. destruct Hst as [<- | [<- | [<- | [<- | []]]]].
  - now apply ensure_jsc_frames.
  - now apply ensure_experimental_frames.
  - now apply ensure_plugins_frames.
  - now apply (push_plugin_frames io).
Qed.

(** The body leaves the plugin list as it is or appends the descriptor;
    when it runs to its end it has appended it. *)
Lemma injector_body_items io o o' r :
  run_statements (injector_body io) o = (o', r) ->
  (plugin_items o' = plugin_items o \/
   plugin_items o' = plugin_items o ++ [coverage_entry io]) /\
  (r = Ok tt -> plugin_items o' = plugin_items o ++ [coverage_entry io]).
Proof.
  unfold injector_body. simpl.
  destruct (ensure_jsc o) as [o1|e1] eqn:E1;
    [| intros H; inversion H; split; [auto | discriminate]].
  destruct (ensure_experimental o1) as [o2|e2] eqn:E2.
  2:{ intros H; inversion H; subst. split; [left | discriminate].
      unfold plugin_items. now rewrite (ensure_jsc_plugins _ _ E1). }
  assert (P2 : plugin_items o2 = plugin_items o).
  { unfold plugin_items.
    now rewrite (ensure_experimental_plugins _ _ E2), (ensure_jsc_plugins _ _ E1). }
  destruct (ensure_plugins o2) as [o3|e3] eqn:E3;
    [| intros H; inversion H; subst; split; [auto | discriminate]].
  destruct (ensure_plugins_items _ _ E3) as [P3 A3].
  destruct (push_plugin io o3) as [o4|e4] eqn:E4.
  - intros H; inversion H; subst.
    rewrite (push_plugin_items _ _ _ E4 A3), P3, P2. auto.
  - intros H; inversion H; subst. rewrite P3, P2. split; [auto | discriminate].
Qed.

(** ** The injector *)

Lemma insertInstrumentationOptions_skip jestOptions can o io :
  instrument jestOptions && can = false ->
  insertInstrumentationOptions jestOptions can o io = (o, Ok tt).
Proof. unfold insertInstrumentationOptions. now intros ->. Qed.

Lemma insertInstrumentationOptions_frames jestOptions can o io o' r :
  insertInstrumentationOptions jestOptions can o io = (o', r) -> frames o o'.
Proof.
  unfold insertInstrumentationOptions.
  destruct (negb (instrument jestOptions && can)).
  - intros H; inversion H. apply frames_refl.
  - destruct (already_inserted o) as [[|]|e].
    + intros H; inversion H. apply frames_refl.
    + apply injector_body_frames.
    + intros H; inversion H. apply frames_refl.
Qed.

(** One run of the injector leaves the plugin list as it is, or finds no
    coverage entry in it and appends one. *)
Lemma insertInstrumentationOptions_items jestOptions can o io o' r :
  insertInstrumentationOptions jestOptions can o io = (o', r) ->
  plugin_items o' = plugin_items o \/
  (coverage_count o = 0 /\ coverage_count o' = 1).
Proof.
  unfold insertInstrumentationOptions.
  destruct (negb (instrument jestOptions && can)).
  - intros H; inversion H. auto.
  - destruct (already_inserted o) as [[|]|e] eqn:G.
    + intros H; inversion H. auto.
    + intros H. destruct (injector_body_items _ _ _ _ H) as [[P | P] _]; auto.
      right. pose proof (already_inserted_false _ G) as Z. split; auto.
      rewrite (coverage_count_pushed _ _ _ P). lia.
    + intros H; inversion H. auto.
Qed.

(** A run that was asked to instrument and did not throw leaves a
    coverage entry in the list. *)
Lemma insertInstrumentationOptions_inserted jestOptions can o io o' :
  instrument jestOptions && can = true ->
  insertInstrumentationOptions jestOptions can o io = (o', Ok tt) ->
  1 <= coverage_count o'.
Proof.
  unfold insertInstrumentationOptions. intros ->. simpl.
  destruct (already_inserted o) as [[|]|e] eqn:G.
  - intros H; inversion H; subst. now apply already_inserted_true.
  - intros H. destruct (injector_body_items _ _ _ _ H) as [_ P].
    rewrite (coverage_count_pushed _ _ _ (P eq_refl)). lia.
  - discriminate.
Qed.

Lemma insertInstrumentationOptions_keeps_object jestOptions can ps io o' r :
  insertInstrumentationOptions jestOptions can (VObj ps) io = (o', r) ->
  exists ps', o' = VObj ps'.
Proof.
  unfold insertInstrumentationOptions.
  destruct (negb (instrument jestOptions && can)).
  { intros H; inversion H. eauto. }
  destruct (already_inserted (VObj ps)) as [[|]|e];
    try (intros H; inversion H; eauto; fail).
  unfold injector_body. simpl.
  destruct (ensure_jsc (VObj ps)) as [o1|e1] eqn:E1;
    [| intros H; inversion H; eauto].
  assert (exists p1, o1 = VObj p1) as [p1 ->].
  { destruct (ensure_jsc_inv _ _ E1) as [-> | [_ W]]; eauto.
    simpl in W. inversion W. eauto. }
  destruct (ensure_experimental (VObj p1)) as [o2|e2] eqn:E2;
    [| intros H; inversion H; eauto].
  assert (exists p2, o2 = VObj p2) as [p2 ->].
  { destruct (ensure_experimental_inv _ _ E2) as [-> | [_ W]]; eauto.
    now apply (write_keeps_object ["jsc"; "experimental"] p1 (VObj [])). }
  destruct (ensure_plugins (VObj p2)) as [o3|e3] eqn:E3;
    [| intros H; inversion H; eauto].
  assert (exists p3, o3 = VObj p3) as [p3 ->].
  { destruct (ensure_plugins_inv _ _ E3) as [[-> _] | [_ W]]; eauto.
    now apply (write_keeps_object plugins_path p2 (VArr [] [])). }
  destruct (push_plugin io (VObj p3)) as [o4|e4] eqn:E4;
    intros H; inversion H; subst; eauto.
  destruct (push_plugin_inv _ _ _ E4) as [[-> _] | (items & named & _ & W)];
    eauto.
  now apply (write_keeps_object plugins_path p3
               (VArr (items ++ [coverage_entry io]) named)).
Qed.

(** ** The injector returns on options of the declared shape *)

Lemma objects_along_snoc pre : forall o k,
  objects_along o pre = true ->
  object_like (opt_chain o (pre ++ [k])) = true ->
  objects_along o (pre ++ [k]) = true.
Proof.
  induction pre as [|p pre IH]; intros o k A L; simpl in *.
  - apply andb_prop in A as [A _]. now rewrite A, L.
  - apply andb_prop in A as [Ho A]. rewrite Ho. simpl. now apply IH.
Qed.

Lemma read_returns pre : forall o k,
  objects_along o pre = true ->
  read o (pre ++ [k]) = Ok (opt_chain o (pre ++ [k])).
Proof.
  induction pre as [|p pre IH]; intros o k A; simpl in *.
  - apply andb_prop in A as [A _].
    now rewrite (get_prop_ok _ _ (object_like_not_nullish _ A)).
  - apply andb_prop in A as [Ho A].
    rewrite (get_prop_ok _ _ (object_like_not_nullish _ Ho)). simpl.
    now apply IH.
Qed.

(** A write below objects returns, and leaves objects above it. *)
Lemma write_returns pre : forall o k x,
  forallb is_name pre = true ->
  objects_along o pre = true ->
  exists o', write o (pre ++ [k]) x = Ok o' /\ objects_along o' pre = true.
Proof.
  induction pre as [|p pre IH]; intros o k x Hn A.
  - simpl in *. apply andb_prop in A as [A _].
    destruct (set_prop_returns o k x A) as [o' Ho']. exists o'. split; auto.
    destruct (set_prop_object_like _ _ _ _ Ho') as [_ L]. now rewrite L.
  - apply forallb_cons in Hn as [Hp Hn].
    simpl in A. apply andb_prop in A as [Ho A].
    destruct (IH (prop o p) k x Hn A) as (c' & Hc' & Ac').
    assert (W : write o ((p :: pre) ++ [k]) x
                = (c <- get_prop o p ;;
                   c' <- write c (pre ++ [k]) x ;; set_prop o p c')).
    { simpl. destruct (pre ++ [k]) eqn:E; [destruct pre; discriminate|].
      reflexivity. }
    rewrite W, (get_prop_ok _ _ (object_like_not_nullish _ Ho)). simpl.
    rewrite Hc'. simpl.
    destruct (set_prop_returns o p c' Ho) as [o' Ho']. exists o'. split; auto.
    destruct (set_prop_object_like _ _ _ _ Ho') as [_ L]. simpl.
    now rewrite L, (prop_set_same _ _ _ _ Hp Ho').
Qed.

Lemma some_coverage_returns items :
  forallb (fun x => negb (nullish x)) items = true ->
  exists b, some names_coverage_plugin items = Ok b.
Proof.
  induction items as [|x r IH]; simpl; intros H; [eauto|].
  apply andb_prop in H as [Hx Hr]. apply negb_true_iff in Hx.
  unfold names_coverage_plugin at 1. rewrite (get_prop_ok _ _ Hx). simpl.
  destruct (strict_eq_string (prop x "0") coverage_plugin); eauto.
Qed.

Lemma plugin_list_ok_inv p :
  plugin_list_ok p = true ->
  nullish p = true \/
  exists items named,
    p = VArr items named /\
    forallb (fun x => negb (nullish x)) items = true /\
    lookup "some" named = None /\ lookup "push" named = None.
Proof.
  destruct p as [| | | | |items named|]; simpl; try discriminate; auto.
  intros H. right. apply andb_prop in H as [H P]. apply andb_prop in H as [I S].
  unfold has_own in *. exists items, named. repeat split; auto.
  - now destruct (lookup "some" named).
  - now destruct (lookup "push" named).
Qed.

(** What [injectable] says about the plugin list itself. *)
Lemma injectable_plugins o :
  injectable o = true ->
  opt_chain o plugins_path = VUndef \/
  plugin_list_ok (opt_chain o plugins_path) = true.
Proof.
  unfold injectable. intros H. apply andb_prop in H as [_ H].
  apply orb_prop in H as [H | H].
  - left. apply negb_true_iff in H. unfold plugins_path.
    change (opt_chain (prop o "jsc") ["experimental"; "plugins"] = VUndef).
    now apply opt_chain_falsy.
  - apply andb_prop in H as [_ H]. apply orb_prop in H as [H | H].
    + left. apply negb_true_iff in H. unfold plugins_path.
      change (opt_chain (opt_chain o ["jsc"; "experimental"]) ["plugins"]
              = VUndef).
      now apply opt_chain_falsy.
    + apply andb_prop in H as [_ H]. auto.
Qed.

Lemma already_inserted_returns o :
  injectable o = true -> exists b, already_inserted o = Ok b.
Proof.
  intros H. unfold already_inserted.
  destruct (injectable_plugins o H) as [-> | P]; [eauto|].
  destruct (plugin_list_ok_inv _ P) as [N | (items & named & -> & I & S & _)].
  - destruct (opt_chain o plugins_path); try discriminate; eauto.
  - rewrite S. now apply some_coverage_returns.
Qed.

Ltac props := unfold plugins_path in *; cbn [opt_chain fold_left app] in *.

Lemma injector_body_returns io o :
  injectable o = true ->
  exists o', run_statements (injector_body io) o = (o', Ok tt).
Proof.
  intros H. unfold injectable in H. props.
  apply andb_prop in H as [Ho Hj].
  unfold injector_body. cbn [run_statements].
  (* [if (!swcTransformOpts.jsc) ...] *)
  assert (exists o1,
             ensure_jsc o = Ok o1 /\ object_like o1 = true /\
             object_like (prop o1 "jsc") = true /\
             (negb (truthy (prop (prop o1 "jsc") "experimental")) ||
              object_like (prop (prop o1 "jsc") "experimental") &&
              plugin_list_ok
                (prop (prop (prop o1 "jsc") "experimental") "plugins") = true))
    as (o1 & E1 & L1 & J1 & S1).
  { unfold ensure_jsc.
    assert (R := read_returns [] o "jsc"). props.
    rewrite R by (simpl; now rewrite Ho). cbn [bind].
    destruct (truthy (prop o "jsc")) eqn:T; cbn [negb] in *.
    - exists o. rewrite orb_false_l in Hj. apply andb_prop in Hj as [Lj Sj].
      auto.
    - cbn [write].
      destruct (set_prop_returns o "jsc" (VObj []) Ho) as [o1 W].
      exists o1. split; auto.
      destruct (set_prop_object_like _ _ _ _ W) as [_ L1].
      rewrite (prop_set_same o "jsc" (VObj []) o1 eq_refl W). auto. }
  rewrite E1.
  assert (A1 : objects_along o1 ["jsc"] = true).
  { simpl. now rewrite L1, J1. }
  (* [if (!swcTransformOpts.jsc.experimental) ...] *)
  assert (exists o2,
             ensure_experimental o1 = Ok o2 /\
             objects_along o2 ["jsc"; "experimental"] = true /\
             plugin_list_ok
               (prop (prop (prop o2 "jsc") "experimental") "plugins") = true)
    as (o2 & E2 & A2 & S2).
  { unfold ensure_experimental.
    assert (R := read_returns ["jsc"] o1 "experimental" A1). props.
    rewrite R. cbn [bind].
    destruct (truthy (prop (prop o1 "jsc") "experimental")) eqn:T;
      cbn [negb] in *.
    - exists o1. rewrite orb_false_l in S1. apply andb_prop in S1 as [Le P1].
      repeat split; auto.
      apply (objects_along_snoc ["jsc"] o1 "experimental" A1). exact Le.
    - destruct (write_returns ["jsc"] o1 "experimental" (VObj []) eq_refl A1)
        as (o2 & W & A2). props.
      exists o2. split; auto.
      assert (V := write_same ["jsc"; "experimental"] o1 (VObj []) o2
                     ltac:(discriminate) eq_refl W). props.
      split.
      + apply (objects_along_snoc ["jsc"] o2 "experimental" A2). props.
        now rewrite V.
      + now rewrite V. }
  rewrite E2.
  (* [if (!Array.isArray(...plugins)) ...] *)
  assert (exists o3 items named,
             ensure_plugins o2 = Ok o3 /\
             objects_along o3 ["jsc"; "experimental"] = true /\
             prop (prop (prop o3 "jsc") "experimental") "plugins"
             = VArr items named /\
             lookup "push" named = None)
    as (o3 & items & named & E3 & A3 & P3 & N3).
  { unfold ensure_plugins.
    assert (R := read_returns ["jsc"; "experimental"] o2 "plugins" A2). props.
    rewrite R. cbn [bind].
    destruct (plugin_list_ok_inv _ S2) as [N | (items & named & P & _ & _ & Q)].
    - destruct (write_returns ["jsc"; "experimental"] o2 "plugins"
                  (VArr [] []) eq_refl A2) as (o3 & W & A3). props.
      assert (V := write_same ["jsc"; "experimental"; "plugins"] o2
                     (VArr [] []) o3 ltac:(discriminate) eq_refl W). props.
      exists o3, [], [].
      destruct (prop (prop (prop o2 "jsc") "experimental") "plugins");
        try discriminate; cbn [isArray negb]; auto.
    - exists o2, items, named. rewrite P. cbn [isArray negb]. auto. }
  rewrite E3.
  (* [...plugins?.push(...)] *)
  unfold push_plugin.
  assert (R := read_returns ["jsc"; "experimental"] o3 "plugins" A3). props.
  rewrite R, P3. cbn [bind nullish push]. rewrite N3. cbn [bind].
  destruct (write_returns ["jsc"; "experimental"] o3 "plugins"
              (VArr (items ++ [VArr [VStr coverage_plugin;
                                     coalesce io (VObj [])] []]) named)
              eq_refl A3) as (o4 & W & _). props.
  rewrite W. eauto.
Qed.

(** On options of the declared shape the injector does not throw. *)
Lemma insertInstrumentationOptions_returns jestOptions can o io :
  injectable o = true ->
  snd (insertInstrumentationOptions jestOptions can o io) = Ok tt.
Proof.
  intros H. unfold insertInstrumentationOptions.
  destruct (negb (instrument jestOptions && can)); auto.
  destruct (already_inserted_returns o H) as [[|] ->]; auto.
  destruct (injector_body_returns io o H) as [o' ->]. reflexivity.
Qed.

(* ================================================================== *)
(** * Transform calls on a configured instance *)
(* ================================================================== *)

Lemma with_options_same t : with_options t (computedSwcOptions t) = t.
Proof. now destruct t. Qed.

(** A call changes the instance by what the injector does to the shared
    options, and by nothing else. *)
Lemma step_with_options t c :
  step t c
  = with_options t
      (fst (insertInstrumentationOptions (call_jestOptions c) (canInstrument t)
              (computedSwcOptions t) (instrumentOptions t))).
Proof.
  destruct c as [src filename jo | src filename jo]; simpl;
    unfold process_options, processAsync_options;
    now destruct (insertInstrumentationOptions jo (canInstrument t)
                    (computedSwcOptions t) (instrumentOptions t)).
Qed.

Lemma step_canInstrument t c : canInstrument (step t c) = canInstrument t.
Proof. now rewrite step_with_options. Qed.

Lemma step_cacheKeyFunction t c :
  cacheKeyFunction (step t c) = cacheKeyFunction t.
Proof. now rewrite step_with_options. Qed.

Lemma step_computedSwcOptions t c :
  computedSwcOptions (step t c)
  = fst (insertInstrumentationOptions (call_jestOptions c) (canInstrument t)
           (computedSwcOptions t) (instrumentOptions t)).
Proof. now rewrite step_with_options. Qed.

Lemma after_cons t c calls : after t (c :: calls) = after (step t c) calls.
Proof. reflexivity. Qed.

Lemma after_cacheKeyFunction calls : forall t,
  cacheKeyFunction (after t calls) = cacheKeyFunction t.
Proof.
  induction calls as [|c calls IH]; intros t; auto.
  rewrite after_cons, IH. apply step_cacheKeyFunction.
Qed.

Lemma step_frames t c : frames (computedSwcOptions t) (computedSwcOptions (step t c)).
Proof.
  rewrite step_computedSwcOptions.
  destruct (insertInstrumentationOptions (call_jestOptions c) (canInstrument t)
              (computedSwcOptions t) (instrumentOptions t)) as [o' r] eqn:E.
  now apply insertInstrumentationOptions_frames in E.
Qed.

Lemma after_frames calls : forall t,
  frames (computedSwcOptions t) (computedSwcOptions (after t calls)).
Proof.
  induction calls as [|c calls IH]; intros t; [apply frames_refl|].
  rewrite after_cons.
  apply (frames_trans _ (computedSwcOptions (step t c)));
    [apply step_frames | apply IH].
Qed.

(** The number of coverage entries never goes down, and goes up only from
    none to one. *)
Lemma step_coverage_count t c :
  coverage_count (computedSwcOptions (step t c))
  = coverage_count (computedSwcOptions t) \/
  (coverage_count (computedSwcOptions t) = 0 /\
   coverage_count (computedSwcOptions (step t c)) = 1).
Proof.
  rewrite step_computedSwcOptions.
  destruct (insertInstrumentationOptions (call_jestOptions c) (canInstrument t)
              (computedSwcOptions t) (instrumentOptions t)) as [o' r] eqn:E.
  destruct (insertInstrumentationOptions_items _ _ _ _ _ _ E) as [P | P]; auto.
  left. simpl. unfold coverage_count. now rewrite P.
Qed.

Lemma after_coverage_count calls : forall t,
  coverage_count (computedSwcOptions t)
  <= coverage_count (computedSwcOptions (after t calls))
  <= Nat.max 1 (coverage_count (computedSwcOptions t)).
Proof.
  induction calls as [|c calls IH]; intros t; [cbn [after fold_left]; lia|].
  rewrite after_cons. specialize (IH (step t c)).
  destruct (step_coverage_count t c) as [E | [E0 E1]]; lia.
Qed.

Lemma step_keeps_object t c ps :
  computedSwcOptions t = VObj ps ->
  exists ps', computedSwcOptions (step t c) = VObj ps'.
Proof.
  intros E. rewrite step_computedSwcOptions, E.
  destruct (insertInstrumentationOptions (call_jestOptions c) (canInstrument t)
              (VObj ps) (instrumentOptions t)) as [o' r] eqn:I.
  now apply insertInstrumentationOptions_keeps_object in I.
Qed.

Lemma after_keeps_object calls : forall t ps,
  computedSwcOptions t = VObj ps ->
  exists ps', computedSwcOptions (after t calls) = VObj ps'.
Proof.
  induction calls as [|c calls IH]; intros t ps E; [eauto|].
  rewrite after_cons. destruct (step_keeps_object t c ps E) as [ps' E'].
  now apply (IH _ ps').
Qed.

(** The resolved options are a plain object. *)
Lemma buildSwcTransformOpts_object host swcOptions o :
  buildSwcTransformOpts host swcOptions = Ok o -> exists ps, o = VObj ps.
Proof.
  intros H.
  destruct (buildSwcTransformOpts_steps _ _ _ H)
    as (given & o0 & o1 & o2 & o3 & _ & H0 & H1 & H2 & H3 & H4).
  destruct (object_rest_object _ _ _ H0) as [p0 ->].
  assert (exists p1, o1 = VObj p1) as [p1 ->].
  { unfold default_target in H1. destruct (_ && _).
    - now apply set_from_keeps_object in H1.
    - inversion H1. eauto. }
  assert (exists p2, o2 = VObj p2) as [p2 ->].
  { unfold mark_jest in H2. now apply set_from_keeps_object in H2. }
  assert (exists p3, o3 = VObj p3) as [p3 ->].
  { unfold default_sourceMaps in H3. destruct (negb _).
    - now apply set_from_keeps_object in H3.
    - inversion H3. eauto. }
  unfold resolve_baseUrl in H4. destruct (truthy _).
  - inv_bind H4. inv_bind H4. now apply set_from_keeps_object in H4.
  - inversion H4. eauto.
Qed.

Lemma createTransformer_inv host input t :
  createTransformer host input = Ok t ->
  exists computed,
    buildSwcTransformOpts host input = Ok computed /\
    computedSwcOptions t = computed /\
    cacheKeyFunction t
    = getCacheKeyFunction host []
        [VStr (swcVersion host); VStr version; JSON_stringify computed].
Proof.
  unfold createTransformer. intros H. inv_bind H. inv_bind H.
  inversion H; subst t. simpl. eauto.
Qed.

Lemma createTransformer_object host input t :
  createTransformer host input = Ok t ->
  exists ps, computedSwcOptions t = VObj ps.
Proof.
  intros H. destruct (createTransformer_inv _ _ _ H) as (c & B & -> & _).
  now apply buildSwcTransformOpts_object in B.
Qed.

(** ** The overlay *)

Lemma overlay_module_type ps type filename :
  exists ov,
    overlay (VObj ps) type filename = Ok ov /\
    opt_chain ov ["module"; "type"] = VStr type /\
    prop ov "filename" = VStr filename.
Proof.
  unfold overlay. simpl. eexists. split; [reflexivity|]. split.
  - simpl. rewrite lookup_assign_other by discriminate.
    rewrite lookup_assign_same. simpl. now rewrite lookup_assign_same.
  - simpl. now rewrite lookup_assign_same.
Qed.

(** C4: when the call does not ask for coverage, or the instance is not
    capable of instrumenting, the injector returns at once: the shared options
    it was given are the shared options it leaves, and the instance after the
    transform call is the instance before it. *)
Theorem injector_noop jestOptions can opts io :
  instrument jestOptions = false \/ can = false ->
  insertInstrumentationOptions jestOptions can opts io = (opts, Ok tt) /\
  (forall t c,
      call_jestOptions c = jestOptions -> canInstrument t = can ->
      step t c = t /\
      coverage_count (computedSwcOptions (step t c))
      = coverage_count (computedSwcOptions t)).
Proof.
  intros H.
  assert (E : instrument jestOptions && can = false).
  { destruct H as [-> | ->]; [reflexivity | apply andb_false_r]. }
  split.
  - now apply insertInstrumentationOptions_skip.
  - intros t c Hc Ht. subst.
    assert (S : step t c = t).
    { rewrite step_with_options, insertInstrumentationOptions_skip by exact E.
      apply with_options_same. }
    now rewrite S.
Qed.

Lemma injector_noop_witness :
  exists t,
    createTransformer example_host options_coverage = Ok t /\
    canInstrument t = true /\
    step t (Sync "export {}" "a.ts" (jest_options false true)) = t.
Proof.
  eexists. split; [reflexivity|]. split; [reflexivity|].
  match goal with
  | |- step ?t ?c = _ =>
      destruct (injector_noop (jest_options false true) (canInstrument t)
                  (computedSwcOptions t) (instrumentOptions t)
                  (or_introl eq_refl)) as [_ N];
      exact (proj1 (N t c eq_refl eq_refl))
  end.
Defined.

(** C2, as the claim has it, fails: the injector does not remove what the
    caller listed, so an instance set up with the coverage plugin listed twice
    keeps two entries, also after two calls that ask for coverage. *)
Lemma coverage_plugin_listed_twice :
  ~ (forall host input t calls,
        createTransformer host input = Ok t ->
        coverage_count (computedSwcOptions (after t calls)) <= 1).
Proof.
  intros C.
  destruct (createTransformer example_host options_plugin_twice) as [t|e] eqn:E;
    [| vm_compute in E; discriminate].
  specialize (C example_host options_plugin_twice t
                [Sync "export {}" "a.ts" (jest_options true false);
                 Async "export {}" "a.ts" (jest_options true false)] E).
  vm_compute in E. inversion E; subst t; clear E.
  vm_compute in C. lia.
Qed.

(** C2, amended: the injector never adds a second coverage entry.  On an
    instance whose plugin list holds at most one coverage entry, the list
    holds at most one after every sequence of transform calls; and if the
    instance is capable of instrumenting and the injector gets through the
    first of two calls that both ask for coverage, as it does on shared
    options of the shape of swc's [Options], the list holds exactly one after
    the two. *)
Theorem coverage_plugin_at_most_once t :
  coverage_count (computedSwcOptions t) <= 1 ->
  (forall calls, coverage_count (computedSwcOptions (after t calls)) <= 1) /\
  (forall c1 c2,
      canInstrument t = true ->
      instrument (call_jestOptions c1) = true ->
      instrument (call_jestOptions c2) = true ->
      snd (insertInstrumentationOptions (call_jestOptions c1) (canInstrument t)
             (computedSwcOptions t) (instrumentOptions t)) = Ok tt \/
      injectable (computedSwcOptions t) = true ->
      coverage_count (computedSwcOptions (after t [c1; c2])) = 1).
Proof.
  intros H. split.
  - intros calls. pose proof (after_coverage_count calls t). lia.
  - intros c1 c2 Hc I1 _ Hr.
    assert (Hr' : snd (insertInstrumentationOptions (call_jestOptions c1)
                         (canInstrument t) (computedSwcOptions t)
                         (instrumentOptions t)) = Ok tt).
    { destruct Hr as [Hr | Hr]; auto.
      now apply insertInstrumentationOptions_returns. }
    clear Hr.
    assert (L : 1 <= coverage_count (computedSwcOptions (step t c1))).
    { rewrite step_computedSwcOptions.
      destruct (insertInstrumentationOptions (call_jestOptions c1)
                  (canInstrument t) (computedSwcOptions t)
                  (instrumentOptions t)) as [o' r] eqn:E.
      simpl in Hr'. subst r. simpl.
      apply (insertInstrumentationOptions_inserted (call_jestOptions c1)
               (canInstrument t) (computedSwcOptions t) (instrumentOptions t));
        auto.
      now rewrite I1, Hc. }
    pose proof (after_coverage_count [c1] t) as B1.
    pose proof (after_coverage_count [c2] (step t c1)) as B2.
    change (after t [c1]) with (step t c1) in B1.
    change (after (step t c1) [c2]) with (after t [c1; c2]) in B2.
    lia.
Qed.

Lemma coverage_plugin_at_most_once_witness :
  exists t,
    createTransformer example_host options_coverage = Ok t /\
    coverage_count (computedSwcOptions t) = 0 /\
    coverage_count
      (computedSwcOptions
         (after t [Sync "export {}" "a.ts" (jest_options true false);
                   Async "export {}" "a.ts" (jest_options true true)])) = 1.
Proof.
  eexists. split; [reflexivity|]. split; [reflexivity|].
  match goal with
  | |- coverage_count (computedSwcOptions (after ?t _)) = 1 =>
      destruct (coverage_plugin_at_most_once t) as [_ W]; [vm_compute; lia|]
  end.
  apply W; try reflexivity. right. reflexivity.
Defined.

(** C3: on a configured instance, after any earlier calls, a call whose
    injector does not throw hands the compiler an options object whose
    [module.type] is ['es6'] or ['commonjs'] after [supportsStaticESM] when
    the call is synchronous, and ['es6'] whatever the flag says when it is
    asynchronous.  The injector does not throw when it has nothing to do or
    when the shared options have the shape of swc's [Options]; a call whose
    injector throws never reaches the compiler. *)
Theorem module_type_per_call host input t0 calls filename jestOptions :
  createTransformer host input = Ok t0 ->
  let t := after t0 calls in
  let done :=
    snd (insertInstrumentationOptions jestOptions (canInstrument t)
           (computedSwcOptions t) (instrumentOptions t)) in
  (done = Ok tt ->
   (exists options,
       snd (process_options t filename jestOptions) = Ok options /\
       opt_chain options ["module"; "type"]
       = VStr (if supportsStaticESM jestOptions then "es6" else "commonjs") /\
       forall src,
         snd (process host t src filename jestOptions)
         = transformSync host src options) /\
   (exists options,
       snd (processAsync_options t filename jestOptions) = Ok options /\
       opt_chain options ["module"; "type"] = VStr "es6" /\
       forall src,
         snd (processAsync host t src filename jestOptions)
         = transform host src options)) /\
  (forall e,
      done = Throw e ->
      forall src,
        snd (process host t src filename jestOptions) = Throw e /\
        snd (processAsync host t src filename jestOptions) = Throw e) /\
  (instrument jestOptions && canInstrument t = false \/
   injectable (computedSwcOptions t) = true ->
   done = Ok tt).
Proof.
  intros H t done.
  destruct (createTransformer_object _ _ _ H) as [ps0 E0].
  destruct (after_keeps_object calls t0 ps0 E0) as [ps E]. fold t in E.
  subst done. unfold process, processAsync, process_options,
    processAsync_options.
  destruct (insertInstrumentationOptions jestOptions (canInstrument t)
              (computedSwcOptions t) (instrumentOptions t)) as [o' r] eqn:I.
  assert (D : instrument jestOptions && canInstrument t = false \/
              injectable (computedSwcOptions t) = true -> r = Ok tt).
  { intros [N | N].
    - rewrite (insertInstrumentationOptions_skip _ _ _ _ N) in I.
      now inversion I.
    - pose proof (insertInstrumentationOptions_returns jestOptions
                    (canInstrument t) _ (instrumentOptions t) N) as R.
      now rewrite I in R. }
  rewrite E in I.
  destruct (insertInstrumentationOptions_keeps_object _ _ _ _ _ _ I)
    as [ps' ->].
  simpl. split; [|split; [|exact D]].
  - intros ->. simpl. split.
    + destruct (overlay_module_type ps'
                  (if supportsStaticESM jestOptions then "es6" else "commonjs")
                  filename) as (ov & Ho & Ht & _).
      exists ov. rewrite Ho. simpl. repeat split; auto.
      intros src. unfold overlay in Ho. simpl in Ho. now inversion Ho.
    + destruct (overlay_module_type ps' "es6" filename) as (ov & Ho & Ht & _).
      exists ov. rewrite Ho. simpl. repeat split; auto.
      intros src. unfold overlay in Ho. simpl in Ho. now inversion Ho.
  - intros e ->. simpl. auto.
Qed.

Lemma module_type_per_call_witness :
  exists t sync async,
    createTransformer example_host options_coverage = Ok t /\
    snd (process_options t "a.ts" (jest_options true false)) = Ok sync /\
    opt_chain sync ["module"; "type"] = VStr "commonjs" /\
    snd (processAsync_options t "a.ts" (jest_options true false)) = Ok async /\
    opt_chain async ["module"; "type"] = VStr "es6".
Proof.
  eexists.
  destruct (module_type_per_call example_host options_coverage _ []
              "a.ts" (jest_options true false) eq_refl) as [R _].
  destruct (R eq_refl) as [(sync & Hs & Ts & _) (async & Ha & Ta & _)].
  exists sync, async. repeat split; eauto.
Defined.



(* ================================================================== *)
(** * The cache key *)
(* ================================================================== *)

Lemma append_assoc a b c : (a +++ b) +++ c = a +++ b +++ c.
Proof. induction a as [|x a IH]; simpl; auto. now rewrite IH. Qed.

Lemma append_cancel a b c : a +++ b = a +++ c -> b = c.
Proof. induction a as [|x a IH]; simpl; intros H; auto. inversion H. auto. Qed.

(** [getCacheKey] returns the MD5 digest, in hexadecimal, of the base key,
    a null byte and the serialized flag. *)
Lemma getCacheKey_digest host t src filename rest :
  getCacheKey host t src filename rest
  = Ok (md5_hex host
          (key_material (cacheKeyFunction t src filename rest)
             (supportsStaticESM (call_options rest)))).
Proof.
  unfold getCacheKey, key_material.
  assert (J : JSON_stringify
                (VObj [("supportsStaticESM",
                        VBool (supportsStaticESM (call_options rest)))])
              = VStr (flag_json (supportsStaticESM (call_options rest)))).
  { destruct (supportsStaticESM (call_options rest)); reflexivity. }
  rewrite J. simpl. now rewrite append_assoc.
Qed.

(** The flag is part of what is hashed: with the same base key, the two
    values of the flag give different bytes. *)
Lemma key_material_flag base f g :
  key_material base f = key_material base g -> f = g.
Proof.
  unfold key_material. intros H. apply append_cancel in H.
  destruct f, g; auto; discriminate.
Qed.

(** C10: the base cache-key function is built once, at setup, from the
    serialization of the options as they are then.  On a configured instance
    the key that [getCacheKey] returns for given arguments is the same before
    and after any sequence of transform calls, whatever they did to the shared
    options. *)
Theorem cache_key_fixed_at_setup host input t calls src filename rest :
  createTransformer host input = Ok t ->
  cacheKeyFunction (after t calls)
  = getCacheKeyFunction host []
      [VStr (swcVersion host); VStr version;
       JSON_stringify (computedSwcOptions t)] /\
  getCacheKey host (after t calls) src filename rest
  = getCacheKey host t src filename rest.
Proof.
  intros H. destruct (createTransformer_inv _ _ _ H) as (c & _ & <- & K).
  split.
  - now rewrite after_cacheKeyFunction.
  - rewrite !getCacheKey_digest. now rewrite after_cacheKeyFunction.
Qed.

(** A call that injects the coverage plugin changes the serialization of
    the shared options, and the key stays what it was. *)
Lemma cache_key_fixed_at_setup_witness :
  exists t,
    createTransformer example_host options_coverage = Ok t /\
    let t' := after t [Sync "export {}" "a.ts" (jest_options true false)] in
    JSON_stringify (computedSwcOptions t')
    <> JSON_stringify (computedSwcOptions t) /\
    getCacheKey example_host t' "export {}" "a.ts"
      (Jest27 (jest_options true false))
    = getCacheKey example_host t "export {}" "a.ts"
        (Jest27 (jest_options true false)).
Proof.
  eexists. split; [reflexivity|]. split.
  - vm_compute. discriminate.
  - match goal with
    | |- getCacheKey _ (after ?t ?calls) ?s ?f ?r = _ =>
        exact (proj2 (cache_key_fixed_at_setup example_host options_coverage
                        t calls s f r eq_refl))
    end.
Defined.

(* ================================================================== *)
(** * Dotted paths *)
(* ================================================================== *)

Lemma split_dot_aux_nonempty s : forall cur, split_dot_aux cur s <> [].
Proof.
  induction s as [|c r IH]; intros cur; simpl; [discriminate|].
  destruct (Ascii.eqb c "."%char); [discriminate | apply IH].
Qed.

(** The segments of a path are its parents and its key. *)
Lemma split_dot_parts path :
  removelast (split_dot path) ++ [last (split_dot path) EmptyString]
  = split_dot path.
Proof.
  symmetry. apply app_removelast_last. apply split_dot_aux_nonempty.
Qed.

(* ================================================================== *)
(** * Further properties of the option resolver *)
(* ================================================================== *)

Lemma lookup_remove_same k ps : lookup k (remove_key k ps) = None.
Proof.
  induction ps as [|[k0 y] r IH]; simpl; auto.
  destruct (String.eqb k k0) eqn:E; simpl; auto. now rewrite E.
Qed.

Lemma object_rest_excluded e v o : object_rest e v = Ok o -> prop o e = VUndef.
Proof.
  unfold object_rest. destruct (nullish v); intros H; [discriminate|].
  inversion H. simpl. now rewrite lookup_remove_same.
Qed.

(** Every read that parts ways with the four places the resolver writes to
    finds in the resolved options what the rest object held. *)
Lemma resolver_steps_frame host o0 o1 o2 o3 o q :
  default_target o0 = Ok o1 -> mark_jest o1 = Ok o2 ->
  default_sourceMaps o2 = Ok o3 -> resolve_baseUrl host o3 = Ok o ->
  diverges target_path q = true -> diverges marker_path q = true ->
  diverges ["sourceMaps"] q = true -> diverges baseUrl_path q = true ->
  opt_chain o q = opt_chain o0 q.
Proof.
  intros H1 H2 H3 H4 D1 D2 D3 D4.
  rewrite (resolve_baseUrl_frame _ _ _ H4 q D4).
  destruct (default_sourceMaps_spec _ _ H3) as [_ F3]. rewrite (F3 q D3).
  destruct (mark_jest_spec _ _ H2) as [_ F2]. rewrite (F2 q D2).
  destruct (default_target_spec _ _ H1) as [_ F1]. now rewrite (F1 q D1).
Qed.

(** X4: the coverage block never reaches the compiler options: the
    resolved options have no [experimental] property, and no transform call
    gives them one. *)
Theorem experimental_stripped host input t calls :
  createTransformer host input = Ok t ->
  prop (computedSwcOptions t) "experimental" = VUndef /\
  prop (computedSwcOptions (after t calls)) "experimental" = VUndef.
Proof.
  intros H. destruct (createTransformer_inv _ _ _ H) as (c & B & E & _).
  assert (P : prop (computedSwcOptions t) "experimental" = VUndef).
  { rewrite E.
    destruct (buildSwcTransformOpts_steps _ _ _ B)
      as (given & o0 & o1 & o2 & o3 & _ & H0 & H1 & H2 & H3 & H4).
    change (prop c "experimental") with (opt_chain c ["experimental"]).
    rewrite (resolver_steps_frame host o0 o1 o2 o3 c ["experimental"])
      by (assumption || reflexivity).
    apply (object_rest_excluded _ _ _ H0). }
  split; auto.
  change (opt_chain (computedSwcOptions (after t calls)) ["experimental"]
          = VUndef).
  rewrite (after_frames calls t ["experimental"]) by reflexivity.
  exact P.
Qed.

Lemma experimental_stripped_witness :
  exists t,
    createTransformer example_host options_coverage = Ok t /\
    prop options_coverage "experimental" <> VUndef /\
    prop (computedSwcOptions
            (after t [Sync "export {}" "a.ts" (jest_options true false)]))
      "experimental" = VUndef.
Proof.
  eexists. split; [reflexivity|]. split; [discriminate|].
  match goal with
  | |- prop (computedSwcOptions (after ?t ?calls)) _ = _ =>
      exact (proj2 (experimental_stripped example_host options_coverage
                      t calls eq_refl))
  end.
Defined.

(** The base path before and after the last step of the resolver. *)
Lemma resolve_baseUrl_spec host o3 o :
  resolve_baseUrl host o3 = Ok o ->
  (truthy (opt_chain o3 baseUrl_path) = false /\ o = o3) \/
  (exists s,
      opt_chain o3 baseUrl_path = VStr s /\
      truthy (VStr s) = true /\
      set_from o3 ["jsc"] "baseUrl" (VStr (path_resolve host s)) = Ok o).
Proof.
  unfold resolve_baseUrl. fold baseUrl_path.
  destruct (truthy (opt_chain o3 baseUrl_path)) eqn:T; intros H.
  - right. inv_bind H. apply read_opt_chain in Ha. subst a.
    inv_bind H. rewrite set_baseUrl in H.
    destruct (opt_chain o3 baseUrl_path) as [| | | |s| |]; try discriminate.
    inversion Ha; subst a. exists s. auto.
  - left. inversion H. auto.
Qed.

Lemma only_TypeError_build host swcOptions given :
  given_options host swcOptions = Ok given ->
  only_TypeError (buildSwcTransformOpts host swcOptions).
Proof.
  intros Hg. unfold buildSwcTransformOpts. rewrite Hg. simpl.
  apply only_TypeError_bind; [apply only_TypeError_object_rest | intros o0].
  apply only_TypeError_bind.
  { unfold default_target.
    destruct (_ && _); [apply only_TypeError_set | apply only_TypeError_ok]. }
  intros o1.
  apply only_TypeError_bind; [apply only_TypeError_set | intros o2].
  apply only_TypeError_bind.
  { unfold default_sourceMaps.
    destruct (negb _); [apply only_TypeError_set | apply only_TypeError_ok]. }
  intros o3.
  apply only_TypeError_bind; [| intros o4; apply only_TypeError_ok].
  unfold resolve_baseUrl.
  destruct (truthy _); [| apply only_TypeError_ok].
  apply only_TypeError_bind; [apply only_TypeError_read | intros b].
  apply only_TypeError_bind; [apply only_TypeError_resolve | intros p].
  apply only_TypeError_set.
Qed.

(** The base path that the last step of the resolver finds is the one of
    the input. *)
Lemma resolver_baseUrl_input given o0 o1 o2 o3 :
  object_rest "experimental" given = Ok o0 ->
  default_target o0 = Ok o1 -> mark_jest o1 = Ok o2 ->
  default_sourceMaps o2 = Ok o3 ->
  opt_chain o3 baseUrl_path = opt_chain given baseUrl_path.
Proof.
  intros H0 H1 H2 H3.
  destruct (default_sourceMaps_spec _ _ H3) as [_ F3].
  rewrite F3 by reflexivity.
  destruct (mark_jest_spec _ _ H2) as [_ F2]. rewrite F2 by reflexivity.
  destruct (default_target_spec _ _ H1) as [_ F1]. rewrite F1 by reflexivity.
  apply (opt_chain_object_rest _ _ _ "jsc" ["baseUrl"] H0);
    [discriminate | reflexivity].
Qed.

(** X5: a truthy [jsc.baseUrl] that is a string is replaced by what
    [path.resolve] makes of it, a falsy one is left as it is, and a truthy one
    that is no string makes setup throw a [TypeError]. *)
Theorem baseUrl_resolved host swcOptions given :
  given_options host swcOptions = Ok given ->
  let b := opt_chain given baseUrl_path in
  (forall o,
      buildSwcTransformOpts host swcOptions = Ok o ->
      (truthy b = false -> opt_chain o baseUrl_path = b) /\
      (forall s, b = VStr s -> truthy b = true ->
                 opt_chain o baseUrl_path = VStr (path_resolve host s))) /\
  (truthy b = true -> (forall s, b <> VStr s) ->
   buildSwcTransformOpts host swcOptions = Throw TypeError).
Proof.
  intros Hg b.
  assert (S : forall o,
             buildSwcTransformOpts host swcOptions = Ok o ->
             (truthy b = false /\ opt_chain o baseUrl_path = b) \/
             (exists s, b = VStr s /\ truthy b = true /\
                        opt_chain o baseUrl_path = VStr (path_resolve host s))).
  { intros o H.
    destruct (buildSwcTransformOpts_steps _ _ _ H)
      as (given' & o0 & o1 & o2 & o3 & Hg' & H0 & H1 & H2 & H3 & H4).
    rewrite Hg in Hg'. inversion Hg'; subst given'; clear Hg'.
    pose proof (resolver_baseUrl_input given o0 o1 o2 o3 H0 H1 H2 H3) as B.
    fold b in B.
    destruct (resolve_baseUrl_spec _ _ _ H4) as [[T ->] | (s & E & T & W)];
      rewrite B in *.
    - left. auto.
    - right. exists s. rewrite E. repeat split; auto.
      now apply (set_from_same ["jsc"] o3 "baseUrl"). }
  split.
  - intros o H. destruct (S o H) as [[T E] | (s & E & T & R)]; split.
    + auto.
    + intros s _ T'. rewrite T in T'. discriminate.
    + intros T'. rewrite T in T'. discriminate.
    + intros s' E' _. rewrite E in E'. inversion E'; subst s'. exact R.
  - intros T N.
    destruct (buildSwcTransformOpts host swcOptions) as [o|e] eqn:H.
    + destruct (S o eq_refl) as [[T' _] | (s & E & _)].
      * rewrite T in T'. discriminate.
      * now destruct (N s).
    + now rewrite (only_TypeError_build host swcOptions given Hg e H).
Qed.

Lemma baseUrl_resolved_witness :
  (exists o,
      buildSwcTransformOpts example_host options_baseUrl = Ok o /\
      opt_chain o baseUrl_path = VStr "/project/src") /\
  buildSwcTransformOpts example_host
    (VObj [("jsc", VObj [("baseUrl", VNum 1)])]) = Throw TypeError.
Proof.
  split.
  - eexists. split; [reflexivity|].
    destruct (baseUrl_resolved example_host options_baseUrl options_baseUrl
                eq_refl) as [R _].
    match goal with
    | |- opt_chain ?o _ = _ =>
        destruct (R o eq_refl) as [_ S]; exact (S "src" eq_refl eq_refl)
    end.
  - destruct (baseUrl_resolved example_host
                (VObj [("jsc", VObj [("baseUrl", VNum 1)])])
                (VObj [("jsc", VObj [("baseUrl", VNum 1)])]) eq_refl)
      as [_ T].
    apply T; [reflexivity | discriminate].
Defined.

(* ================================================================== *)
(** * Further properties of setup *)
(* ================================================================== *)

(** The coverage block of the setup options:
    [swcTransformOpts?.experimental?.customCoverageInstrumentation ?? {}]. *)
Lemma createTransformer_coverage host input t :
  createTransformer host input = Ok t ->
  let block :=
    coalesce (opt_chain input ["experimental"; "customCoverageInstrumentation"])
      (VObj []) in
  canInstrument t = truthy (prop block "enabled") /\
  object_rest "enabled" block = Ok (instrumentOptions t).
Proof.
  unfold createTransformer. intros H. inv_bind H. inv_bind H.
  inversion H; subst t. simpl. auto.
Qed.

Lemma after_fixed calls : forall t,
  (forall c, step t c = t) -> after t calls = t.
Proof.
  induction calls as [|c calls IH]; intros t H; auto.
  rewrite after_cons, H. now apply IH.
Qed.

(** X7: with neither explicit options nor a [.swcrc], setup resolves to
    the defaults: target es2016, the jest marker, inline source maps. *)
Theorem setup_defaults host swcOptions :
  truthy swcOptions = false ->
  readFile host (path_join host (cwd host) ".swcrc") = None ->
  buildSwcTransformOpts host swcOptions = Ok default_options /\
  exists t,
    createTransformer host swcOptions = Ok t /\
    computedSwcOptions t = default_options.
Proof.
  intros F N.
  assert (B : buildSwcTransformOpts host swcOptions = Ok default_options).
  { unfold buildSwcTransformOpts, given_options, getOptionsFromSwrc.
    rewrite F, N. reflexivity. }
  split; auto.
  unfold createTransformer. rewrite B. cbn [bind].
  rewrite (opt_chain_falsy swcOptions "experimental"
             ["customCoverageInstrumentation"] F eq_refl).
  eexists. split; reflexivity.
Qed.

Lemma setup_defaults_witness :
  buildSwcTransformOpts example_host VUndef = Ok default_options.
Proof.
  exact (proj1 (setup_defaults example_host VUndef eq_refl eq_refl)).
Defined.

(** X8: instrumenting can only be switched on by explicit options.  An
    instance set up without them, whatever its [.swcrc] holds, is not capable
    of instrumenting, and no transform call changes it. *)
Theorem swcrc_cannot_enable_coverage host swcOptions t :
  truthy swcOptions = false ->
  createTransformer host swcOptions = Ok t ->
  canInstrument t = false /\
  instrumentOptions t = VObj [] /\
  forall calls, after t calls = t.
Proof.
  intros F H.
  destruct (createTransformer_coverage _ _ _ H) as [C R].
  rewrite (opt_chain_falsy swcOptions "experimental"
             ["customCoverageInstrumentation"] F eq_refl) in C, R.
  simpl in C, R. inversion R as [R'].
  repeat split; auto.
  intros calls. apply after_fixed. intros c.
  rewrite step_with_options, insertInstrumentationOptions_skip.
  - apply with_options_same.
  - rewrite C. apply andb_false_r.
Qed.

Lemma swcrc_cannot_enable_coverage_witness :
  exists t,
    createTransformer example_host VUndef = Ok t /\
    canInstrument t = false /\
    after t [Sync "export {}" "a.ts" (jest_options true false)] = t.
Proof.
  eexists. split; [reflexivity|].
  match goal with
  | |- canInstrument ?t = _ /\ _ =>
      destruct (swcrc_cannot_enable_coverage example_host VUndef t
                  eq_refl eq_refl) as (C & _ & A)
  end.
  split; [exact C | apply A].
Defined.

(** X9: a [.swcrc] that parses without errors to [null] makes setup
    without explicit options throw a [TypeError]: there is nothing to take
    the options from. *)
Theorem null_swcrc_fails host swcOptions text parsed :
  truthy swcOptions = false ->
  readFile host (path_join host (cwd host) ".swcrc") = Some text ->
  parseJsonC host text = (parsed, []) ->
  nullish parsed = true ->
  buildSwcTransformOpts host swcOptions = Throw TypeError /\
  createTransformer host swcOptions = Throw TypeError.
Proof.
  intros F R P N.
  assert (B : buildSwcTransformOpts host swcOptions = Throw TypeError).
  { unfold buildSwcTransformOpts, given_options, getOptionsFromSwrc.
    rewrite F, R, P. simpl. unfold object_rest. now rewrite N. }
  split; auto. unfold createTransformer. now rewrite B.
Qed.

Lemma null_swcrc_fails_witness :
  createTransformer null_host VUndef = Throw TypeError.
Proof.
  exact (proj2 (null_swcrc_fails null_host VUndef "null" VNull
                  eq_refl eq_refl eq_refl eq_refl)).
Defined.

Lemma resolve_baseUrl_same_resolve host host' o :
  (forall p, path_resolve host p = path_resolve host' p) ->
  resolve_baseUrl host o = resolve_baseUrl host' o.
Proof.
  intros E. unfold resolve_baseUrl.
  destruct (truthy (opt_chain o ["jsc"; "baseUrl"])); auto.
  destruct (read o ["jsc"; "baseUrl"]) as [b|e]; auto. simpl.
  destruct b; auto. simpl. now rewrite E.
Qed.

(** X10: explicit options win over the configuration file: with truthy
    explicit options the [.swcrc] is not looked at, so two hosts that resolve
    paths alike resolve the options alike, whatever their files hold. *)
Theorem explicit_options_ignore_swcrc host host' swcOptions :
  truthy swcOptions = true ->
  (forall p, path_resolve host p = path_resolve host' p) ->
  buildSwcTransformOpts host swcOptions
  = buildSwcTransformOpts host' swcOptions.
Proof.
  intros T E. unfold buildSwcTransformOpts, given_options. rewrite T. simpl.
  destruct (object_rest "experimental" swcOptions) as [o0|e]; auto. simpl.
  destruct (default_target o0) as [o1|e]; auto. simpl.
  destruct (mark_jest o1) as [o2|e]; auto. simpl.
  destruct (default_sourceMaps o2) as [o3|e]; auto. simpl.
  now rewrite (resolve_baseUrl_same_resolve host host' o3 E).
Qed.

Lemma explicit_options_ignore_swcrc_witness :
  (exists message,
      buildSwcTransformOpts broken_host VUndef = Throw (Error message)) /\
  exists o,
    buildSwcTransformOpts example_host options_es5 = Ok o /\
    buildSwcTransformOpts broken_host options_es5 = Ok o.
Proof.
  split; [eexists; reflexivity|].
  eexists. split; [reflexivity|].
  now rewrite (explicit_options_ignore_swcrc broken_host example_host
                 options_es5 eq_refl (fun p => eq_refl)).
Defined.

(** X11: the [enabled] flag of the coverage block decides whether the
    instance can instrument and is not handed on; every other named property
    of the block is handed to the injector as it is. *)
Theorem coverage_block_split host input t :
  createTransformer host input = Ok t ->
  let block :=
    coalesce (opt_chain input ["experimental"; "customCoverageInstrumentation"])
      (VObj []) in
  canInstrument t = truthy (prop block "enabled") /\
  prop (instrumentOptions t) "enabled" = VUndef /\
  (forall k, is_name k = true -> k <> "enabled" ->
             prop (instrumentOptions t) k = prop block k).
Proof.
  intros H block. destruct (createTransformer_coverage _ _ _ H) as [C R].
  fold block in C, R. repeat split; auto.
  - apply (object_rest_excluded _ _ _ R).
  - intros k Hk N. now apply (prop_object_rest _ _ _ _ R).
Qed.

Lemma coverage_block_split_witness :
  exists t,
    createTransformer example_host options_coverage = Ok t /\
    canInstrument t = true /\
    prop (instrumentOptions t) "enabled" = VUndef /\
    prop (instrumentOptions t) "compact" = VBool true.
Proof.
  eexists. split; [reflexivity|].
  match goal with
  | |- canInstrument ?t = _ /\ _ =>
      destruct (coverage_block_split example_host options_coverage t eq_refl)
        as (C & E & K)
  end.
  split; [exact C|]. split; [exact E|].
  now rewrite (K "compact" eq_refl ltac:(discriminate)).
Defined.

(* ================================================================== *)
(** * Further properties of the injector *)
(* ================================================================== *)

Lemma some_app_false pred items rest :
  some pred items = Ok false -> some pred (items ++ rest) = some pred rest.
Proof.
  induction items as [|x r IH]; simpl; intros H; auto.
  destruct (pred x) as [[|]|e]; simpl in *; try discriminate. auto.
Qed.

Lemma already_inserted_false_inv o :
  already_inserted o = Ok false ->
  nullish (opt_chain o plugins_path) = true \/
  exists items named,
    opt_chain o plugins_path = VArr items named /\
    lookup "some" named = None /\
    some names_coverage_plugin items = Ok false.
Proof.
  unfold already_inserted.
  destruct (opt_chain o plugins_path) as [| | | | |items named|];
    try discriminate; auto.
  destruct (lookup "some" named) eqn:S; [discriminate|].
  intros H. right. exists items, named. auto.
Qed.

(** The plugin list after the statements of the injector ran to their
    end: the list before, or an empty one where there was no array, with the
    descriptor appended. *)
Lemma injector_body_plugins io o o' :
  run_statements (injector_body io) o = (o', Ok tt) ->
  exists items named,
    (opt_chain o plugins_path = VArr items named \/
     (isArray (opt_chain o plugins_path) = false /\ items = [] /\ named = [])) /\
    opt_chain o' plugins_path = VArr (items ++ [coverage_entry io]) named.
Proof.
  unfold injector_body. cbn [run_statements].
  destruct (ensure_jsc o) as [o1|e1] eqn:E1; [|discriminate].
  destruct (ensure_experimental o1) as [o2|e2] eqn:E2; [|discriminate].
  destruct (ensure_plugins o2) as [o3|e3] eqn:E3; [|discriminate].
  destruct (push_plugin io o3) as [o4|e4] eqn:E4; [|discriminate].
  intros H. inversion H; subst o4; clear H.
  assert (P2 : opt_chain o2 plugins_path = opt_chain o plugins_path).
  { now rewrite (ensure_experimental_plugins _ _ E2),
      (ensure_jsc_plugins _ _ E1). }
  destruct (push_plugin_inv _ _ _ E4) as [[_ N] | (items & named & P3 & W)].
  - destruct (ensure_plugins_items _ _ E3) as [_ A].
    destruct (opt_chain o3 plugins_path); discriminate.
  - exists items, named. split.
    + destruct (ensure_plugins_inv _ _ E3) as [[-> _] | [F W3]].
      * left. now rewrite <- P2.
      * right. rewrite <- P2. split; auto.
        rewrite (write_same plugins_path o2 (VArr [] []) o3) in P3;
          [| discriminate | reflexivity | exact W3].
        now inversion P3.
    + apply (write_same plugins_path o3); auto. discriminate.
Qed.

(** X12: running the injector again changes nothing: once a run that was
    asked to instrument has gone through, every later run, whatever it is
    asked, leaves the shared options exactly as they are. *)
Theorem injector_idempotent jestOptions can o io o' jestOptions' can' io' :
  instrument jestOptions && can = true ->
  insertInstrumentationOptions jestOptions can o io = (o', Ok tt) ->
  insertInstrumentationOptions jestOptions' can' o' io' = (o', Ok tt).
Proof.
  intros S H.
  assert (G : already_inserted o' = Ok true).
  { unfold insertInstrumentationOptions in H. rewrite S in H. simpl in H.
    destruct (already_inserted o) as [[|]|e] eqn:A.
    - now inversion H; subst.
    - destruct (injector_body_plugins _ _ _ H) as (items & named & B & P).
      unfold already_inserted. rewrite P.
      destruct (already_inserted_false_inv _ A)
        as [N | (items0 & named0 & P0 & S0 & F0)].
      + destruct B as [B | (_ & -> & ->)].
        * rewrite B in N. discriminate.
        * reflexivity.
      + destruct B as [B | (B & _ & _)].
        * rewrite P0 in B. inversion B; subst items0 named0.
          rewrite S0. now rewrite (some_app_false _ _ _ F0).
        * rewrite P0 in B. discriminate.
    - discriminate. }
  unfold insertInstrumentationOptions.
  destruct (negb (instrument jestOptions' && can')); auto.
  now rewrite G.
Qed.

Lemma injector_idempotent_witness :
  exists o',
    insertInstrumentationOptions (jest_options true false) true
      default_options (VObj []) = (o', Ok tt) /\
    o' <> default_options /\
    insertInstrumentationOptions (jest_options true true) true o'
      (VObj [("compact", VBool true)]) = (o', Ok tt).
Proof.
  eexists. split; [reflexivity|]. split; [discriminate|].
  apply (injector_idempotent (jest_options true false) true default_options
           (VObj [])); reflexivity.
Defined.

Lemma step_instrumentOptions t c :
  instrumentOptions (step t c) = instrumentOptions t.
Proof. now rewrite step_with_options. Qed.

(** One run of the injector keeps the plugin list or appends the
    descriptor to a list without coverage entry. *)
Lemma insertInstrumentationOptions_appends jestOptions can o io o' r :
  insertInstrumentationOptions jestOptions can o io = (o', r) ->
  plugin_items o' = plugin_items o \/
  (coverage_count o = 0 /\
   plugin_items o' = plugin_items o ++ [coverage_entry io]).
Proof.
  unfold insertInstrumentationOptions.
  destruct (negb (instrument jestOptions && can)).
  - intros H; inversion H. auto.
  - destruct (already_inserted o) as [[|]|e] eqn:G.
    + intros H; inversion H. auto.
    + intros H. destruct (injector_body_items _ _ _ _ H) as [[P | P] _]; auto.
      right. split; auto. now apply already_inserted_false.
    + intros H; inversion H. auto.
Qed.

Lemma after_items_fixed calls : forall t,
  1 <= coverage_count (computedSwcOptions t) ->
  plugin_items (computedSwcOptions (after t calls))
  = plugin_items (computedSwcOptions t).
Proof.
  induction calls as [|c calls IH]; intros t L; auto.
  rewrite after_cons.
  assert (E : plugin_items (computedSwcOptions (step t c))
              = plugin_items (computedSwcOptions t)).
  { rewrite step_computedSwcOptions.
    destruct (insertInstrumentationOptions (call_jestOptions c)
                (canInstrument t) (computedSwcOptions t)
                (instrumentOptions t)) as [o' r] eqn:I.
    destruct (insertInstrumentationOptions_appends _ _ _ _ _ _ I)
      as [P | [Z _]]; [exact P | lia]. }
  rewrite IH.
  - exact E.
  - unfold coverage_count in *. now rewrite E.
Qed.

(** X13: transform calls never remove or reorder plugins.  After any
    sequence of calls the plugin list is the list at setup, followed by
    nothing or by the one coverage descriptor, which carries the coverage
    options of the instance. *)
Theorem plugins_only_appended t calls :
  exists suffix,
    plugin_items (computedSwcOptions (after t calls))
    = plugin_items (computedSwcOptions t) ++ suffix /\
    (suffix = [] \/
     suffix = [VArr [VStr coverage_plugin;
                     coalesce (instrumentOptions t) (VObj [])] []]).
Proof.
  revert t. induction calls as [|c calls IH]; intros t.
  - exists []. split; auto. cbn [after fold_left]. now rewrite app_nil_r.
  - rewrite after_cons.
    destruct (insertInstrumentationOptions (call_jestOptions c)
                (canInstrument t) (computedSwcOptions t)
                (instrumentOptions t)) as [o' r] eqn:I.
    pose proof (step_computedSwcOptions t c) as S. rewrite I in S. simpl in S.
    destruct (insertInstrumentationOptions_appends _ _ _ _ _ _ I)
      as [P | [Z P]].
    + destruct (IH (step t c)) as (suffix & E & C).
      rewrite step_instrumentOptions in C.
      exists suffix. rewrite E, S, P. auto.
    + exists [coverage_entry (instrumentOptions t)]. split; [|now right].
      rewrite after_items_fixed.
      * now rewrite S.
      * rewrite S. rewrite (coverage_count_pushed _ _ _ P). lia.
Qed.

Lemma only_TypeError_names_coverage_plugin x :
  only_TypeError (names_coverage_plugin x).
Proof.
  unfold names_coverage_plugin.
  apply only_TypeError_bind; [apply only_TypeError_get_prop | intros v].
  apply only_TypeError_ok.
Qed.

Lemma only_TypeError_some items :
  only_TypeError (some names_coverage_plugin items).
Proof.
  induction items as [|x r IH]; simpl; [apply only_TypeError_ok|].
  apply only_TypeError_bind; [apply only_TypeError_names_coverage_plugin|].
  intros [|]; [apply only_TypeError_ok | exact IH].
Qed.

Lemma only_TypeError_already_inserted o : only_TypeError (already_inserted o).
Proof.
  unfold already_inserted. intros e H.
  destruct (opt_chain o plugins_path) as [| | | | |items named|];
    try (now inversion H).
  destruct (lookup "some" named); [now inversion H|].
  now apply (only_TypeError_some items).
Qed.

Lemma only_TypeError_write path : forall o x, only_TypeError (write o path x).
Proof.
  induction path as [|k rest IH]; intros o x; [apply only_TypeError_ok|].
  destruct rest as [|k' rest]; [apply only_TypeError_set_prop|].
  rewrite write_unfold.
  apply only_TypeError_bind; [apply only_TypeError_get_prop | intros c].
  apply only_TypeError_bind; [apply IH | intros c'].
  apply only_TypeError_set_prop.
Qed.

Lemma only_TypeError_push v x : only_TypeError (push v x).
Proof.
  intros e H. destruct v; simpl in H; try (now inversion H).
  destruct (lookup "push" named); now inversion H.
Qed.

Lemma only_TypeError_statement io st :
  In st (injector_body io) -> forall o, only_TypeError (st o).
Proof.
  intros Hst o. simpl in Hst. destruct Hst as [<- | [<- | [<- | [<- | []]]]].
  - unfold ensure_jsc.
    apply only_TypeError_bind; [apply only_TypeError_read | intros v].
    destruct (negb _); [apply only_TypeError_write | apply only_TypeError_ok].
  - unfold ensure_experimental.
    apply only_TypeError_bind; [apply only_TypeError_read | intros v].
    destruct (negb _); [apply only_TypeError_write | apply only_TypeError_ok].
  - unfold ensure_plugins.
    apply only_TypeError_bind; [apply only_TypeError_read | intros v].
    destruct (negb _); [apply only_TypeError_write | apply only_TypeError_ok].
  - unfold push_plugin.
    apply only_TypeError_bind; [apply only_TypeError_read | intros v].
    destruct (nullish v); [apply only_TypeError_ok|].
    apply only_TypeError_bind; [apply only_TypeError_push | intros p].
    apply only_TypeError_write.
Qed.

Lemma only_TypeError_run_statements body :
  (forall st, In st body -> forall o, only_TypeError (st o)) ->
  forall o, only_TypeError (snd (run_statements body o)).
Proof.
  induction body as [|st rest IH]; intros Hb o; simpl.
  - apply only_TypeError_ok.
  - destruct (st o) as [o1|e] eqn:E.
    + apply IH. intros s Hs. apply Hb. now right.
    + simpl. intros e' H. inversion H; subst e'.
      now apply (Hb st (or_introl eq_refl) o).
Qed.

(** A write that returned left objects all the way down to its place. *)
Lemma write_objects_along pre : forall o k x o',
  forallb is_name pre = true ->
  write o (pre ++ [k]) x = Ok o' -> objects_along o' pre = true.
Proof.
  induction pre as [|p pre IH]; intros o k x o' Hn W.
  - simpl in *. destruct (set_prop_object_like _ _ _ _ W) as [_ L].
    now rewrite L.
  - apply forallb_cons in Hn as [Hp Hn].
    assert (U : write o ((p :: pre) ++ [k]) x
                = (c <- get_prop o p ;;
                   c' <- write c (pre ++ [k]) x ;; set_prop o p c')).
    { simpl. destruct (pre ++ [k]) eqn:E; [destruct pre; discriminate|].
      reflexivity. }
    rewrite U in W. inv_bind W. inv_bind W.
    destruct (set_prop_object_like _ _ _ _ W) as [_ L].
    simpl. rewrite L, (prop_set_same _ _ _ _ Hp W). simpl.
    now apply (IH a k x).
Qed.

(** Once a statement of the injector has written, the statements after it
    go through. *)
Lemma push_after_write io o2 o3 :
  write o2 plugins_path (VArr [] []) = Ok o3 ->
  exists o4, push_plugin io o3 = Ok o4.
Proof.
  intros W.
  assert (A := write_objects_along ["jsc"; "experimental"] o2 "plugins"
                 (VArr [] []) o3 eq_refl W).
  assert (P := write_same plugins_path o2 (VArr [] []) o3
                 ltac:(discriminate) eq_refl W).
  unfold push_plugin.
  assert (R := read_returns ["jsc"; "experimental"] o3 "plugins" A).
  cbn [app] in R. fold plugins_path in R. rewrite R, P.
  cbn [bind nullish push lookup].
  destruct (write_returns ["jsc"; "experimental"] o3 "plugins"
              (VArr ([] ++ [VArr [VStr coverage_plugin;
                                  coalesce io (VObj [])] []]) [])
              eq_refl A) as (o4 & W4 & _).
  cbn [app] in W4. fold plugins_path in W4. cbn [app]. rewrite W4. eauto.
Qed.

Lemma plugins_after_write o1 o2 :
  write o1 ["jsc"; "experimental"] (VObj []) = Ok o2 ->
  exists o3,
    ensure_plugins o2 = Ok o3 /\ write o2 plugins_path (VArr [] []) = Ok o3.
Proof.
  intros W.
  assert (A := write_objects_along ["jsc"] o1 "experimental" (VObj []) o2
                 eq_refl W).
  assert (V := write_same ["jsc"; "experimental"] o1 (VObj []) o2
                 ltac:(discriminate) eq_refl W).
  assert (A2 : objects_along o2 ["jsc"; "experimental"] = true).
  { apply (objects_along_snoc ["jsc"] o2 "experimental" A).
    cbn [app]. now rewrite V. }
  assert (P : opt_chain o2 plugins_path = VUndef).
  { unfold plugins_path.
    change ["jsc"; "experimental"; "plugins"]
      with (["jsc"; "experimental"] ++ ["plugins"]).
    now rewrite opt_chain_app, V. }
  unfold ensure_plugins.
  assert (R := read_returns ["jsc"; "experimental"] o2 "plugins" A2).
  cbn [app] in R. fold plugins_path in R. rewrite R, P. cbn [bind isArray negb].
  destruct (write_returns ["jsc"; "experimental"] o2 "plugins" (VArr [] [])
              eq_refl A2) as (o3 & W3 & _).
  cbn [app] in W3. fold plugins_path in W3. eauto.
Qed.

Lemma experimental_after_write o o1 :
  set_prop o "jsc" (VObj []) = Ok o1 ->
  exists o2,
    ensure_experimental o1 = Ok o2 /\
    write o1 ["jsc"; "experimental"] (VObj []) = Ok o2.
Proof.
  intros W.
  destruct (set_prop_object_like _ _ _ _ W) as [_ L].
  assert (J := prop_set_same o "jsc" (VObj []) o1 eq_refl W).
  assert (A : objects_along o1 ["jsc"] = true).
  { simpl. now rewrite L, J. }
  unfold ensure_experimental.
  assert (R := read_returns ["jsc"] o1 "experimental" A).
  cbn [app] in R. rewrite R. cbn [opt_chain fold_left]. rewrite J.
  cbn [bind prop lookup or_undefined truthy negb].
  destruct (write_returns ["jsc"] o1 "experimental" (VObj []) eq_refl A)
    as (o2 & W2 & _).
  cbn [app] in W2. eauto.
Qed.

Lemma injector_body_atomic io o o' e :
  run_statements (injector_body io) o = (o', Throw e) -> o' = o.
Proof.
  unfold injector_body. cbn [run_statements].
  destruct (ensure_jsc o) as [o1|e1] eqn:E1; [| intros H; now inversion H].
  destruct (ensure_jsc_inv _ _ E1) as [Q1 | [_ W1]].
  - rewrite Q1 in *. clear Q1 E1.
    destruct (ensure_experimental o) as [o2|e2] eqn:E2;
      [| intros H; now inversion H].
    destruct (ensure_experimental_inv _ _ E2) as [Q2 | [_ W2]].
    + rewrite Q2 in *. clear Q2 E2.
      destruct (ensure_plugins o) as [o3|e3] eqn:E3;
        [| intros H; now inversion H].
      destruct (ensure_plugins_inv _ _ E3) as [[Q3 _] | [_ W3]].
      * rewrite Q3 in *. clear Q3 E3.
        destruct (push_plugin io o) as [o4|e4];
          intros H; now inversion H.
      * destruct (push_after_write io _ _ W3) as [o4 R4]. rewrite R4.
        discriminate.
    + destruct (plugins_after_write _ _ W2) as (o3 & R3 & W3). rewrite R3.
      destruct (push_after_write io _ _ W3) as [o4 R4]. rewrite R4.
      discriminate.
  - cbn [write] in W1.
    destruct (experimental_after_write _ _ W1) as (o2 & R2 & W2). rewrite R2.
    destruct (plugins_after_write _ _ W2) as (o3 & R3 & W3). rewrite R3.
    destruct (push_after_write io _ _ W3) as [o4 R4]. rewrite R4.
    discriminate.
Qed.

(** X14: the injector is all or nothing.  When it throws, what it throws
    is a [TypeError] and the shared options are exactly as they were; so a
    transform call that fails in the injector leaves the instance as it
    was. *)
Theorem injector_atomic jestOptions can o io o' e :
  insertInstrumentationOptions jestOptions can o io = (o', Throw e) ->
  e = TypeError /\ o' = o /\
  (forall t c,
      call_jestOptions c = jestOptions -> canInstrument t = can ->
      computedSwcOptions t = o -> instrumentOptions t = io ->
      step t c = t).
Proof.
  intros H.
  assert (E : e = TypeError).
  { unfold insertInstrumentationOptions in H.
    destruct (negb (instrument jestOptions && can)); [discriminate H|].
    destruct (already_inserted o) as [[|]|e0] eqn:A.
    - discriminate H.
    - apply (only_TypeError_run_statements (injector_body io)
               (only_TypeError_statement io) o).
      now rewrite H.
    - inversion H as [[Ho He]]. apply (only_TypeError_already_inserted o).
      now rewrite A, He. }
  assert (U : o' = o).
  { unfold insertInstrumentationOptions in H.
    destruct (negb (instrument jestOptions && can)); [now inversion H|].
    destruct (already_inserted o) as [[|]|e0].
    - now inversion H.
    - now apply (injector_body_atomic io o o' e).
    - now inversion H. }
  repeat split; auto.
  intros t c <- <- <- <-. rewrite step_with_options, H. simpl. subst o'.
  apply with_options_same.
Qed.

Lemma injector_atomic_witness :
  insertInstrumentationOptions (jest_options true false) true
    options_plugins_misplaced (VObj [])
  = (options_plugins_misplaced, Throw TypeError).
Proof.
  destruct (insertInstrumentationOptions (jest_options true false) true
              options_plugins_misplaced (VObj [])) as [o' [[]|e]] eqn:H.
  - vm_compute in H. discriminate H.
  - destruct (injector_atomic _ _ _ _ _ _ H) as (-> & -> & _). reflexivity.
Defined.

(* ================================================================== *)
(** * Further properties of the overlay and of the cache key *)
(* ================================================================== *)

Lemma lookup_spread k ps : forall acc,
  unique_keys ps = true ->
  lookup k (fold_left (fun a kv => assign (fst kv) (snd kv) a) ps acc)
  = match lookup k ps with
    | Some x => Some x
    | None => lookup k acc
    end.
Proof.
  induction ps as [|[k0 x0] r IH]; intros acc U; simpl; auto.
  simpl in U. apply andb_prop in U as [U0 U].
  rewrite (IH _ U).
  destruct (String.eqb k k0) eqn:E.
  - apply String.eqb_eq in E. subst k0.
    destruct (lookup k r); [discriminate|]. apply lookup_assign_same.
  - apply String.eqb_neq in E.
    destruct (lookup k r); auto. now apply lookup_assign_other.
Qed.

(** A named property is an own enumerable property. *)
Lemma prop_own_props v k :
  is_name k = true -> or_undefined (lookup k (own_props v)) = prop v k.
Proof.
  intros Hk. destruct v; simpl; auto.
  - rewrite (is_name_not_length _ Hk), (is_name_not_index _ Hk).
    now rewrite (lookup_indexed_name _ _ Hk).
  - rewrite (is_name_not_length _ Hk), (is_name_not_index _ Hk).
    now rewrite lookup_app, (lookup_indexed_name _ _ Hk).
Qed.

(** Beside [module] and [filename], the options object of a call holds
    what the shared options hold. *)
Lemma overlay_prop ps type filename options k :
  unique_keys ps = true ->
  overlay (VObj ps) type filename = Ok options ->
  k <> "module" -> k <> "filename" ->
  prop options k = prop (VObj ps) k.
Proof.
  intros U H N1 N2. unfold overlay in H. cbn [get_prop nullish bind] in H.
  inversion H; subst options; clear H. cbn [prop].
  rewrite !lookup_assign_other by assumption.
  unfold spread. cbn [own_props]. rewrite (lookup_spread k ps [] U).
  now destruct (lookup k ps).
Qed.

(** X15: the options object of a call carries everything the shared
    options hold: beside [module] and [filename] every property is the
    shared one, [filename] is the file name of the call, and beside [type]
    every named property of [module] is the shared one. *)
Theorem overlay_keeps_options ps type filename options :
  unique_keys ps = true ->
  unique_keys (own_props (prop (VObj ps) "module")) = true ->
  overlay (VObj ps) type filename = Ok options ->
  (forall k, k <> "module" -> k <> "filename" ->
             prop options k = prop (VObj ps) k) /\
  prop options "filename" = VStr filename /\
  (forall k, is_name k = true -> k <> "type" ->
             prop (prop options "module") k
             = prop (prop (VObj ps) "module") k).
Proof.
  intros U Um H. split.
  { intros k N1 N2. now apply (overlay_prop ps type filename). }
  cbn [prop] in Um.
  unfold overlay in H. cbn [get_prop nullish bind] in H.
  inversion H; subst options; clear H. split.
  - cbn [prop]. now rewrite lookup_assign_same.
  - intros k Hk N. cbn [prop].
    rewrite lookup_assign_other by discriminate.
    rewrite lookup_assign_same. cbn [or_undefined prop].
    rewrite lookup_assign_other by assumption.
    unfold spread. rewrite (lookup_spread k _ [] Um).
    rewrite <- (prop_own_props _ k Hk). cbn [prop].
    now destruct (lookup k (own_props (or_undefined (lookup "module" ps)))).
Qed.

Lemma overlay_keeps_options_witness :
  exists options,
    overlay options_module "commonjs" "a.ts" = Ok options /\
    opt_chain options ["module"; "type"] = VStr "commonjs" /\
    opt_chain options ["module"; "strict"] = VBool true /\
    opt_chain options ["jsc"; "target"] = VStr "es2016".
Proof.
  eexists. split; [reflexivity|]. split; [reflexivity|].
  match goal with
  | |- opt_chain ?o _ = _ /\ _ =>
      destruct (overlay_keeps_options _ "commonjs" "a.ts" o
                  (eq_refl : unique_keys
                               [("jsc", VObj [("target", VStr "es2016")]);
                                ("module",
                                 VObj [("type", VStr "amd");
                                       ("strict", VBool true)]);
                                ("sourceMaps", VStr "inline")] = true)
                  eq_refl eq_refl) as (K & _ & M)
  end.
  split.
  - cbn [opt_chain fold_left].
    now rewrite (M "strict" eq_refl ltac:(discriminate)).
  - cbn [opt_chain fold_left].
    now rewrite (K "jsc" ltac:(discriminate) ltac:(discriminate)).
Defined.

Lemma length_append a b :
  String.length (a +++ b) = String.length a + String.length b.
Proof. induction a as [|c a IH]; simpl; auto. Qed.

(** Two strings that end in suffixes of the same length. *)
Lemma append_suffix a : forall b s t,
  String.length s = String.length t -> a +++ s = b +++ t -> a = b /\ s = t.
Proof.
  induction a as [|c a IH]; intros [|d b] s t L H; simpl in *.
  - auto.
  - subst s. simpl in L. rewrite length_append in L. lia.
  - subst t. simpl in L. rewrite length_append in L. lia.
  - inversion H; subst d. destruct (IH b s t L) as [-> ->]; auto.
Qed.

Lemma key_material_injective base1 flag1 base2 flag2 :
  key_material base1 flag1 = key_material base2 flag2 ->
  base1 = base2 /\ flag1 = flag2.
Proof.
  unfold key_material.
  set (head := nul +++ "{" +++ dquote +++ "supportsStaticESM" +++ dquote
               +++ ":").
  assert (T : nul +++ flag_json true = head +++ "true}") by reflexivity.
  assert (F : nul +++ flag_json false = (head +++ "f") +++ "alse}")
    by reflexivity.
  destruct flag1, flag2; intros H.
  - apply append_suffix in H as [-> _]; auto.
  - exfalso. rewrite T, F, <- !append_assoc in H.
    apply append_suffix in H as [_ H]; [discriminate | reflexivity].
  - exfalso. rewrite T, F, <- !append_assoc in H.
    apply append_suffix in H as [_ H]; [discriminate | reflexivity].
  - apply append_suffix in H as [-> _]; auto.
Qed.

(** X16: [getCacheKey] returns the digest of bytes that tell the base key
    and the flag apart: two calls feed the same bytes to the hash only when
    they have the same base key and the same [supportsStaticESM]. *)
Theorem cache_key_material host t1 src1 filename1 rest1 t2 src2 filename2 rest2 :
  exists bytes1 bytes2,
    getCacheKey host t1 src1 filename1 rest1 = Ok (md5_hex host bytes1) /\
    getCacheKey host t2 src2 filename2 rest2 = Ok (md5_hex host bytes2) /\
    (bytes1 = bytes2 ->
     cacheKeyFunction t1 src1 filename1 rest1
     = cacheKeyFunction t2 src2 filename2 rest2 /\
     supportsStaticESM (call_options rest1)
     = supportsStaticESM (call_options rest2)).
Proof.
  eexists. eexists. split; [apply getCacheKey_digest|].
  split; [apply getCacheKey_digest|]. apply key_material_injective.
Qed.

(* ================================================================== *)
(** * Resolving resolved options *)
(* ================================================================== *)

Lemma assign_lookup_same k x ps : lookup k ps = Some x -> assign k x ps = ps.
Proof.
  induction ps as [|[k0 y] r IH]; simpl; [discriminate|].
  destruct (String.eqb k k0) eqn:E.
  - apply String.eqb_eq in E. subst k0. intros H. now inversion H.
  - intros H. now rewrite IH.
Qed.

Lemma or_undefined_some o x :
  or_undefined o = x -> nullish x = false -> o = Some x.
Proof. destruct o; simpl; intros <-; [auto | discriminate]. Qed.

(** Writing to a property the value it has changes nothing. *)
Lemma set_prop_same_value v k x :
  is_name k = true -> prop v k = x -> nullish x = false ->
  set_prop v k x = Ok v.
Proof.
  intros Hk P N. destruct v; simpl in P; try (subst x; discriminate).
  - rewrite (is_name_not_length _ Hk), (is_name_not_index _ Hk) in P.
    subst x. discriminate.
  - rewrite (is_name_not_length _ Hk), (is_name_not_index _ Hk) in P.
    simpl. now rewrite (assign_lookup_same _ _ _ (or_undefined_some _ _ P N)).
  - simpl. now rewrite (assign_lookup_same _ _ _ (or_undefined_some _ _ P N)).
Qed.

(** Only an object has something along a path of names. *)
Lemma name_chain_object c k q :
  is_name k = true -> nullish (opt_chain c (k :: q)) = false ->
  object_like c = true.
Proof.
  intros Hk N. destruct c; auto; exfalso; simpl in N;
    try (rewrite opt_chain_undefined in N; discriminate).
  rewrite (is_name_not_length _ Hk), (is_name_not_index _ Hk) in N.
  rewrite opt_chain_undefined in N. discriminate.
Qed.

(** [set] of the value that is there changes nothing. *)
Lemma set_from_idem parents : forall o key x,
  forallb is_name (parents ++ [key]) = true ->
  nullish x = false ->
  opt_chain o (parents ++ [key]) = x ->
  set_from o parents key x = Ok o.
Proof.
  induction parents as [|p rest IH]; intros o key x Hn N P.
  - simpl in Hn. rewrite andb_true_r in Hn. simpl in *.
    now apply set_prop_same_value.
  - cbn [app] in Hn, P. apply forallb_cons in Hn as [Hp Hn].
    assert (Lo : object_like o = true).
    { apply (name_chain_object o p (rest ++ [key]) Hp). now rewrite P. }
    assert (Nc : nullish (prop o p) = false).
    { destruct (nullish (prop o p)) eqn:E; auto.
      destruct (rest ++ [key]) as [|k q] eqn:R; [destruct rest; discriminate|].
      change (opt_chain (prop o p) (k :: q) = x) in P.
      rewrite (opt_chain_nullish _ _ _ E) in P. subst x. discriminate. }
    rewrite set_from_unfold.
    rewrite (get_prop_ok _ _ (object_like_not_nullish _ Lo)). cbn [bind].
    rewrite Nc. cbn [bind].
    rewrite (get_prop_ok _ _ (object_like_not_nullish _ Lo)). cbn [bind].
    rewrite (IH (prop o p) key x Hn N P). cbn [bind].
    now apply set_prop_same_value.
Qed.

Lemma remove_key_idem e ps : remove_key e (remove_key e ps) = remove_key e ps.
Proof.
  induction ps as [|[k y] r IH]; simpl; auto.
  destruct (String.eqb e k) eqn:E; auto. simpl. now rewrite E, IH.
Qed.

Lemma remove_key_assign e k x ps :
  k <> e -> remove_key e ps = ps -> remove_key e (assign k x ps) = assign k x ps.
Proof.
  intros N. assert (Ne : String.eqb e k = false).
  { apply String.eqb_neq. congruence. }
  induction ps as [|[k0 y] r IH]; simpl.
  - now rewrite Ne.
  - destruct (String.eqb e k0) eqn:E0.
    + intros H. exfalso.
      assert (L : lookup e (remove_key e r) = lookup e ((k0, y) :: r))
        by now rewrite H.
      rewrite lookup_remove_same in L. simpl in L. rewrite E0 in L.
      discriminate.
    + intros H. inversion H as [H']. rewrite H'.
      destruct (String.eqb k k0) eqn:E1; simpl.
      * now rewrite Ne, H'.
      * now rewrite E0, (IH H').
Qed.

(** [set] on an object leaves the keys it does not start from absent. *)
Lemma set_from_absent e parents ps key x ps' :
  hd key parents <> e ->
  remove_key e ps = ps ->
  set_from (VObj ps) parents key x = Ok (VObj ps') ->
  remove_key e ps' = ps'.
Proof.
  intros N A H. destruct parents as [|p rest]; simpl in N.
  - simpl in H. inversion H. now apply remove_key_assign.
  - rewrite set_from_unfold in H. inv_bind H. inv_bind H.
    rename a0 into o1, Ha0 into H1.
    assert (exists ps1, o1 = VObj ps1 /\ remove_key e ps1 = ps1)
      as (ps1 & -> & A1).
    { destruct (nullish a).
      - simpl in H1. inversion H1. eexists. split; eauto.
        now apply remove_key_assign.
      - inversion H1. eauto. }
    inv_bind H. inv_bind H. simpl in H. inversion H.
    now apply remove_key_assign.
Qed.

Lemma statement_absent (st : statement) e ps o' :
  (st (VObj ps) = Ok (VObj ps) \/
   exists parents key x,
     hd key parents <> e /\ st (VObj ps) = set_from (VObj ps) parents key x) ->
  remove_key e ps = ps ->
  st (VObj ps) = Ok o' ->
  exists ps', o' = VObj ps' /\ remove_key e ps' = ps'.
Proof.
  intros [S | (parents & key & x & N & S)] A H.
  - rewrite S in H. inversion H. eauto.
  - rewrite S in H.
    destruct (set_from_keeps_object _ _ _ _ _ H) as [ps' ->].
    exists ps'. split; auto. now apply (set_from_absent e parents ps key x).
Qed.

(** The resolved options are an object without [experimental] key. *)
Lemma buildSwcTransformOpts_rest host swcOptions o :
  buildSwcTransformOpts host swcOptions = Ok o ->
  object_rest "experimental" o = Ok o.
Proof.
  intros H.
  destruct (buildSwcTransformOpts_steps _ _ _ H)
    as (given & o0 & o1 & o2 & o3 & _ & H0 & H1 & H2 & H3 & H4).
  assert (exists p0, o0 = VObj p0 /\ remove_key "experimental" p0 = p0)
    as (p0 & -> & A0).
  { unfold object_rest in H0. destruct (nullish given); [discriminate|].
    inversion H0. eexists. split; eauto. apply remove_key_idem. }
  destruct (statement_absent default_target "experimental" p0 o1)
    as (p1 & -> & A1); auto.
  { unfold default_target. destruct (_ && _); auto.
    right. exists ["jsc"], "target", (VStr "es2016"). split; auto.
    discriminate. }
  destruct (statement_absent mark_jest "experimental" p1 o2)
    as (p2 & -> & A2); auto.
  { right. exists ["jsc"; "transform"; "hidden"], "jest", (VBool true).
    split; auto. discriminate. }
  destruct (statement_absent default_sourceMaps "experimental" p2 o3)
    as (p3 & -> & A3); auto.
  { unfold default_sourceMaps. destruct (negb _); auto.
    right. exists [], "sourceMaps", (VStr "inline"). split; auto.
    discriminate. }
  assert (exists p4, o = VObj p4 /\ remove_key "experimental" p4 = p4)
    as (p4 & -> & A4).
  { destruct (resolve_baseUrl_spec _ _ _ H4) as [[_ ->] | (s & _ & _ & W)];
      eauto.
    destruct (set_from_keeps_object _ _ _ _ _ W) as [p4 ->].
    exists p4. split; auto.
    apply (set_from_absent "experimental" ["jsc"] p3 "baseUrl"
             (VStr (path_resolve host s))); auto. discriminate. }
  unfold object_rest. simpl. now rewrite A4.
Qed.

(** X17: resolving is idempotent.  Where [path.resolve] leaves what it
    returned alone, as it does with the absolute paths it returns, the
    resolver maps options it has resolved to themselves. *)
Theorem resolver_idempotent host swcOptions o :
  (forall p, path_resolve host (path_resolve host p) = path_resolve host p) ->
  buildSwcTransformOpts host swcOptions = Ok o ->
  buildSwcTransformOpts host o = Ok o.
Proof.
  intros R H.
  pose proof (buildSwcTransformOpts_rest _ _ _ H) as H0'.
  destruct (buildSwcTransformOpts_object _ _ _ H) as [ps E].
  destruct (buildSwcTransformOpts_steps _ _ _ H)
    as (given & o0 & o1 & o2 & o3 & _ & H0 & H1 & H2 & H3 & H4).
  (* what the first pass left *)
  assert (M : opt_chain o marker_path = VBool true).
  { rewrite (resolve_baseUrl_frame _ _ _ H4) by reflexivity.
    destruct (default_sourceMaps_spec _ _ H3) as [_ F3].
    rewrite F3 by reflexivity. now destruct (mark_jest_spec _ _ H2). }
  assert (T : lacks_target o = false).
  { unfold lacks_target.
    change (prop o "env") with (opt_chain o ["env"]).
    rewrite (resolver_steps_frame host o0 o1 o2 o3 o ["env"])
      by (assumption || reflexivity).
    rewrite (resolve_baseUrl_frame _ _ _ H4 target_path) by reflexivity.
    destruct (default_sourceMaps_spec _ _ H3) as [_ F3].
    rewrite (F3 target_path) by reflexivity.
    destruct (mark_jest_spec _ _ H2) as [_ F2].
    rewrite (F2 target_path) by reflexivity.
    destruct (default_target_spec _ _ H1) as [T1 _]. rewrite T1.
    destruct (lacks_target o0) eqn:L0.
    - simpl. apply andb_false_r.
    - exact L0. }
  assert (S : truthy (prop o "sourceMaps") = true).
  { change (prop o "sourceMaps") with (opt_chain o ["sourceMaps"]).
    rewrite (resolve_baseUrl_frame _ _ _ H4) by reflexivity.
    destruct (default_sourceMaps_spec _ _ H3) as [S3 _].
    change (opt_chain o3 ["sourceMaps"]) with (prop o3 "sourceMaps").
    rewrite S3. now destruct (truthy (prop o2 "sourceMaps")) eqn:S2. }
  assert (B : truthy (opt_chain o baseUrl_path) = false \/
              exists s, opt_chain o baseUrl_path = VStr (path_resolve host s)).
  { destruct (resolve_baseUrl_spec _ _ _ H4) as [[B ->] | (s & _ & _ & W)];
      auto.
    right. exists s. now apply (set_from_same ["jsc"] o3 "baseUrl"). }
  (* the second pass *)
  assert (To : truthy o = true) by now rewrite E.
  unfold buildSwcTransformOpts, given_options. rewrite To. cbn [bind].
  rewrite H0'. cbn [bind].
  assert (D1 : default_target o = Ok o).
  { unfold default_target. fold target_path. fold (lacks_target o).
    now rewrite T. }
  rewrite D1. cbn [bind].
  assert (D2 : mark_jest o = Ok o).
  { unfold mark_jest. rewrite set_marker.
    apply set_from_idem; [reflexivity | reflexivity | exact M]. }
  rewrite D2. cbn [bind].
  assert (D3 : default_sourceMaps o = Ok o).
  { unfold default_sourceMaps. now rewrite S. }
  rewrite D3. cbn [bind].
  assert (D4 : resolve_baseUrl host o = Ok o).
  { unfold resolve_baseUrl. fold baseUrl_path.
    destruct B as [B | [s B]]; [now rewrite B|].
    destruct (truthy (opt_chain o baseUrl_path)) eqn:Tb; auto.
    assert (A : objects_along o ["jsc"] = true).
    { simpl. rewrite E at 1. cbn [object_like andb].
      rewrite (name_chain_object (prop o "jsc") "transform"
                 ["hidden"; "jest"] eq_refl); auto.
      change (opt_chain (prop o "jsc") ["transform"; "hidden"; "jest"])
        with (opt_chain o marker_path).
      now rewrite M. }
    assert (Rd := read_returns ["jsc"] o "baseUrl" A). cbn [app] in Rd.
    fold baseUrl_path in Rd. rewrite Rd, B. cbn [bind resolve].
    rewrite R, set_baseUrl.
    apply set_from_idem; [reflexivity | reflexivity | exact B]. }
  now rewrite D4.
Qed.

Lemma resolver_idempotent_witness :
  exists o,
    buildSwcTransformOpts absolute_host options_baseUrl = Ok o /\
    o <> options_baseUrl /\
    buildSwcTransformOpts absolute_host o = Ok o.
Proof.
  eexists. split; [reflexivity|]. split; [discriminate|].
  apply (resolver_idempotent absolute_host options_baseUrl); [|reflexivity].
  intros p. simpl. destruct p as [|c p]; [reflexivity|].
  destruct c as [[] [] [] [] [] [] [] []]; reflexivity.
Defined.

(* ================================================================== *)
(** * From setup to the compiler *)
(* ================================================================== *)

Lemma assign_unique k x ps :
  unique_keys ps = true -> unique_keys (assign k x ps) = true.
Proof.
  induction ps as [|[k0 y] r IH]; intros U; simpl; auto.
  simpl in U. apply andb_prop in U as [U0 U].
  destruct (String.eqb k k0) eqn:E.
  - apply String.eqb_eq in E. subst k0. simpl. now rewrite U0, U.
  - apply String.eqb_neq in E. simpl.
    rewrite lookup_assign_other by congruence. now rewrite U0, IH.
Qed.

Lemma write_top ps k rest x o' :
  write (VObj ps) (k :: rest) x = Ok o' ->
  exists c, o' = VObj (assign k c ps).
Proof.
  destruct rest as [|k' rest]; intros H.
  - simpl in H. inversion H. eauto.
  - rewrite write_unfold in H. inv_bind H. inv_bind H.
    simpl in H. inversion H. eauto.
Qed.

Lemma run_statements_invariant (P : value -> Prop) body :
  (forall st, In st body -> forall o o', P o -> st o = Ok o' -> P o') ->
  forall o o' r, P o -> run_statements body o = (o', r) -> P o'.
Proof.
  induction body as [|st rest IH]; intros Hb o o' r Po H; simpl in H.
  - now inversion H; subst.
  - destruct (st o) as [o1|e] eqn:E.
    + apply (IH (fun s Hs => Hb s (or_intror Hs)) o1 o' r); auto.
      now apply (Hb st (or_introl eq_refl) o o1).
    + now inversion H; subst.
Qed.

(** The injector keeps the shared options an object whose keys are
    unique. *)
Lemma insertInstrumentationOptions_unique jestOptions can ps io o' r :
  unique_keys ps = true ->
  insertInstrumentationOptions jestOptions can (VObj ps) io = (o', r) ->
  exists ps', o' = VObj ps' /\ unique_keys ps' = true.
Proof.
  intros U. unfold insertInstrumentationOptions.
  destruct (negb (instrument jestOptions && can));
    [intros H; inversion H; eauto|].
  destruct (already_inserted (VObj ps)) as [[|]|e];
    try (intros H; inversion H; eauto; fail).
  apply (run_statements_invariant
           (fun o => exists qs, o = VObj qs /\ unique_keys qs = true));
    [|eauto].
  intros st Hst o o1 (qs & -> & Uq) H.
  assert (W : o1 = VObj qs \/
              exists path x, write (VObj qs) ("jsc" :: path) x = Ok o1).
  { simpl in Hst. destruct Hst as [<- | [<- | [<- | [<- | []]]]].
    - destruct (ensure_jsc_inv _ _ H) as [-> | [_ W]]; auto.
      right. now exists [], (VObj []).
    - destruct (ensure_experimental_inv _ _ H) as [-> | [_ W]]; eauto.
    - destruct (ensure_plugins_inv _ _ H) as [[-> _] | [_ W]]; eauto.
    - destruct (push_plugin_inv _ _ _ H)
        as [[-> _] | (items & named & _ & W)]; eauto. }
  destruct W as [-> | (path & x & W)]; [eauto|].
  destruct (write_top _ _ _ _ _ W) as [c ->].
  eexists. split; eauto. now apply assign_unique.
Qed.

Lemma injector_body_shape io o o' :
  run_statements (injector_body io) o = (o', Ok tt) ->
  objects_along o' ["jsc"; "experimental"] = true.
Proof.
  unfold injector_body. cbn [run_statements].
  destruct (ensure_jsc o) as [o1|e1] eqn:E1; [|discriminate].
  destruct (ensure_experimental o1) as [o2|e2] eqn:E2; [|discriminate].
  destruct (ensure_plugins o2) as [o3|e3] eqn:E3; [|discriminate].
  destruct (push_plugin io o3) as [o4|e4] eqn:E4; [|discriminate].
  intros H. inversion H; subst o4; clear H.
  destruct (push_plugin_inv _ _ _ E4) as [[_ N] | (items & named & P3 & W)].
  - destruct (ensure_plugins_items _ _ E3) as [_ A].
    destruct (opt_chain o3 plugins_path); discriminate.
  - now apply (write_objects_along ["jsc"; "experimental"] o3 "plugins"
                 (VArr (items ++ [coverage_entry io]) named)).
Qed.

Lemma injectable_of_shape o :
  objects_along o ["jsc"; "experimental"] = true ->
  plugin_list_ok (opt_chain o plugins_path) = true ->
  injectable o = true.
Proof.
  intros A P. unfold injectable. props. simpl in A.
  apply andb_prop in A as [Lo A]. apply andb_prop in A as [Lj A].
  apply andb_prop in A as [Le _].
  rewrite Lo, Lj, Le, P. simpl. now rewrite !orb_true_r.
Qed.

(** The injector leaves options on which it does not throw such
    options. *)
Lemma insertInstrumentationOptions_injectable jestOptions can o io o' r :
  injectable o = true ->
  insertInstrumentationOptions jestOptions can o io = (o', r) ->
  injectable o' = true.
Proof.
  intros I H. pose proof H as H'. unfold insertInstrumentationOptions in H.
  destruct (negb (instrument jestOptions && can));
    [now inversion H; subst|].
  destruct (already_inserted o) as [[|]|e] eqn:G;
    try (now inversion H; subst).
  destruct r as [[]|e].
  - apply injectable_of_shape; [now apply (injector_body_shape io o)|].
    destruct (injector_body_plugins _ _ _ H) as (items & named & B & ->).
    assert (K : forallb (fun x => negb (nullish x)) items = true /\
                lookup "some" named = None /\ lookup "push" named = None).
    { destruct B as [B | (_ & -> & ->)]; [|auto].
      destruct (injectable_plugins o I) as [V | V]; rewrite B in V;
        [discriminate|].
      destruct (plugin_list_ok_inv _ V)
        as [N | (i & n & E & Fi & S & P)]; [discriminate|].
      inversion E; subst. auto. }
    destruct K as (Fi & S & P). simpl. unfold has_own.
    rewrite forallb_app, Fi, S, P. reflexivity.
  - now rewrite (injector_body_atomic io o o' e H).
Qed.

Lemma after_injectable calls : forall t,
  injectable (computedSwcOptions t) = true ->
  injectable (computedSwcOptions (after t calls)) = true.
Proof.
  induction calls as [|c calls IH]; intros t I; auto.
  rewrite after_cons. apply IH. rewrite step_computedSwcOptions.
  destruct (insertInstrumentationOptions (call_jestOptions c)
              (canInstrument t) (computedSwcOptions t)
              (instrumentOptions t)) as [o' r] eqn:E.
  now apply (insertInstrumentationOptions_injectable _ _ _ _ _ _ I E).
Qed.

(** The resolver makes of options with a typed plugin list options on
    which the injector does not throw. *)
Lemma resolved_injectable host swcOptions given o :
  given_options host swcOptions = Ok given ->
  plugins_typed given = true ->
  buildSwcTransformOpts host swcOptions = Ok o ->
  injectable o = true.
Proof.
  intros Hg T H.
  destruct (buildSwcTransformOpts_object _ _ _ H) as [ps E].
  assert (M : opt_chain o marker_path = VBool true).
  { destruct (buildSwcTransformOpts_steps _ _ _ H)
      as (g & o0 & o1 & o2 & o3 & _ & _ & _ & H2 & H3 & H4).
    rewrite (resolve_baseUrl_frame _ _ _ H4) by reflexivity.
    destruct (default_sourceMaps_spec _ _ H3) as [_ F3].
    rewrite F3 by reflexivity. now destruct (mark_jest_spec _ _ H2). }
  assert (Lj : object_like (prop o "jsc") = true).
  { apply (name_chain_object (prop o "jsc") "transform" ["hidden"; "jest"]
             eq_refl).
    change (opt_chain (prop o "jsc") ["transform"; "hidden"; "jest"])
      with (opt_chain o marker_path). now rewrite M. }
  assert (F : forall q,
               opt_chain o ("jsc" :: "experimental" :: q)
               = opt_chain given ("jsc" :: "experimental" :: q)).
  { intros q.
    destruct (buildSwcTransformOpts_steps _ _ _ H)
      as (g & o0 & o1 & o2 & o3 & Hg' & H0 & H1 & H2 & H3 & H4).
    rewrite Hg in Hg'. inversion Hg'; subst g; clear Hg'.
    rewrite (resolver_steps_frame host o0 o1 o2 o3 o
               ("jsc" :: "experimental" :: q)) by auto.
    apply (opt_chain_object_rest _ _ _ "jsc" ("experimental" :: q) H0);
      [discriminate | reflexivity]. }
  pose proof (F []) as Fe. pose proof (F ["plugins"]) as Fp.
  fold plugins_path in Fp.
  unfold injectable. rewrite Fe, Fp, Lj. unfold plugins_typed in T.
  rewrite T. rewrite E at 1. simpl. apply orb_true_r.
Qed.

(** X18: when a capable instance is asked for coverage, the options that
    reach the compiler list the coverage plugin, for the synchronous and for
    the asynchronous transform, provided the shared options have the shape of
    swc's [Options]. *)
Theorem coverage_reaches_compiler t ps filename jestOptions :
  computedSwcOptions t = VObj ps ->
  unique_keys ps = true ->
  injectable (VObj ps) = true ->
  canInstrument t = true ->
  instrument jestOptions = true ->
  (exists options,
      snd (process_options t filename jestOptions) = Ok options /\
      1 <= coverage_count options) /\
  (exists options,
      snd (processAsync_options t filename jestOptions) = Ok options /\
      1 <= coverage_count options).
Proof.
  intros E U I C J.
  unfold process_options, processAsync_options. rewrite E, C.
  destruct (insertInstrumentationOptions jestOptions true (VObj ps)
              (instrumentOptions t)) as [o' r] eqn:H.
  pose proof (insertInstrumentationOptions_returns jestOptions true (VObj ps)
                (instrumentOptions t) I) as R.
  rewrite H in R. simpl in R. subst r.
  destruct (insertInstrumentationOptions_unique _ _ _ _ _ _ U H)
    as (ps' & -> & U').
  assert (L : 1 <= coverage_count (VObj ps')).
  { apply (insertInstrumentationOptions_inserted jestOptions true (VObj ps)
             (instrumentOptions t)); auto. now rewrite J. }
  assert (K : forall type options,
             overlay (VObj ps') type filename = Ok options ->
             coverage_count options = coverage_count (VObj ps')).
  { intros type options O. unfold coverage_count, plugin_items. props.
    now rewrite (overlay_prop ps' type filename options "jsc" U' O)
      by discriminate. }
  cbn [snd bind]. split.
  - destruct (overlay_module_type ps'
                (if supportsStaticESM jestOptions then "es6" else "commonjs")
                filename) as (ov & O & _).
    exists ov. split; auto. now rewrite (K _ _ O).
  - destruct (overlay_module_type ps' "es6" filename) as (ov & O & _).
    exists ov. split; auto. now rewrite (K _ _ O).
Qed.

Lemma coverage_reaches_compiler_witness :
  exists t,
    createTransformer example_host options_with_plugin = Ok t /\
    coverage_count (computedSwcOptions t) = 0 /\
    exists options,
      snd (process_options t "a.ts" (jest_options true false)) = Ok options /\
      1 <= coverage_count options.
Proof.
  eexists. split; [reflexivity|]. split; [reflexivity|].
  match goal with
  | |- exists options, snd (process_options ?t _ _) = _ /\ _ =>
      destruct (coverage_reaches_compiler t _ "a.ts" (jest_options true false)
                  eq_refl eq_refl eq_refl eq_refl eq_refl)
        as [(options & O & L) _]
  end.
  exists options. split; assumption.
Defined.

(** X19: with setup options whose plugin list has the shape of swc's
    [Options], no transform call ever fails before it reaches the compiler:
    after any sequence of calls the injector returns and the options object of
    the call is built. *)
Theorem calls_reach_compiler host input given t calls filename jestOptions :
  given_options host input = Ok given ->
  plugins_typed given = true ->
  createTransformer host input = Ok t ->
  snd (insertInstrumentationOptions jestOptions (canInstrument (after t calls))
         (computedSwcOptions (after t calls))
         (instrumentOptions (after t calls))) = Ok tt /\
  (exists options,
      snd (process_options (after t calls) filename jestOptions) = Ok options) /\
  (exists options,
      snd (processAsync_options (after t calls) filename jestOptions)
      = Ok options).
Proof.
  intros Hg T H.
  destruct (createTransformer_inv _ _ _ H) as (c & B & E & _).
  assert (I : injectable (computedSwcOptions (after t calls)) = true).
  { apply after_injectable. rewrite E.
    now apply (resolved_injectable host input given). }
  destruct (createTransformer_object _ _ _ H) as [ps0 E0].
  destruct (after_keeps_object calls t ps0 E0) as [ps Ea].
  pose proof (insertInstrumentationOptions_returns jestOptions
                (canInstrument (after t calls)) _
                (instrumentOptions (after t calls)) I) as R.
  split; [exact R|].
  unfold process_options, processAsync_options.
  destruct (insertInstrumentationOptions jestOptions
              (canInstrument (after t calls))
              (computedSwcOptions (after t calls))
              (instrumentOptions (after t calls))) as [o' r] eqn:J.
  simpl in R. subst r. rewrite Ea in J.
  destruct (insertInstrumentationOptions_keeps_object _ _ _ _ _ _ J)
    as [ps' ->].
  cbn [snd bind]. split.
  - destruct (overlay_module_type ps'
                (if supportsStaticESM jestOptions then "es6" else "commonjs")
                filename) as (ov & O & _). eauto.
  - destruct (overlay_module_type ps' "es6" filename) as (ov & O & _). eauto.
Qed.

Lemma calls_reach_compiler_witness :
  exists t,
    createTransformer example_host options_with_plugin = Ok t /\
    exists options,
      snd (process_options
             (after t [Async "export {}" "a.ts" (jest_options true true)])
             "b.ts" (jest_options true false)) = Ok options.
Proof.
  eexists. split; [reflexivity|].
  match goal with
  | |- exists options, snd (process_options (after ?t _) _ _) = _ =>
      destruct (calls_reach_compiler example_host options_with_plugin
                  options_with_plugin t
                  [Async "export {}" "a.ts" (jest_options true true)]
                  "b.ts" (jest_options true false) eq_refl eq_refl eq_refl)
        as (_ & (options & O) & _)
  end.
  exists options. exact O.
Defined.

(* ================================================================== *)
(** * [set] on shared objects *)
(* ================================================================== *)

(** ** The heap *)

Lemma store_at_length l o : forall h,
  List.length (Store.store_at l o h) = List.length h.
Proof.
  induction l as [|l IH]; intros [|x r]; simpl; auto.
Qed.

Lemma store_at_same o : forall l h,
  l < List.length h -> nth_error (Store.store_at l o h) l = Some o.
Proof.
  induction l as [|l IH]; intros [|x r] L; simpl in *; try lia; auto.
  apply IH. lia.
Qed.

Lemma store_at_other o l' : forall l h,
  l' <> l -> nth_error (Store.store_at l o h) l' = nth_error h l'.
Proof.
  revert l'. intros l' l. revert l'.
  induction l as [|l IH]; intros l' [|x r] N; simpl; auto.
  - destruct l'; [congruence | reflexivity].
  - destruct l'; [reflexivity|]. simpl. apply IH. congruence.
Qed.

Lemma store_lookup_assign_same k x : forall ps,
  Store.lookup k (Store.assign k x ps) = Some x.
Proof.
  induction ps as [|[k' y] r IH]; simpl.
  - now rewrite String.eqb_refl.
  - destruct (String.eqb k k') eqn:E; simpl.
    + now rewrite String.eqb_refl.
    + now rewrite E.
Qed.

Lemma store_lookup_assign_other k k' x : forall ps,
  k' <> k -> Store.lookup k' (Store.assign k x ps) = Store.lookup k' ps.
Proof.
  intros ps N. induction ps as [|[k0 y] r IH]; simpl.
  - apply String.eqb_neq in N. now rewrite N.
  - destruct (String.eqb k k0) eqn:E; simpl.
    + apply String.eqb_eq in E. subst k0.
      apply String.eqb_neq in N. now rewrite N.
    + now rewrite IH.
Qed.

Lemma store_lookup_remove_other k k' : forall ps,
  k' <> k -> Store.lookup k' (Store.remove_key k ps) = Store.lookup k' ps.
Proof.
  intros ps N. induction ps as [|[k0 y] r IH]; simpl; auto.
  destruct (String.eqb k k0) eqn:E; simpl.
  - apply String.eqb_eq in E. subst k0.
    apply String.eqb_neq in N. now rewrite N.
  - now rewrite IH.
Qed.

Lemma store_lookup_remove_same k : forall ps,
  Store.lookup k (Store.remove_key k ps) = None.
Proof.
  induction ps as [|[k0 y] r IH]; simpl; auto.
  destruct (String.eqb k k0) eqn:E; simpl; auto. now rewrite E.
Qed.

Lemma field_old h extra l k :
  l < List.length h -> Store.field (h ++ extra) l k = Store.field h l k.
Proof. intros L. unfold Store.field. now rewrite nth_error_app1. Qed.

Lemma is_plain_old h extra l :
  l < List.length h -> Store.is_plain (h ++ extra) l = Store.is_plain h l.
Proof. intros L. unfold Store.is_plain. now rewrite nth_error_app1. Qed.

Lemma field_new h o k :
  Store.field (h ++ [o]) (List.length h) k = Store.lookup k (Store.own o).
Proof.
  unfold Store.field. rewrite nth_error_app2 by lia.
  now rewrite Nat.sub_diag.
Qed.

Lemma is_plain_new h o :
  Store.is_plain (h ++ [o]) (List.length h) = Store.plain o.
Proof.
  unfold Store.is_plain. rewrite nth_error_app2 by lia.
  now rewrite Nat.sub_diag.
Qed.

Lemma is_plain_bound h l : Store.is_plain h l = true -> l < List.length h.
Proof.
  unfold Store.is_plain. destruct (nth_error h l) eqn:E; [|discriminate].
  intros _. apply nth_error_Some. congruence.
Qed.

Lemma field_bound h l k x : Store.field h l k = Some x -> l < List.length h.
Proof.
  unfold Store.field. destruct (nth_error h l) eqn:E; [|discriminate].
  intros _. apply nth_error_Some. congruence.
Qed.

(** ** What changes *)

Lemma changes_only_refl c h : Store.changes_only c h h.
Proof. split; [lia|]. intros l _. split; auto. Qed.

Lemma changes_where_refl P h : Store.changes_where P h h.
Proof. split; [lia|]. intros l _. split; auto. Qed.

Lemma changes_where_trans P h1 h2 h3 :
  Store.changes_where P h1 h2 -> Store.changes_where P h2 h3 ->
  Store.changes_where P h1 h3.
Proof.
  intros [L1 C1] [L2 C2]. split; [lia|]. intros l L.
  destruct (C1 l L) as [P1 F1]. destruct (C2 l ltac:(lia)) as [P2 F2].
  split; [congruence|]. intros k.
  destruct (F1 k) as [I | E1]; auto.
  destruct (F2 k) as [I | E2]; auto. right. congruence.
Qed.

Lemma changes_where_more (P Q : nat -> string -> Prop) h h' :
  (forall l k, l < List.length h -> P l k -> Q l k) ->
  Store.changes_where P h h' -> Store.changes_where Q h h'.
Proof.
  intros S [L C]. split; auto. intros l Ll.
  destruct (C l Ll) as [Pl F]. split; auto.
  intros k. destruct (F k); auto.
Qed.

(** A new object changes nothing that was there. *)
Lemma changes_alloc P h o : Store.changes_where P h (h ++ [o]).
Proof.
  split; [rewrite length_app; simpl; lia|]. intros l L. split.
  - now apply is_plain_old.
  - intros k. right. now apply field_old.
Qed.

(** ** Reads and writes *)

Lemma get_inv v k h c h' :
  Store.get v k h = Store.Returns c h' ->
  h' = h /\
  exists l, v = Store.SRef l /\ Store.is_plain h l = true /\
            (Store.field h l k = Some c \/
             Store.field h l k = None /\ c = Store.SUndef /\
             Store.inherited k = false).
Proof.
  unfold Store.get.
  destruct v; try discriminate.
  destruct (nth_error h l) as [o|] eqn:E; [|discriminate].
  destruct (Store.plain o) eqn:P; [|discriminate].
  destruct (Store.lookup k (Store.own o)) as [x|] eqn:Lk.
  - intros H. inversion H; subst. split; [reflexivity|]. exists l.
    unfold Store.is_plain, Store.field. rewrite E. repeat split; auto.
  - destruct (Store.inherited k) eqn:I; [discriminate|].
    intros H. inversion H; subst. split; [reflexivity|]. exists l.
    unfold Store.is_plain, Store.field. rewrite E. repeat split; auto.
Qed.


Lemma get_field h l k c :
  Store.is_plain h l = true -> Store.field h l k = Some c ->
  Store.get (Store.SRef l) k h = Store.Returns c h.
Proof.
  unfold Store.get, Store.is_plain, Store.field.
  destruct (nth_error h l) as [o|]; [|discriminate].
  now intros -> ->.
Qed.

Lemma get_missing h l k :
  Store.is_plain h l = true -> Store.field h l k = None ->
  Store.inherited k = false ->
  Store.get (Store.SRef l) k h = Store.Returns Store.SUndef h.
Proof.
  unfold Store.get, Store.is_plain, Store.field.
  destruct (nth_error h l) as [o|]; [|discriminate].
  now intros -> -> ->.
Qed.

(** An assignment changes at most the property it names. *)
Lemma put_changes v k x h h' :
  Store.put v k x h = Store.Returns tt h' ->
  Store.changes_only
    (match v with Store.SRef l => Some (l, k) | _ => None end) h h'.
Proof.
  unfold Store.put. destruct v;
    try discriminate;
    try (destruct (String.eqb k "__proto__"); [|discriminate];
         intros H; inversion H; apply changes_only_refl).
  destruct (nth_error h l) as [o|] eqn:E; [|discriminate].
  destruct (Store.plain o) eqn:P; [|discriminate].
  assert (W : Store.changes_only (Some (l, k)) h
                (Store.store_at l
                   {| Store.plain := true;
                      Store.own := Store.assign k x (Store.own o) |} h)).
  { split; [now rewrite store_at_length|]. intros l' L'.
    unfold Store.is_plain, Store.field.
    destruct (Nat.eq_dec l' l) as [-> | N].
    - rewrite store_at_same by assumption. rewrite E. simpl. split; auto.
      intros k'. destruct (String.eqb_spec k' k) as [-> | Nk]; auto.
      right. now apply store_lookup_assign_other.
    - rewrite store_at_other by assumption. split; auto. }
  destruct (Store.lookup k (Store.own o)) eqn:Lk.
  - intros H. inversion H; subst. exact W.
  - destruct (String.eqb k "__proto__").
    + destruct x; try discriminate;
        intros H; inversion H; apply changes_only_refl.
    + intros H. inversion H; subst. exact W.
Qed.


(** ** Runs of the monad *)

Lemma store_bind_returns {A B} (c : Store.M A) (k : A -> Store.M B) h b h' :
  Store.bind c k h = Store.Returns b h' ->
  exists a h1, c h = Store.Returns a h1 /\ k a h1 = Store.Returns b h'.
Proof.
  unfold Store.bind. destruct (c h); try discriminate. eauto.
Qed.


Ltac run_bind H :=
  let a := fresh "a" in
  let h1 := fresh "h" in
  let Ha := fresh "Ha" in
  apply store_bind_returns in H as (a & h1 & Ha & H).

Lemma set_from_unfold_store o p rest key x :
  Store.set_from o (p :: rest) key x =
  Store.bind (Store.get o p) (fun c =>
  Store.bind (if Store.nullish c
              then Store.bind Store.new_object
                     (fun fresh => Store.put o p fresh)
              else Store.ret tt) (fun _ =>
  Store.bind (Store.get o p) (fun o' =>
  Store.set_from o' rest key x))).
Proof. reflexivity. Qed.

Lemma inherited_proto k :
  Store.inherited k = false -> String.eqb k "__proto__" = false.
Proof.
  intros I. destruct (String.eqb_spec k "__proto__") as [-> | N];
    [discriminate I | reflexivity].
Qed.

(** On a plain object an assignment that does not go to the setter of
    [__proto__] returns, and the property then holds what was assigned. *)
Lemma put_plain h l k x :
  Store.is_plain h l = true -> String.eqb k "__proto__" = false ->
  exists h', Store.put (Store.SRef l) k x h = Store.Returns tt h' /\
             Store.field h' l k = Some x /\ Store.is_plain h' l = true.
Proof.
  intros P N. pose proof (is_plain_bound _ _ P) as L.
  unfold Store.put, Store.is_plain, Store.field in *.
  destruct (nth_error h l) as [o|] eqn:E; [|discriminate]. rewrite P, N.
  eexists. split.
  - destruct (Store.lookup k (Store.own o)); reflexivity.
  - rewrite store_at_same by assumption. simpl.
    now rewrite store_lookup_assign_same.
Qed.

(** ** Where [set] writes *)

Lemma landing_empty h f rest key :
  (forall k, Store.field h f k = None) ->
  exists k0, Store.landing h (Store.SRef f) rest key = Some (f, k0).
Proof.
  intros E. destruct rest as [|p rest]; simpl; eauto.
  rewrite E. eauto.
Qed.

(** The first step of the loop of [set] on a run that goes on: the object
    is plain; either the property is set and the walk goes on in what it
    holds, with the heap as it was, or a new empty object was put there. *)
Lemma set_step o p h c h1 (u : unit) h2 o' h3 :
  Store.get o p h = Store.Returns c h1 ->
  (if Store.nullish c
   then Store.bind Store.new_object (fun fresh => Store.put o p fresh)
   else Store.ret tt) h1 = Store.Returns u h2 ->
  Store.get o p h2 = Store.Returns o' h3 ->
  exists l,
    o = Store.SRef l /\ Store.is_plain h l = true /\ h1 = h /\ h3 = h2 /\
    ((Store.field h l p = Some c /\ Store.nullish c = false /\
      h2 = h /\ o' = c) \/
     (Store.landing h o [p] p = Some (l, p) /\
      (forall rest key, Store.landing h o (p :: rest) key = Some (l, p)) /\
      (forall rest, Store.trail h o (p :: rest) = []) /\
      o' = Store.SRef (List.length h) /\
      Store.changes_only (Some (l, p)) h h2 /\
      Store.is_plain h2 (List.length h) = true /\
      List.length h < List.length h2 /\
      (forall k, Store.field h2 (List.length h) k = None))).
Proof.
  intros G1 S G2. destruct u.
  destruct (get_inv _ _ _ _ _ G1) as (-> & l & -> & P & F).
  destruct (get_inv _ _ _ _ _ G2) as (-> & l2 & E2 & P2 & F2).
  inversion E2; subst l2; clear E2.
  exists l. repeat split; auto.
  destruct (Store.nullish c) eqn:N.
  - right.
    assert (Lp : forall rest key,
               Store.landing h (Store.SRef l) (p :: rest) key = Some (l, p)).
    { intros rest key. simpl.
      destruct F as [F | (F & _ & _)]; rewrite F; [now rewrite N | reflexivity]. }
    assert (Tp : forall rest, Store.trail h (Store.SRef l) (p :: rest) = []).
    { intros rest. simpl.
      destruct F as [F | (F & _ & _)]; rewrite F; [now rewrite N | reflexivity]. }
    apply store_bind_returns in S as (fresh & ha & A & W).
    unfold Store.new_object in A. inversion A; subst fresh ha; clear A.
    pose proof (put_changes _ _ _ _ _ W) as [Lw Cw].
    rewrite length_app in Lw. simpl in Lw.
    pose proof (is_plain_bound _ _ P) as Ll.
    assert (Fl : Store.field h2 l p = Some (Store.SRef (List.length h))).
    { unfold Store.put in W. unfold Store.field.
      assert (Pa : Store.is_plain (h ++ [{| Store.plain := true;
                                            Store.own := [] |}]) l = true)
        by now rewrite is_plain_old.
      unfold Store.is_plain in Pa.
      destruct (nth_error (h ++ [{| Store.plain := true; Store.own := [] |}]) l)
        as [ob|] eqn:E; [|discriminate].
      rewrite Pa in W.
      assert (Lk : Store.lookup p (Store.own ob) <> None \/
                   String.eqb p "__proto__" = false).
      { destruct F as [F | (F & _ & I)].
        - left. unfold Store.field in F.
          rewrite nth_error_app1 in E by assumption. rewrite E in F.
          congruence.
        - right. now apply inherited_proto. }
      assert (W' : Store.Returns tt
                     (Store.store_at l
                        {| Store.plain := true;
                           Store.own := Store.assign p
                                          (Store.SRef (List.length h))
                                          (Store.own ob) |}
                        (h ++ [{| Store.plain := true; Store.own := [] |}]))
                   = Store.Returns tt h2).
      { rewrite <- W.
        destruct (Store.lookup p (Store.own ob)) eqn:Lo; [reflexivity|].
        destruct Lk as [Lk | Lk]; [congruence|]. now rewrite Lk. }
      inversion W' as [W'']. rewrite store_at_same
        by (rewrite length_app; simpl; lia).
      simpl. apply store_lookup_assign_same. }
    assert (Eo : o' = Store.SRef (List.length h)).
    { destruct F2 as [F2 | (F2 & _)]; congruence. }
    assert (Ch : Store.changes_only (Some (l, p)) h h2).
    { split; [lia|]. intros l' L'.
      destruct (Cw l' ltac:(rewrite length_app; simpl; lia)) as [Pw Fw].
      split; [now rewrite Pw, is_plain_old|].
      intros k. destruct (Fw k) as [E | E]; auto.
      right. now rewrite E, field_old. }
    assert (Pn : Store.is_plain h2 (List.length h) = true).
    { destruct (Cw (List.length h) ltac:(rewrite length_app; simpl; lia))
        as [Pw _].
      now rewrite Pw, is_plain_new. }
    assert (En : forall k, Store.field h2 (List.length h) k = None).
    { intros k.
      destruct (Cw (List.length h) ltac:(rewrite length_app; simpl; lia))
        as [_ Fw].
      destruct (Fw k) as [E | E].
      - inversion E. lia.
      - now rewrite E, field_new. }
    assert (Lt : List.length h < List.length h2) by lia.
    pose proof (Lp [] p) as Lp0.
    split; [exact Lp0|]. split; [exact Lp|]. split; [exact Tp|].
    split; [exact Eo|]. split; [exact Ch|]. split; [exact Pn|].
    split; [exact Lt | exact En].
  - left. unfold Store.ret in S. inversion S; subst h2.
    destruct F as [F | (_ & -> & _)]; [|discriminate].
    repeat split; auto.
    destruct F2 as [F2 | (F2 & _)]; congruence.
Qed.

(** Of the properties of the objects that were there, [set] changes at most
    the one it lands on. *)
Lemma set_from_changes key x : forall parents o h h',
  Store.set_from o parents key x h = Store.Returns tt h' ->
  Store.changes_only (Store.landing h o parents key) h h'.
Proof.
  induction parents as [|p rest IH]; intros o h h' H.
  - simpl in H. pose proof (put_changes _ _ _ _ _ H) as C.
    destruct o; exact C.
  - rewrite set_from_unfold_store in H.
    apply store_bind_returns in H as (c & h1 & G1 & H).
    apply store_bind_returns in H as (u & h2 & S & H).
    apply store_bind_returns in H as (o' & h3 & G2 & H).
    destruct (set_step _ _ _ _ _ _ _ _ _ G1 S G2)
      as (l & -> & P & -> & -> & [(F & N & -> & ->) | K]).
    + simpl. rewrite F, N. now apply IH.
    + destruct K as (_ & Lp & _ & -> & [L2 C2] & P2 & Lt & E2).
      rewrite Lp. apply IH in H.
      destruct (landing_empty h2 (List.length h) rest key E2) as [k0 Lk].
      rewrite Lk in H. destruct H as [L3 C3].
      split; [lia|]. intros l' L'.
      destruct (C2 l' L') as [Pa Fa].
      destruct (C3 l' ltac:(lia)) as [Pb Fb].
      split; [congruence|]. intros k.
      destruct (Fa k) as [E | E]; auto.
      destruct (Fb k) as [E' | E']; [inversion E'; lia|].
      right. congruence.
Qed.

Lemma apart_cons c d cs :
  Store.apart c (d :: cs) = true ->
  c <> Some d /\ Store.apart c cs = true.
Proof.
  destruct c as [[l k]|]; simpl; [|split; [discriminate | reflexivity]].
  destruct d as [l' k']. unfold Store.same_place at 1. simpl.
  intros H. apply negb_true_iff in H. apply orb_false_iff in H as [S R].
  split; [|now rewrite R].
  intros E. inversion E; subst.
  now rewrite Nat.eqb_refl, String.eqb_refl in S.
Qed.



(** ** [set] *)

(** X1: what [set] wrote at a dotted path is what a read along the path
    finds afterwards, also when the objects on the way are shared.  [set]
    returns and the read finds the value where the walk runs through plain
    objects, no name of the path is one that plain objects inherit, and the
    property written is none that the walk passed on its way (the path does
    not lead back into itself). *)
Theorem set_then_read obj path x h :
  forallb (fun k => negb (Store.inherited k)) (split_dot path) = true ->
  Store.walk_plain h obj (Store.parents path) = true ->
  Store.apart (Store.landing h obj (Store.parents path) (Store.key path))
    (Store.trail h obj (Store.parents path)) = true ->
  exists h',
    Store.set obj path x h = Store.Returns tt h' /\
    Store.read obj (split_dot path) h' = Store.Returns x h'.
Proof.
  intros N W A. rewrite <- (split_dot_parts path) in N |- *.
  rewrite forallb_app in N. apply andb_prop in N as [Np Nk].
  simpl in Nk. rewrite andb_true_r in Nk. apply negb_true_iff in Nk.
  unfold Store.set, Store.parents, Store.key in *.
  revert Np Nk W A.
  generalize (last (split_dot path) EmptyString) as key.
  generalize (removelast (split_dot path)) as parents.
  intros parents key. revert obj h.
  induction parents as [|p rest IH]; intros o h Np Nk W A.
  - destruct o; try discriminate. simpl in W.
    rewrite andb_true_r in W.
    destruct (put_plain h l key x W (inherited_proto _ Nk))
      as (h' & H & F & P).
    exists h'. split; [exact H|]. simpl. unfold Store.bind.
    now rewrite (get_field _ _ _ _ P F).
  - destruct o; try discriminate. simpl in W.
    apply andb_prop in W as [P W].
    simpl in Np. apply andb_prop in Np as [Ip Np].
    apply negb_true_iff in Ip.
    rewrite set_from_unfold_store.
    assert (G : exists c, Store.get (Store.SRef l) p h = Store.Returns c h).
    { destruct (Store.field h l p) as [c|] eqn:F.
      - exists c. now apply get_field.
      - exists Store.SUndef. now apply get_missing. }
    destruct G as [c G].
    destruct (Store.nullish c) eqn:N.
    + (* a new object is put under [p] *)
      pose (ha := h ++ [{| Store.plain := true; Store.own := [] |}]).
      assert (Pa : Store.is_plain ha l = true).
      { unfold ha. rewrite is_plain_old; auto. now apply is_plain_bound. }
      destruct (put_plain ha l p (Store.SRef (List.length h)) Pa
                  (inherited_proto _ Ip)) as (h2 & Hp & F2 & P2).
      assert (S : (if Store.nullish c
                   then Store.bind Store.new_object
                          (fun fresh => Store.put (Store.SRef l) p fresh)
                   else Store.ret tt) h = Store.Returns tt h2).
      { rewrite N. unfold Store.bind, Store.new_object. exact Hp. }
      pose proof (get_field _ _ _ _ P2 F2) as G2.
      destruct (set_step _ _ _ _ _ _ _ _ _ G S G2)
        as (l0 & E0 & _ & _ & _ & [(_ & N' & _) | K]); [congruence|].
      destruct K as (_ & _ & _ & _ & _ & Pf & Lt & Ef).
      destruct (IH (Store.SRef (List.length h)) h2 Np Nk) as (h' & H & R).
      { destruct rest; simpl; rewrite Pf; [reflexivity|]. now rewrite Ef. }
      { destruct rest as [|p' rest']; simpl; [reflexivity|].
        now rewrite Ef. }
      exists h'. split.
      * unfold Store.bind at 1. rewrite G.
        unfold Store.bind at 1. rewrite S.
        unfold Store.bind at 1. rewrite G2. exact H.
      * pose proof (set_from_changes _ _ _ _ _ _ H) as [L3 C3].
        destruct (landing_empty h2 (List.length h) rest key Ef) as [k0 Lk].
        rewrite Lk in C3.
        pose proof (is_plain_bound _ _ P) as Ll.
        destruct (C3 l ltac:(lia)) as [P3 F3].
        simpl. unfold Store.bind at 1.
        rewrite (get_field h' l p (Store.SRef (List.length h))).
        -- exact R.
        -- congruence.
        -- destruct (F3 p) as [E | E]; [inversion E; lia | congruence].
    + (* the walk goes on in what [p] holds *)
      assert (F : Store.field h l p = Some c).
      { destruct (get_inv _ _ _ _ _ G) as (_ & l0 & E0 & _ & [F | (_ & -> & _)]);
          [|discriminate].
        now inversion E0; subst. }
      simpl in A. rewrite F, N in A, W. simpl in W.
      apply apart_cons in A as [Al A].
      destruct (IH c h Np Nk W A) as (h' & H & R).
      exists h'. split.
      * unfold Store.bind at 1. rewrite G.
        unfold Store.bind at 1. rewrite N. unfold Store.ret at 1.
        unfold Store.bind at 1. rewrite G. exact H.
      * pose proof (set_from_changes _ _ _ _ _ _ H) as [L3 C3].
        pose proof (is_plain_bound _ _ P) as Ll.
        destruct (C3 l Ll) as [P3 F3].
        simpl. unfold Store.bind at 1.
        rewrite (get_field h' l p c).
        -- exact R.
        -- congruence.
        -- destruct (F3 p) as [E | E]; [congruence | congruence].
Qed.

Lemma set_then_read_witness :
  exists h',
    Store.set (Store.SRef 0) "alias.transform.hidden.jest" (Store.SBool true)
      shared_heap = Store.Returns tt h' /\
    Store.read (Store.SRef 0) ["alias"; "transform"; "hidden"; "jest"] h'
    = Store.Returns (Store.SBool true) h' /\
    Store.read (Store.SRef 0) ["jsc"; "transform"; "hidden"; "jest"] h'
    = Store.Returns (Store.SBool true) h'.
Proof.
  destruct (set_then_read (Store.SRef 0) "alias.transform.hidden.jest"
              (Store.SBool true) shared_heap eq_refl eq_refl eq_refl)
    as (h' & H & R).
  exists h'. split; [exact H|]. split; [exact R|].
  vm_compute in H. inversion H. reflexivity.
Defined.





(* ================================================================== *)
(** * The resolver on shared objects *)
(* ================================================================== *)

Lemma landing_keys h key l k : forall parents o,
  Store.landing h o parents key = Some (l, k) -> In k (parents ++ [key]).
Proof.
  induction parents as [|p rest IH]; intros o H;
    destruct o; try discriminate; simpl in H.
  - inversion H. now left.
  - destruct (Store.field h l0 p) as [c|].
    + destruct (Store.nullish c).
      * inversion H. now left.
      * right. now apply (IH c).
    + inversion H. now left.
Qed.

(** Where a write lands: in the object the walk starts at, under the first
    name of the path, or under one of the names that follow. *)
Lemma landing_split h top parents key l k :
  Store.landing h (Store.SRef top) parents key = Some (l, k) ->
  (l = top /\ k = hd key (parents ++ [key])) \/
  In k (tl (parents ++ [key])).
Proof.
  destruct parents as [|p rest]; simpl; intros H.
  - inversion H. now left.
  - destruct (Store.field h top p) as [c|].
    + destruct (Store.nullish c).
      * inversion H. now left.
      * right. now apply (landing_keys h key l k rest c).
    + inversion H. now left.
Qed.

(** What one step of the resolver does to the heap: it writes where the
    resolver may write, and it leaves a [jsc] that is there in place. *)
Definition resolver_step (top : nat) (h h' : Store.heap) : Prop :=
  Store.changes_where (resolver_writes top) h h' /\
  forall c, Store.field h top "jsc" = Some c -> Store.nullish c = false ->
            Store.field h' top "jsc" = Some c.

Lemma resolver_step_refl top h : resolver_step top h h.
Proof. split; [apply changes_where_refl | auto]. Qed.

Lemma resolver_step_trans top h1 h2 h3 :
  resolver_step top h1 h2 -> resolver_step top h2 h3 ->
  resolver_step top h1 h3.
Proof.
  intros [C1 J1] [C2 J2]. split.
  - now apply (changes_where_trans _ h1 h2 h3).
  - intros c F N. apply J2; auto.
Qed.

Lemma set_under_jsc_step top rest key x h h' :
  Store.set_from (Store.SRef top) ("jsc" :: rest) key x h
  = Store.Returns tt h' ->
  (forall k, In k (rest ++ [key]) -> In k resolver_names) ->
  resolver_step top h h'.
Proof.
  intros H Tl. pose proof (set_from_changes _ _ _ _ _ _ H) as C.
  split.
  - apply (changes_where_more
             (fun l k =>
                Store.landing h (Store.SRef top) ("jsc" :: rest) key
                = Some (l, k)));
      [|exact C].
    intros l k _ E. apply landing_split in E as [[-> ->] | I].
    + left. split; auto.
    + right. now apply Tl.
  - intros c F N. pose proof (field_bound _ _ _ _ F) as Lt.
    destruct C as [_ C]. destruct (C top Lt) as [_ Fk].
    destruct (Fk "jsc") as [E | E]; [|congruence].
    exfalso. simpl in E. rewrite F, N in E.
    apply landing_keys in E. apply Tl in E.
    simpl in E. intuition discriminate.
Qed.

Lemma set_sourceMaps_step top x h h' :
  Store.set_from (Store.SRef top) [] "sourceMaps" x h = Store.Returns tt h' ->
  resolver_step top h h'.
Proof.
  intros H. pose proof (set_from_changes _ _ _ _ _ _ H) as C.
  simpl in C. split.
  - apply (changes_where_more
             (fun l k => Some (top, "sourceMaps") = Some (l, k)));
      [|exact C].
    intros l k _ E. inversion E. left. auto.
  - intros c F N. pose proof (field_bound _ _ _ _ F) as Lt.
    destruct C as [_ C]. destruct (C top Lt) as [_ Fk].
    destruct (Fk "jsc") as [E | E]; [discriminate E | congruence].
Qed.

Lemma get_heap v k h c h' :
  Store.get v k h = Store.Returns c h' -> h' = h.
Proof. intros G. now destruct (get_inv _ _ _ _ _ G). Qed.

Lemma opt_get_heap v k h c h' :
  Store.opt_get v k h = Store.Returns c h' -> h' = h.
Proof.
  unfold Store.opt_get. destruct (Store.nullish v).
  - unfold Store.ret. intros H. now inversion H.
  - apply get_heap.
Qed.

Lemma resolve_heap host p h q h' :
  Store.resolve host p h = Store.Returns q h' -> h' = h.
Proof.
  destruct p; simpl; try discriminate.
  unfold Store.ret. intros H. now inversion H.
Qed.

Lemma set_target_store o x :
  Store.set o "jsc.target" x = Store.set_from o ["jsc"] "target" x.
Proof. reflexivity. Qed.

Lemma set_marker_store o x :
  Store.set o "jsc.transform.hidden.jest" x
  = Store.set_from o ["jsc"; "transform"; "hidden"] "jest" x.
Proof. reflexivity. Qed.

Lemma set_sourceMaps_store o x :
  Store.set o "sourceMaps" x = Store.set_from o [] "sourceMaps" x.
Proof. reflexivity. Qed.

Lemma set_baseUrl_store o x :
  Store.set o "jsc.baseUrl" x = Store.set_from o ["jsc"] "baseUrl" x.
Proof. reflexivity. Qed.

Lemma default_target_step top h u h' :
  Store.default_target (Store.SRef top) h = Store.Returns u h' ->
  resolver_step top h h'.
Proof.
  unfold Store.default_target. intros H. destruct u.
  apply store_bind_returns in H as (env & h1 & G & H).
  apply get_heap in G. subst h1.
  destruct (Store.truthy env).
  { unfold Store.ret in H. inversion H. apply resolver_step_refl. }
  apply store_bind_returns in H as (jsc & h1 & G & H).
  apply get_heap in G. subst h1.
  apply store_bind_returns in H as (target & h1 & G & H).
  apply opt_get_heap in G. subst h1.
  destruct (Store.truthy target).
  { unfold Store.ret in H. inversion H. apply resolver_step_refl. }
  rewrite set_target_store in H.
  apply (set_under_jsc_step top [] "target" _ h h' H).
  intros k [<- | []]. simpl. auto.
Qed.

Lemma mark_jest_step top h u h' :
  Store.mark_jest (Store.SRef top) h = Store.Returns u h' ->
  resolver_step top h h'.
Proof.
  unfold Store.mark_jest. intros H. destruct u.
  rewrite set_marker_store in H.
  apply (set_under_jsc_step top ["transform"; "hidden"] "jest" _ h h' H).
  intros k I. simpl in I. unfold resolver_names. simpl. intuition.
Qed.

Lemma default_sourceMaps_step top h u h' :
  Store.default_sourceMaps (Store.SRef top) h = Store.Returns u h' ->
  resolver_step top h h'.
Proof.
  unfold Store.default_sourceMaps. intros H. destruct u.
  apply store_bind_returns in H as (s & h1 & G & H).
  apply get_heap in G. subst h1.
  destruct (Store.truthy s).
  { unfold Store.ret in H. inversion H. apply resolver_step_refl. }
  rewrite set_sourceMaps_store in H.
  exact (set_sourceMaps_step top _ h h' H).
Qed.

Lemma resolve_baseUrl_step host top h u h' :
  Store.resolve_baseUrl host (Store.SRef top) h = Store.Returns u h' ->
  resolver_step top h h'.
Proof.
  unfold Store.resolve_baseUrl. intros H. destruct u.
  apply store_bind_returns in H as (jsc & h1 & G & H).
  apply get_heap in G. subst h1.
  apply store_bind_returns in H as (b & h1 & G & H).
  apply opt_get_heap in G. subst h1.
  destruct (Store.truthy b).
  2:{ unfold Store.ret in H. inversion H. apply resolver_step_refl. }
  apply store_bind_returns in H as (jsc' & h1 & G & H).
  apply get_heap in G. subst h1.
  apply store_bind_returns in H as (b' & h1 & G & H).
  apply get_heap in G. subst h1.
  apply store_bind_returns in H as (p & h1 & G & H).
  apply resolve_heap in G. subst h1.
  rewrite set_baseUrl_store in H.
  apply (set_under_jsc_step top [] "baseUrl" _ h h' H).
  intros k [<- | []]. unfold resolver_names. simpl. auto 10.
Qed.

(** The rest copy is a new plain object with the own properties of what it
    copies but the excluded one. *)
Lemma object_rest_inv excluded v h r h' :
  Store.object_rest excluded v h = Store.Returns r h' ->
  r = Store.SRef (List.length h) /\
  Store.changes_where (fun _ _ => False) h h' /\
  List.length h < List.length h' /\
  Store.is_plain h' (List.length h) = true /\
  Store.field h' (List.length h) excluded = None /\
  (forall k, k <> excluded ->
             Store.field h' (List.length h) k = Store.own_field h v k).
Proof.
  unfold Store.object_rest. intros H.
  assert (G : exists ps,
             h' = h ++ [{| Store.plain := true;
                           Store.own := Store.remove_key excluded ps |}] /\
             r = Store.SRef (List.length h) /\
             forall k, Store.lookup k ps = Store.own_field h v k).
  { destruct v; try discriminate.
    - inversion H. exists []. auto.
    - inversion H. exists []. auto.
    - inversion H. exists (Store.char_props 0 s). auto.
    - simpl. unfold Store.field.
      destruct (nth_error h l) as [o|]; [|discriminate].
      destruct (Store.plain o); [|discriminate].
      inversion H. exists (Store.own o). auto. }
  destruct G as (ps & -> & -> & F).
  split; [reflexivity|]. split; [apply changes_alloc|].
  split; [rewrite length_app; simpl; lia|].
  split; [now rewrite is_plain_new|].
  split.
  - rewrite field_new. simpl. apply store_lookup_remove_same.
  - intros k N. rewrite field_new. simpl.
    rewrite store_lookup_remove_other by assumption. apply F.
Qed.

(** X6: what the resolver returns and what it writes, with the objects the
    caller holds in view.  The options returned are a new plain object
    without [experimental].  Beside [jsc], [sourceMaps] and the names written
    below [jsc], its properties are the own properties of the options given,
    the same values and the same objects; a [jsc] object that is given is
    taken over as it is, not copied, so what the resolver writes below [jsc]
    it writes into the caller's object.  Of the objects that were there, none
    goes away or stops being plain, and only properties named [target],
    [transform], [hidden], [jest] or [baseUrl] can have changed. *)
Theorem resolver_shares_jsc host swcOptions h r h' :
  Store.buildSwcTransformOpts host swcOptions h = Store.Returns r h' ->
  exists given h0,
    Store.given_options host swcOptions h = Store.Returns given h0 /\
    let top := List.length h0 in
    r = Store.SRef top /\
    Store.is_plain h' top = true /\
    Store.field h' top "experimental" = None /\
    (forall k,
        ~ In k ("experimental" :: "jsc" :: "sourceMaps" :: resolver_names) ->
        Store.field h' top k = Store.own_field h0 given k) /\
    (forall c,
        Store.own_field h0 given "jsc" = Some c -> Store.nullish c = false ->
        Store.field h' top "jsc" = Some c) /\
    List.length h0 <= List.length h' /\
    (forall l, l < List.length h0 ->
       Store.is_plain h' l = Store.is_plain h0 l /\
       forall k, In k resolver_names \/
                 Store.field h' l k = Store.field h0 l k).
Proof.
  intros H. unfold Store.buildSwcTransformOpts in H.
  apply store_bind_returns in H as (given & h0 & G & H).
  apply store_bind_returns in H as (o & ha & R & H).
  apply store_bind_returns in H as (u1 & h1 & S1 & H).
  apply store_bind_returns in H as (u2 & h2 & S2 & H).
  apply store_bind_returns in H as (u3 & h3 & S3 & H).
  apply store_bind_returns in H as (u4 & h4 & S4 & H).
  unfold Store.ret in H. inversion H; subst r h4; clear H.
  exists given, h0. split; [exact G|]. cbv zeta.
  destruct (object_rest_inv _ _ _ _ _ R) as (-> & Ca & La & Pa & Ea & Fa).
  apply default_target_step in S1. apply mark_jest_step in S2.
  apply default_sourceMaps_step in S3. apply resolve_baseUrl_step in S4.
  pose proof (resolver_step_trans _ _ _ _
                (resolver_step_trans _ _ _ _
                   (resolver_step_trans _ _ _ _ S1 S2) S3) S4) as [[L C] J].
  destruct (C (List.length h0) La) as [Pt Ft].
  split; [reflexivity|]. split; [congruence|].
  split.
  { destruct (Ft "experimental") as [W | E]; [|congruence].
    exfalso. unfold resolver_writes, resolver_names in W. simpl in W.
    intuition discriminate. }
  split.
  { intros k N. rewrite <- Fa by (intros ->; apply N; now left).
    destruct (Ft k) as [W | E]; [|exact E].
    exfalso. apply N. unfold resolver_writes in W. simpl.
    destruct W as [[_ [-> | ->]] | W]; auto. }
  split.
  { intros c F N. apply J; auto. rewrite Fa by discriminate. exact F. }
  split; [lia|].
  intros l Ll. destruct Ca as [_ Ca]. destruct (Ca l Ll) as [P0 F0].
  destruct (C l ltac:(lia)) as [P1 F1].
  split; [congruence|]. intros k.
  destruct (F1 k) as [W | E1].
  - left. destruct W as [[-> _] | W]; [lia | exact W].
  - destruct (F0 k) as [[] | E0]. right. congruence.
Qed.

Lemma resolver_shares_jsc_witness :
  exists r h',
    Store.buildSwcTransformOpts example_host (Store.SRef 0) caller_heap
    = Store.Returns r h' /\
    r = Store.SRef 3 /\
    Store.field h' 3 "jsc" = Some (Store.SRef 1) /\
    Store.field h' 3 "minify" = Some (Store.SBool false) /\
    Store.field h' 1 "target" = Some (Store.SStr "es2016") /\
    Store.field h' 0 "jsc" = Some (Store.SRef 1) /\
    Store.field h' 0 "experimental" = Some (Store.SRef 2).
Proof.
  eexists. eexists. split; [reflexivity|].
  match goal with
  | |- _ = _ /\ Store.field ?h' _ _ = _ /\ _ =>
      destruct (resolver_shares_jsc example_host (Store.SRef 0) caller_heap
                  (Store.SRef 3) h' eq_refl)
        as (given & h0 & G & E & _ & _ & K & J & _ & O)
  end.
  unfold Store.given_options, Store.ret in G. simpl in G.
  inversion G; subst given h0; clear G.
  split; [exact E|]. split; [apply J; reflexivity|].
  split.
  { rewrite K; [reflexivity|].
    unfold resolver_names. simpl. intuition discriminate. }
  split; [reflexivity|].
  destruct (O 0 ltac:(simpl; lia)) as [_ F0].
  split.
  - destruct (F0 "jsc") as [I | E0]; [|exact E0].
    unfold resolver_names in I. simpl in I. intuition discriminate.
  - destruct (F0 "experimental") as [I | E0]; [|exact E0].
    unfold resolver_names in I. simpl in I. intuition discriminate.
Defined.
